(** * Metaphone3 encoder (dlclark/metaphone3, metaphone3.go): a shallow embedding

    The Go encoder is a cursor-driven scanner over a rune slice.  Its
    methods read and write the fields of one [Encoder] value and may
    panic (slice index out of range, or the explicit assertion of
    [skipVowels]).  They are embedded as computations of a state and
    error monad [M] over the [Encoder] record; loops whose bound is not
    syntactic carry a fuel argument and report [OutOfFuel] when it is
    exhausted.

    Conventions.
    - Go [int] and [rune] are [Z] (no overflow: lengths are slice lengths).
    - A Go [string] is a Rocq [string], a byte sequence: [len] is its
      number of bytes and [runes] the sequence a [range] loop yields.
    - A [[]rune] is a [list rune]; slice capacity is not modelled.
    - The strings returned by [Encode] are [string(e.primBuf)] and
      [string(e.secondBuf)]: [stringOfRunes] is that conversion.
    - The package variable [debug] is [false] (its initial value; it is
      not exported), so the trace output is left out.
    - [unicode.ToUpper] belongs to the Go library; [Encode] takes it as
      the argument [ToUpper]. *)

From Stdlib Require Import ZArith List String Ascii Bool Lia.
Import ListNotations.
Open Scope string_scope.
Open Scope list_scope.
Open Scope Z_scope.

(** ** Runes and Go strings *)

Definition rune := Z.

Definition rn (c : ascii) : rune := Z.of_N (N_of_ascii c).

Fixpoint bytes (s : string) : list Z :=
  match s with
  | EmptyString => []
  | String c s' => rn c :: bytes s'
  end.

(** [len(s)] of a Go string: its number of bytes. *)
Definition len (s : string) : Z := Z.of_nat (String.length s).

(** [len(l)] of a slice. *)
Definition llen {A} (l : list A) : Z := Z.of_nat (List.length l).

(** [unicode.ReplacementChar], also [utf8.RuneError]. *)
Definition ReplacementChar : rune := 65533.

Definition isCont (b : Z) : bool := (128 <=? b) && (b <=? 191).
Definition inRange (lo hi b : Z) : bool := (lo <=? b) && (b <=? hi).

(** One step of a [range] loop over a string: the rune at the front of
    the bytes and the number of bytes it takes.  Ill-formed input yields
    [RuneError] of width 1, as [utf8.DecodeRuneInString] does. *)
Definition decodeRune (bs : list Z) : rune * nat :=
  match bs with
  | [] => (ReplacementChar, 1%nat)
  | b0 :: r0 =>
    if b0 <? 128 then (b0, 1%nat)
    else if inRange 194 223 b0 then
      match r0 with
      | b1 :: _ =>
        if isCont b1
        then (Z.lor (Z.shiftl (Z.land b0 31) 6) (Z.land b1 63), 2%nat)
        else (ReplacementChar, 1%nat)
      | _ => (ReplacementChar, 1%nat)
      end
    else if inRange 224 239 b0 then
      match r0 with
      | b1 :: b2 :: _ =>
        let lo := if b0 =? 224 then 160 else 128 in
        let hi := if b0 =? 237 then 159 else 191 in
        if inRange lo hi b1 && isCont b2
        then (Z.lor (Z.shiftl (Z.land b0 15) 12)
               (Z.lor (Z.shiftl (Z.land b1 63) 6) (Z.land b2 63)), 3%nat)
        else (ReplacementChar, 1%nat)
      | _ => (ReplacementChar, 1%nat)
      end
    else if inRange 240 244 b0 then
      match r0 with
      | b1 :: b2 :: b3 :: _ =>
        let lo := if b0 =? 240 then 144 else 128 in
        let hi := if b0 =? 244 then 143 else 191 in
        if inRange lo hi b1 && isCont b2 && isCont b3
        then (Z.lor (Z.shiftl (Z.land b0 7) 18)
               (Z.lor (Z.shiftl (Z.land b1 63) 12)
                 (Z.lor (Z.shiftl (Z.land b2 63) 6) (Z.land b3 63))), 4%nat)
        else (ReplacementChar, 1%nat)
      | _ => (ReplacementChar, 1%nat)
      end
    else (ReplacementChar, 1%nat)
  end.

Fixpoint runesOfBytes (fuel : nat) (bs : list Z) : list rune :=
  match fuel with
  | O => []
  | S fuel' =>
    match bs with
    | [] => []
    | _ => let (r, w) := decodeRune bs in r :: runesOfBytes fuel' (skipn w bs)
    end
  end.

(** The runes a [for _, c := range s] loop visits. *)
Definition runes (s : string) : list rune :=
  runesOfBytes (List.length (bytes s)) (bytes s).

(** [string(rs)] for a rune slice [rs]: the UTF-8 encoding of each
    rune, a rune that is not a valid code point being replaced by
    U+FFFD. *)
Definition encodeRune (r : rune) : list Z :=
  if (r <? 0) || (1114111 <? r) || ((55296 <=? r) && (r <=? 57343))
  then [239; 191; 189]
  else if r <=? 127 then [r]
  else if r <=? 2047 then [192 + r / 64; 128 + r mod 64]
  else if r <=? 65535
  then [224 + r / 4096; 128 + (r / 64) mod 64; 128 + r mod 64]
  else [240 + r / 262144; 128 + (r / 4096) mod 64; 128 + (r / 64) mod 64;
        128 + r mod 64].

Fixpoint stringOfBytes (bs : list Z) : string :=
  match bs with
  | [] => EmptyString
  | b :: bs' => String (ascii_of_N (Z.to_N b)) (stringOfBytes bs')
  end.

Definition stringOfRunes (rs : list rune) : string :=
  stringOfBytes (flat_map encodeRune rs).

(** ** Results and the encoder state *)

Inductive result (A : Type) : Type :=
| Ok (a : A)
| Panic (msg : string)
| OutOfFuel.
Arguments Ok {A} a.
Arguments Panic {A} msg.
Arguments OutOfFuel {A}.

Definition bindR {A B} (m : result A) (k : A -> result B) : result B :=
  match m with
  | Ok a => k a
  | Panic msg => Panic msg
  | OutOfFuel => OutOfFuel
  end.

(** [l[i]] with the run-time bounds check. *)
Definition index {A} (l : list A) (i : Z) : result A :=
  if i <? 0 then Panic "index out of range"
  else match nth_error l (Z.to_nat i) with
       | Some x => Ok x
       | None => Panic "index out of range"
       end.

(** [l[lo:]] with the run-time bounds check. *)
Definition sliceFrom {A} (l : list A) (lo : Z) : result (list A) :=
  if (lo <? 0) || (llen l <? lo) then Panic "slice bounds out of range"
  else Ok (skipn (Z.to_nat lo) l).

(** [DefaultMaxLength], the package variable, at its initial value. *)
Definition DefaultMaxLength : Z := 8.

Record Encoder : Type := mkEncoder {
  EncodeVowels : bool;
  EncodeExact : bool;
  MaxLength : Z;
  in_ : list rune;
  idx : Z;
  lastIdx : Z;
  primBuf : list rune;
  secondBuf : list rune;
  flagAlInversion : bool
}.

Definition set_MaxLength (n : Z) (e : Encoder) : Encoder :=
  mkEncoder e.(EncodeVowels) e.(EncodeExact) n e.(in_) e.(idx) e.(lastIdx)
            e.(primBuf) e.(secondBuf) e.(flagAlInversion).
Definition set_in (w : list rune) (e : Encoder) : Encoder :=
  mkEncoder e.(EncodeVowels) e.(EncodeExact) e.(MaxLength) w e.(idx) e.(lastIdx)
            e.(primBuf) e.(secondBuf) e.(flagAlInversion).
Definition set_idx (n : Z) (e : Encoder) : Encoder :=
  mkEncoder e.(EncodeVowels) e.(EncodeExact) e.(MaxLength) e.(in_) n e.(lastIdx)
            e.(primBuf) e.(secondBuf) e.(flagAlInversion).
Definition set_lastIdx (n : Z) (e : Encoder) : Encoder :=
  mkEncoder e.(EncodeVowels) e.(EncodeExact) e.(MaxLength) e.(in_) e.(idx) n
            e.(primBuf) e.(secondBuf) e.(flagAlInversion).
Definition set_primBuf (b : list rune) (e : Encoder) : Encoder :=
  mkEncoder e.(EncodeVowels) e.(EncodeExact) e.(MaxLength) e.(in_) e.(idx) e.(lastIdx)
            b e.(secondBuf) e.(flagAlInversion).
Definition set_secondBuf (b : list rune) (e : Encoder) : Encoder :=
  mkEncoder e.(EncodeVowels) e.(EncodeExact) e.(MaxLength) e.(in_) e.(idx) e.(lastIdx)
            e.(primBuf) b e.(flagAlInversion).
Definition set_flagAlInversion (b : bool) (e : Encoder) : Encoder :=
  mkEncoder e.(EncodeVowels) e.(EncodeExact) e.(MaxLength) e.(in_) e.(idx) e.(lastIdx)
            e.(primBuf) e.(secondBuf) b.

(** [len(e.in)] *)
Definition lenIn (e : Encoder) : Z := llen e.(in_).

(** ** The monad of encoder methods *)

Definition M (A : Type) : Type := Encoder -> result (A * Encoder).

Definition ret {A} (a : A) : M A := fun e => Ok (a, e).

Definition bind {A B} (m : M A) (k : A -> M B) : M B :=
  fun e => match m e with
           | Ok (a, e') => k a e'
           | Panic msg => Panic msg
           | OutOfFuel => OutOfFuel
           end.

Notation "x <- m ;; k" := (bind m (fun x => k))
  (at level 61, m at next level, right associativity).
Notation "m ;; k" := (bind m (fun _ => k))
  (at level 61, right associativity).

(** Reading the state: a Go expression over the fields of [e]. *)
Definition get {A} (f : Encoder -> A) : M A := fun e => Ok (f e, e).

(** A boolean Go expression that only compares fields and locals. *)
Definition test (f : Encoder -> bool) : M bool := get f.

(** A call whose arguments are computed from the fields of [e]. *)
Definition withE {A} (f : Encoder -> M A) : M A := fun e => f e e.

Definition modify (f : Encoder -> Encoder) : M unit := fun e => Ok (tt, f e).

Definition liftR {A} (r : result A) : M A :=
  fun e => match r with
           | Ok a => Ok (a, e)
           | Panic msg => Panic msg
           | OutOfFuel => OutOfFuel
           end.

Definition panic {A} (msg : string) : M A := fun _ => Panic msg.

(** [if c { t } else { f }] *)
Definition ifM {A} (c : M bool) (t f : M A) : M A :=
  b <- c ;; if b then t else f.

(** [if c { t }] *)
Definition whenM (c : M bool) (t : M unit) : M unit := ifM c t (ret tt).

(** Go's short-circuit [&&], [||] and [!] over calls that may have effects. *)
Definition andM (a b : M bool) : M bool := x <- a ;; if x then b else ret false.
Definition orM (a b : M bool) : M bool := x <- a ;; if x then ret true else b.
Definition notM (a : M bool) : M bool := x <- a ;; ret (negb x).

Notation "a &&& b" := (andM a b) (at level 40, left associativity).
Notation "a ||| b" := (orM a b) (at level 50, left associativity).

(** [for c { body }], with fuel. *)
Fixpoint whileM (fuel : nat) (c : M bool) (body : M unit) : M unit :=
  b <- c ;;
  if b then
    match fuel with
    | O => fun _ => OutOfFuel
    | S fuel' => body ;; whileM fuel' c body
    end
  else ret tt.

(** Cursor updates: [e.idx++], [e.idx--], [e.idx += n], [e.idx = n]. *)
Definition setIdx (n : Z) : M unit := modify (set_idx n).
Definition addIdx (n : Z) : M unit := modify (fun e => set_idx (e.(idx) + n) e).
Definition incIdx : M unit := addIdx 1.
Definition decIdx : M unit := modify (fun e => set_idx (e.(idx) - 1) e).
Definition assignIdx (m : M Z) : M unit := n <- m ;; setIdx n.
Definition setFlagAlInversion (b : bool) : M unit := modify (set_flagAlInversion b).

(** ** Functions to identify patterns *)

(** [isVowel]: vowels in many languages and character sets. *)
Definition isVowel (inChar : rune) : bool :=
  (inChar =? rn "A") || (inChar =? rn "E") || (inChar =? rn "I") ||
  (inChar =? rn "O") || (inChar =? rn "U") || (inChar =? rn "Y") ||
  (* À Á Â Ã Ä Å Æ *)
  (inChar =? 192) || (inChar =? 193) || (inChar =? 194) || (inChar =? 195) ||
  (inChar =? 196) || (inChar =? 197) || (inChar =? 198) ||
  (* È É Ê Ë *)
  (inChar =? 200) || (inChar =? 201) || (inChar =? 202) || (inChar =? 203) ||
  (* Ì Í Î Ï *)
  (inChar =? 204) || (inChar =? 205) || (inChar =? 206) || (inChar =? 207) ||
  (* Ò Ó Ô Õ Ö Ø *)
  (inChar =? 210) || (inChar =? 211) || (inChar =? 212) || (inChar =? 213) ||
  (inChar =? 214) || (inChar =? 216) ||
  (* Ù Ú Û Ü Ý *)
  (inChar =? 217) || (inChar =? 218) || (inChar =? 219) || (inChar =? 220) ||
  (inChar =? 221) ||
  (* '슟', '슌' *)
  (inChar =? 49823) || (inChar =? 49804).

(** [areEqual]: the loop compares [buf1[i]] with [buf2[i]] for
    [i < len(buf1)], after the lengths were found equal. *)
Fixpoint areEqualFrom (buf1 buf2 : list rune) (i : Z) (n : nat) : result bool :=
  match n with
  | O => Ok true
  | S n' =>
    bindR (index buf1 i) (fun a =>
    bindR (index buf2 i) (fun b =>
    if negb (a =? b) then Ok false else areEqualFrom buf1 buf2 (i + 1) n'))
  end.

Definition areEqual (buf1 buf2 : list rune) : result bool :=
  if negb (llen buf1 =? llen buf2) then Ok false
  else areEqualFrom buf1 buf2 0 (List.length buf1).

(** The loop [for i := 0; i < last; i++] of [rootOrInflections]:
    [Ok false] stands for its [return false]. *)
Fixpoint rootPrefix (inWord : list rune) (root : list Z) (i : Z) (n : nat)
  : result bool :=
  match n with
  | O => Ok true
  | S n' =>
    bindR (index inWord i) (fun a =>
    bindR (index root i) (fun b =>
    if negb (a =? b) then Ok false else rootPrefix inWord root (i + 1) n'))
  end.

Definition andR (a b : result bool) : result bool :=
  bindR a (fun x => if x then b else Ok false).
Definition orR (a b : result bool) : result bool :=
  bindR a (fun x => if x then Ok true else b).
(** [l[i] == c] *)
Definition isAt (l : list rune) (i : Z) (c : rune) : result bool :=
  bindR (index l i) (fun x => Ok (x =? c)).

(** [rootOrInflections]: is the word the root or a regular English
    inflection of it, e.g. "ache", "achy", "aches", "ached", "aching",
    "achingly". *)
Definition rootOrInflections (inWord : list rune) (root : string) : result bool :=
  let lenDiff := llen inWord - len root in
  if lenDiff <? 0 then Ok false else
  let last := len root - 1 in
  bindR (rootPrefix inWord (bytes root) 0 (Z.to_nat last)) (fun same =>
  if negb same then Ok false else
  bindR (sliceFrom inWord last) (fun inWord =>
  bindR (index (bytes root) last) (fun rootLast =>
  bindR (bindR (isAt inWord 0 rootLast) (fun m =>
           if m then
             if lenDiff =? 0 then Ok true
             else andR (Ok (lenDiff =? 1)) (isAt inWord 1 (rn "S"))
           else Ok false)) (fun done1 =>
  if done1 then Ok true else
  bindR (if rootLast =? rn "E" then
           bindR (andR (andR (Ok (lenDiff =? 1)) (isAt inWord 0 (rn "E")))
                       (isAt inWord 1 (rn "D")))
                 (fun b => Ok (if b then Some true else None))
         else
           bindR (isAt inWord 0 rootLast) (fun m =>
           if negb m then Ok (Some false) else
           bindR (andR (andR (Ok (lenDiff =? 2)) (isAt inWord 1 (rn "E")))
                       (orR (isAt inWord 2 (rn "S")) (isAt inWord 2 (rn "D"))))
                 (fun b => Ok (if b then Some true else None))))
        (fun returned =>
  match returned with
  | Some b => Ok b
  | None =>
    bindR (andR (Ok (lenDiff =? 3)) (areEqual inWord (runes "ING"))) (fun c1 =>
    if c1 then Ok true else
    bindR (andR (Ok (lenDiff =? 5)) (areEqual inWord (runes "INGLY"))) (fun c2 =>
    if c2 then Ok true else
    bindR (andR (Ok (lenDiff =? 1)) (isAt inWord 0 (rn "Y"))) (fun c3 =>
    if c3 then Ok true else Ok false)))
  end))))).

(** [e.in[i]] *)
Definition inAt (i : Z) : M rune := fun e => liftR (index e.(in_) i) e.

Definition isVowelAt (offset : Z) : M bool := fun e =>
  let at_ := e.(idx) + offset in
  if (at_ <? 0) || (at_ >=? lenIn e) then Ok (false, e)
  else (c <- inAt at_ ;; ret (isVowel c)) e.

Definition charAt (offset : Z) (c : rune) : M bool := fun e =>
  let i := e.(idx) + offset in
  if i >=? lenIn e then Ok (false, e)
  else (x <- inAt i ;; ret (x =? c)) e.

Definition charNextIs (c : rune) : M bool := charAt 1 c.

(** The inner loop of the matchers, [for _, c := range v], comparing
    [c] with [e.in[at]] and stepping [at]: [Ok false] is the
    [continue nextVal] of a mismatch, [Ok true] the fall through. *)
Fixpoint matchRunes (w : list rune) (at_ : Z) (cs : list rune) : result bool :=
  match cs with
  | [] => Ok true
  | c :: cs' =>
    bindR (index w at_) (fun x =>
    if negb (c =? x) then Ok false else matchRunes w (at_ + 1) cs')
  end.

(** The [nextVal] loop of [stringAt]. *)
Fixpoint stringAtVals (w : list rune) (start : Z) (vals : list string)
  : result bool :=
  match vals with
  | [] => Ok false
  | v :: vals' =>
    if start + len v >? llen w then Ok false
    else bindR (matchRunes w start (runes v)) (fun m =>
         if m then Ok true else stringAtVals w start vals')
  end.

(** The guard that opens [stringAt] and [stringAtEnd]; [vals[0]] is
    read only when the first two tests fail. *)
Definition startOutside (w : list rune) (start : Z) (vals : list string)
  : result bool :=
  if (start <? 0) || (start >=? llen w) then Ok true
  else bindR (index vals 0) (fun v0 => Ok (start + len v0 >? llen w)).

(** [stringAt]: is one of the substrings located at the offset
    relative to the cursor. *)
Definition stringAt (offset : Z) (vals : list string) : M bool := fun e =>
  let start := e.(idx) + offset in
  liftR (bindR (startOutside e.(in_) start vals) (fun out =>
         if out then Ok false else stringAtVals e.(in_) start vals)) e.

(** [stringAtStart]: the offset must be the start of the word. *)
Definition stringAtStart (offset : Z) (vals : list string) : M bool := fun e =>
  if negb (offset =? - e.(idx)) then Ok (false, e)
  else stringAt offset vals e.

(** The [nextVal] loop of [stringAtEnd]. *)
Fixpoint stringAtEndVals (w : list rune) (start : Z) (vals : list string)
  : result bool :=
  match vals with
  | [] => Ok false
  | v :: vals' =>
    let last := start + len v in
    let inlen := llen w in
    if last >? inlen then Ok false
    else if last <? inlen then stringAtEndVals w start vals'
    else bindR (matchRunes w start (runes v)) (fun m =>
         if m then Ok true else stringAtEndVals w start vals')
  end.

(** [stringAtEnd]: one of the substrings is at the offset and uses all
    the remaining letters of the input. *)
Definition stringAtEnd (offset : Z) (vals : list string) : M bool := fun e =>
  let start := e.(idx) + offset in
  liftR (bindR (startOutside e.(in_) start vals) (fun out =>
         if out then Ok false else stringAtEndVals e.(in_) start vals)) e.

Definition stringStart (vals : list string) : M bool :=
  withE (fun e => stringAt (- e.(idx)) vals).

(** The [nextVal] loop of [stringEnd]. *)
Fixpoint stringEndVals (w : list rune) (vals : list string) : result bool :=
  match vals with
  | [] => Ok false
  | v :: vals' =>
    let i := llen w - len v in
    if i <? 0 then Ok false
    else bindR (matchRunes w i (runes v)) (fun m =>
         if m then Ok true else stringEndVals w vals')
  end.

(** [stringEnd]: does the word end with one of the values, whatever
    the cursor. *)
Definition stringEnd (vals : list string) : M bool := fun e =>
  liftR (stringEndVals e.(in_) vals) e.

(** The [nextVal] loop of [stringExact]. *)
Fixpoint stringExactVals (w : list rune) (vals : list string) : result bool :=
  match vals with
  | [] => Ok false
  | v :: vals' =>
    if len v >? llen w then Ok false
    else if len v <? llen w then stringExactVals w vals'
    else bindR (matchRunes w 0 (runes v)) (fun m =>
         if m then Ok true else stringExactVals w vals')
  end.

Definition stringExact (vals : list string) : M bool := fun e =>
  liftR (stringExactVals e.(in_) vals) e.

(** The inner loop of [stringContains]: it steps [tmp] while the runes
    of [val] agree with the input and stops ([break]) at a mismatch. *)
Fixpoint containsRun (w : list rune) (tmp : Z) (cs : list rune) : result Z :=
  match cs with
  | [] => Ok tmp
  | c :: cs' =>
    bindR (index w tmp) (fun x =>
    if negb (x =? c) then Ok tmp else containsRun w (tmp + 1) cs')
  end.

(** The loop [for i := 0; i <= lastPossibleStart; i++] of
    [stringContains], with [n] iterations left. *)
Fixpoint containsFrom (w : list rune) (val : string) (i : Z) (n : nat)
  : result bool :=
  match n with
  | O => Ok false
  | S n' =>
    bindR (containsRun w i (runes val)) (fun tmp =>
    if tmp - i =? len val then Ok true else containsFrom w val (i + 1) n')
  end.

Definition stringContains (val : string) : M bool := fun e =>
  let lastPossibleStart := lenIn e - len val in
  if lastPossibleStart <? 0 then Ok (false, e)
  else liftR (containsFrom e.(in_) val 0 (Z.to_nat (lastPossibleStart + 1))) e.

Definition isSlavoGermanic : M bool :=
  stringStart ["SCH"; "SW"]
  ||| (c <- inAt 0 ;; ret (c =? rn "J"))
  ||| (c <- inAt 0 ;; ret (c =? rn "W")).

(** ** Functions to mutate the outputs *)

(** The guard of the appends: the value is the marker and the buffer
    already ends with it.  [buf[len(buf)-1]] is read only when
    [len(buf) > 0]. *)
Definition lastIsA (buf : list rune) : result bool :=
  andR (Ok (llen buf >? 0)) (isAt buf (llen buf - 1) (rn "A")).

(** [metaphAddAlt]: adds the given runes to the primary and secondary
    buffers. *)
Definition metaphAddAlt (prim second : rune) : M unit :=
  whenM (test (fun _ => negb (prim =? ReplacementChar)))
    (* don't dupe added A's *)
    (whenM (notM (test (fun _ => prim =? rn "A")
                  &&& withE (fun e => liftR (lastIsA e.(primBuf)))))
       (modify (fun e => set_primBuf (e.(primBuf) ++ [prim]) e))) ;;
  whenM (test (fun _ => negb (second =? ReplacementChar)))
    (whenM (notM (test (fun _ => second =? rn "A")
                  &&& withE (fun e => liftR (lastIsA e.(secondBuf)))))
       (modify (fun e => set_secondBuf (e.(secondBuf) ++ [second]) e))).

Definition metaphAdd (c : rune) : M unit := metaphAddAlt c c.

(** [metaphAddStr]: adds the given strings to the buffers. *)
Definition metaphAddStr (prim second : string) : M unit :=
  whenM (notM (test (fun _ => String.eqb prim "A")
               &&& withE (fun e => liftR (lastIsA e.(primBuf)))))
    (modify (fun e => set_primBuf (e.(primBuf) ++ runes prim) e)) ;;
  whenM (test (fun _ => negb (String.eqb second ""))
         &&& notM (test (fun _ => String.eqb second "A")
                   &&& withE (fun e => liftR (lastIsA e.(secondBuf)))))
    (modify (fun e => set_secondBuf (e.(secondBuf) ++ runes second) e)).

Definition metaphAddExactApproxAlt (exact altExact main alt : string) : M unit :=
  ifM (test EncodeExact)
    (metaphAddStr exact altExact)
    (metaphAddStr main alt).

Definition metaphAddExactApprox (exact main : string) : M unit :=
  ifM (test EncodeExact)
    (metaphAddStr exact exact)
    (metaphAddStr main main).

(** The loop of [skipVowels] over the locals [it] and [off]; it
    returns the final [off]. *)
Fixpoint skipVowelsLoop (fuel : nat) (it : rune) (off : Z) : M Z :=
  if isVowel it || (it =? rn "W") then
    match fuel with
    | O => fun _ => OutOfFuel
    | S fuel' =>
      ifM (stringAt off ["WICZ"; "WITZ"; "WIAK"]
           ||| stringAt (off - 1) ["EWSKI"; "EWSKY"; "OWSKI"; "OWSKY"]
           ||| stringAtEnd off ["WICKI"; "WACKI"])
        (ret off)
        (let off := off + 1 in
         off <- ifM (charAt (off - 1) (rn "W")
                     &&& charAt off (rn "H")
                     &&& notM (stringAt off ["HOP"; "HIDE"; "HARD"; "HEAD"; "HAWK";
                                 "HERD"; "HOOK"; "HAND"; "HOLE";
                                 "HEART"; "HOUSE"; "HOUND"; "HAMMER"]))
                  (ret (off + 1))
                  (ret off) ;;
         ifM (test (fun e => e.(idx) + off >? e.(lastIdx)))
           (ret off)
           (it <- withE (fun e => inAt (e.(idx) + off)) ;;
            skipVowelsLoop fuel' it off))
    end
  else ret off.

Definition skipVowels (at_ : Z) : M Z :=
  if at_ <? 0 then ret 0
  else
    ifM (test (fun e => at_ >=? lenIn e))
      (get lenIn)
      (it <- inAt at_ ;;
       off <- get (fun e => at_ - e.(idx)) ;;
       off <- withE (fun e => skipVowelsLoop (List.length e.(in_)) it off) ;;
       if off <? 1 then panic "bug: skipping vowels moving backward"
       else get (fun e => e.(idx) + off - 1)).

Definition advanceCounter (noEncodeVowel encodeVowel : Z) : M unit :=
  ifM (test EncodeVowels)
    (addIdx encodeVowel)
    (addIdx noEncodeVowel).

(** [primeBuf]: the buffer comes back with length 0 on each of its
    paths (a fresh one, [buf[0:0]], or [buf] itself when already
    empty); capacity is not modelled. *)
Definition primeBuf (buf : list rune) (ensureCap : Z) : list rune :=
  if negb (llen buf =? 0) then firstn 0 buf else buf.

(** ** Detailed encoder functions *)

(** [encodeSilentB], metaphone3.go line 174.  Encodes silent 'B' for cases not
    covered under '-mb-' *)
Definition encodeSilentB : M bool :=
  ifM (stringAt (-2) ["DEBT"; "SUBTL"; "SUBTIL"] ||| stringAt (-3) ["DOUBT"])
  (metaphAdd (rn "T") ;;
    incIdx ;;
    ret true)
  (ret false).

(** [encodeB], metaphone3.go line 157. *)
Definition encodeB : M unit :=
  ifM encodeSilentB
  (ret tt)
  (metaphAddExactApprox "B" "P" ;;
    whenM (charNextIs (rn "B") |||
      (charNextIs (rn "P") &&& test (fun e => (e.(idx) + 2 <? lenIn e)) &&&
          (c <- withE (fun e => inAt (e.(idx) + 2)) ;; ret (negb (c =? (rn "H"))))))
    incIdx).

(** [encodeSilentCAtBeginning], metaphone3.go line 218. *)
Definition encodeSilentCAtBeginning : M bool :=
  ifM (test (fun e => (e.(idx) =? 0)) &&& stringAt 0 ["CT"; "CN"])
  (ret true)
  (ret false).

(** [encodeCaToS], metaphone3.go line 227.  Encodes exceptions where '-CA-'
    should encode to S instead of K including cases where the cedilla has not
    been used *)
Definition encodeCaToS : M bool :=
  ifM ((test (fun e => (e.(idx) =? 0)) &&& stringAt 0 ["CAES"; "CAEC"; "CAEM"]) |||
    stringStart ["FACADE"; "FRANCAIS"; "FRANCAIX"; "LINGUICA"; "GONCALVES"; "PROVENCAL"])
  (metaphAdd (rn "S") ;;
    advanceCounter 1 0 ;;
    ret true)
  (ret false).

(** [encodeCoToS], metaphone3.go line 242.  Encodes exceptions where '-CO-'
    encodes to S instead of K including cases where the cedilla has not been
    used *)
Definition encodeCoToS : M bool :=
  ifM (stringAt 0 ["COEL"] &&& (isVowelAt 4 ||| test (fun e => (e.(idx) + 3 =? e.(lastIdx)))) |||
    stringAt 0 ["COENA"; "COENO"] ||| stringStart ["GARCON"; "FRANCOIS"; "MELANCON"])
  (metaphAdd (rn "S") ;;
    advanceCounter 2 0 ;;
    ret true)
  (ret false).

(** [encodeChae], metaphone3.go line 287. *)
Definition encodeChae : M bool :=
  ifM (test (fun e => (e.(idx) >? 0)) &&& stringAt 2 ["AE"])
  (ifM (stringStart ["RACHAEL"])
    (metaphAdd (rn "X"))
    (whenM (notM (stringAt (-1) ["C"; "K"; "G"; "Q"]))
      (metaphAdd (rn "K"))) ;;
    advanceCounter 3 1 ;;
    ret true)
  (ret false).

(** [encodeChToH], metaphone3.go line 307.  Encodes transliterations from the
    hebrew where the sound 'kh' is represented as '-CH-'. The normal
    pronounciation of this in english is either 'h' or 'kh', and alternate
    spellings most often use '-H-' *)
Definition encodeChToH : M bool :=
  ifM ((test (fun e => (e.(idx) =? 0)) &&&
      (stringAt 2 ["AIM"; "ETH"; "ELM"; "ASID"; "AZAN";
          "UPPAH"; "UTZPA"; "ALLAH"; "ALUTZ"; "AMETZ";
          "ESHVAN"; "ADARIM"; "ANUKAH"; "ALLLOTH"; "ANNUKAH"; "AROSETH"])) |||
    stringAt (-3) ["CLACHAN"])
  (metaphAdd (rn "H") ;;
    advanceCounter 2 1 ;;
    ret true)
  (ret false).

(** [encodeSilentCh], metaphone3.go line 323. *)
Definition encodeSilentCh : M bool :=
  ifM (stringAt (-2) ["YACHT"; "FUCHSIA"] |||
    stringStart ["STRACHAN"; "CRICHTON"] |||
    (stringAt (-3) ["DRACHM"] &&& notM (stringAt (-3) ["DRACHMA"])))
  (incIdx ;;
    ret true)
  (ret false).

(** [encodeArch], metaphone3.go line 419.  Encode '-ARCH-'. Some occurances
    are from greek roots and therefore encode to 'K', others are from english
    words and therefore encode to 'X' *)
Definition encodeArch : M bool :=
  ifM (stringAt (-2) ["ARCH"])
  (ifM (((isVowelAt 2 &&& stringAt (-2) ["ARCHA"; "ARCHI"; "ARCHO"; "ARCHU"; "ARCHY"]) |||
        stringAt (-2) ["ARCHEA"; "ARCHEG"; "ARCHEO"; "ARCHET"; "ARCHEL"; "ARCHES"; "ARCHEP";
            "ARCHEM"; "ARCHEN"] |||
        stringAtEnd (-2) ["ARCH"] |||
        stringStart ["MENARCH"]) &&&
      (notM (withE (fun e => liftR (rootOrInflections e.(in_) "ARCH"))) &&&
        notM (stringAt (-4) ["SEARCH"; "POARCH"]) &&&
        notM (stringStart ["ARCHER"; "ARCHIE"; "ARCHENEMY"; "ARCHIBALD"; "ARCHULETA";
            "ARCHAMBAU"]) &&&
        notM ((((stringAt (-3) ["LARCH"; "MARCH"; "PARCH"] |||
                stringAt (-4) ["STARCH"]) &&&
              notM (stringStart ["EPARCH"; "NOMARCH"; "EXILARCH"; "HIPPARCH"; "MARCHESE";
                  "ARISTARCH"; "MARCHETTI"])) |||
            withE (fun e => liftR (rootOrInflections e.(in_) "STARCH"))) &&&
          (notM (stringAt (-2) ["ARCHU"; "ARCHY"]) ||| stringStart ["STARCHY"]))))
    (metaphAddAlt (rn "K") (rn "X"))
    (metaphAdd (rn "X")) ;;
    incIdx ;;
    ret true)
  (ret false).

(** [encodeChToX], metaphone3.go line 334. *)
Definition encodeChToX : M bool :=
  ifM ((stringAt (-2) ["OACH"; "EACH"; "EECH"; "OUCH"; "OOCH"; "MUCH"; "SUCH"] &&&
      notM (stringAt (-3) ["JOACH"])) |||
    stringAtEnd (-1) ["ACHA"; "ACHO"] |||
    stringAtEnd 0 ["CHOT"; "CHOD"; "CHAT"] |||
    (stringAtEnd (-1) ["OCHE"] &&& notM (stringAt (-2) ["DOCHE"])) |||
    stringAt (-4) ["ATTACH"; "DETACH"; "KOVACH"; "PARACHUT"] |||
    stringAt (-5) ["SPINACH"; "MASSACHU"] |||
    stringStart ["MACHAU"] |||
    (stringAt (-3) ["THACH"] &&& notM (stringAt 2 ["E"])) |||
    stringAt (-2) ["VACHON"])
  (metaphAdd (rn "X") ;;
    incIdx ;;
    ret true)
  (ret false).

(** [encodeEnglishChToK], metaphone3.go line 354. *)
Definition encodeEnglishChToK : M bool :=
  ifM ((test (fun e => (e.(idx) =? 1)) &&&
      withE (fun e => liftR (rootOrInflections e.(in_) "ACHE"))) |||
    ((test (fun e => (e.(idx) >? 3)) &&&
        withE (fun e => liftR (bindR (sliceFrom e.(in_) (e.(idx) - 1)) (fun w => rootOrInflections w "ACHE")))) &&&
      stringStart ["EAR"; "HEAD"; "BACK"; "HEART"; "BELLY"; "TOOTH"]) |||
    stringAt (-1) ["ECHO"] |||
    stringAt (-2) ["MICHEAL"] |||
    stringAt (-4) ["JERICHO"] |||
    stringAt (-5) ["LEPRECH"])
  (metaphAddAlt (rn "K") (rn "X") ;;
    incIdx ;;
    ret true)
  (ret false).

(** [encodeGermanicChToK], metaphone3.go line 372. *)
Definition encodeGermanicChToK : M bool :=
  ifM ((test (fun e => (e.(idx) >? 1)) &&&
      notM (isVowelAt (-2)) &&&
      stringAt (-1) ["ACH"] &&&
      notM (stringAt (-2) ["MACHADO"; "MACHUCA"; "LACHANC"; "LACHAPE"; "KACHATU"]) &&&
      notM (stringAt (-3) ["KHACHAT"]) &&&
      (notM (charAt 2 (rn "I")) &&& (notM (charAt 2 (rn "E")) ||| stringAt (-2) ["BACHER";
          "MACHER"; "MACHEN"; "LACHER"])) |||
      (stringAt 2 ["T"; "S"] &&& notM (stringStart ["WHICHSOEVER"; "LUNCHTIME"])) |||
      stringStart ["SCHR"] |||
      (test (fun e => (e.(idx) >? 2)) &&& stringAt (-2) ["MACHE"]) |||
      (test (fun e => (e.(idx) =? 2)) &&& stringAt (-2) ["ZACH"]) |||
      stringAt (-4) ["SCHACH"] |||
      stringAt (-1) ["ACHEN"] |||
      stringAt (-3) ["SPICH"; "ZURCH"; "BUECH"] |||
      (stringAt (-3) ["KIRCH"; "JOACH"; "BLECH"; "MALCH"] &&&
        notM (stringAt (-3) ["KIRCHNER"] ||| test (fun e => (e.(idx) + 1 =? e.(lastIdx))))) |||
      stringAtEnd (-2) ["NICH"; "LICH"; "BACH"] |||
      (stringAtEnd (-3) ["URICH"; "BRICH"; "ERICH"; "DRICH"; "NRICH"] &&&
        notM (stringAtEnd (-5) ["ALDRICH"]) &&&
        notM (stringAtEnd (-6) ["GOODRICH"]) &&&
        notM (stringAtEnd (-7) ["GINGERICH"]))) |||
    stringAtEnd (-4) ["ULRICH"; "LFRICH"; "LLRICH"; "EMRICH"; "ZURICH"; "EYRICH"] |||
    ((stringAt (-1) ["A"; "O"; "U"; "E"] ||| test (fun e => (e.(idx) =? 0))) &&&
      stringAt 2 ["L"; "R"; "N"; "M"; "B"; "H"; "F"; "V"; "W"; " "]))
  (ifM (stringAt 2 ["R"; "L"] ||| isSlavoGermanic)
    (metaphAdd (rn "K"))
    (metaphAddAlt (rn "K") (rn "X")) ;;
    incIdx ;;
    ret true)
  (ret false).

(** [encodeGreekChInitial], metaphone3.go line 447. *)
Definition encodeGreekChInitial : M bool :=
  ifM ((stringAt 0 ["CHAMOM"; "CHARAC"; "CHARIS"; "CHARTO"; "CHARTU"; "CHARYB"; "CHRIST"; "CHEMIC";
      "CHILIA"] |||
      (stringAt 0 ["CHEMI"; "CHEMO"; "CHEMU"; "CHEMY"; "CHOND"; "CHONA"; "CHONI"; "CHOIR"; "CHASM";
          "CHARO"; "CHROM"; "CHROI"; "CHAMA"; "CHALC"; "CHALD"; "CHAET"; "CHIRO"; "CHILO"; "CHELA";
              "CHOUS";
          "CHEIL"; "CHEIR"; "CHEIM"; "CHITI"; "CHEOP"] &&& notM (stringAt 0 ["CHEMIN"] |||
              stringAt (-2) ["ANCHONDO"])) |||
      (stringAt 0 ["CHISM"; "CHELI"] &&&
        notM (stringStart ["MICHEL"; "MACHISMO"; "RICHELIEU"; "REVANCHISM"] |||
          stringExact ["CHISM"])) |||
      (stringAt 0 ["CHOR"; "CHOL"; "CHYM"; "CHYL"; "CHLO"; "CHOS"; "CHUS"; "CHOE"] &&&
          notM (stringStart ["CHOLLO"; "CHOLLA"; "CHORIZ"])) |||
      (stringAt 0 ["CHAO"] &&& test (fun e => negb (e.(idx) + 3 =? e.(lastIdx)))) |||
      (stringAt 0 ["CHIA"] &&& notM (stringStart ["CHIAPAS"; "APPALACHIA"])) |||
      stringAt 0 ["CHIMERA"; "CHIMAER"; "CHIMERI"] |||
      stringStart ["CHAME"; "CHELO"; "CHITO"] |||
      (test (fun e => ((e.(idx) + 4 =? e.(lastIdx)) || (e.(idx) + 5 =? e.(lastIdx)))) &&&
          stringAt (-1) ["OCHETE"])) &&&
    notM (stringExact ["CHORE"; "CHOLO"; "CHOLA"] |||
      stringAt 0 ["CHORT"; "CHOSE"] |||
      stringAt (-3) ["CROCHET"] |||
      stringStart ["CHEMISE"; "CHARISE"; "CHARISS"; "CHAROLE"]))
  (ifM (stringAt 2 ["R"; "L"])
    (metaphAdd (rn "K"))
    (metaphAddAlt (rn "K") (rn "X")) ;;
    incIdx ;;
    ret true)
  (ret false).

(** [encodeGreekChNonInitial], metaphone3.go line 487. *)
Definition encodeGreekChNonInitial : M bool :=
  ifM (stringAt (-2) ["LYCHN"; "TACHO"; "ORCHO"; "ORCHI"; "LICHO"; "ORCHID"; "NICHOL";
      "MECHAN"; "LICHEN"; "MACHIC"; "PACHEL"; "RACHIF"; "RACHID";
      "RACHIS"; "RACHIC"; "MICHAL"; "ORCHESTR"] |||
    stringAt (-3) ["MELCH"; "GLOCH"; "TRACH"; "TROCH"; "BRACH"; "SYNCH"; "PSYCH";
      "STICH"; "PULCH"; "EPOCH"] |||
    (stringAt (-3) ["TRICH"] &&& notM (stringAt (-5) ["OSTRICH"])) |||
    (stringAt (-2) ["TYCH"; "TOCH"; "BUCH"; "MOCH"; "CICH"; "DICH"; "NUCH"; "EICH"; "LOCH";
        "DOCH"; "ZECH"; "WYCH"] &&& notM (stringAt (-4) ["INDOCHINA"] |||
            stringAt (-2) ["BUCHON"])) |||
    (test (fun e => ((e.(idx) =? 1) || (e.(idx) =? 2))) &&& stringAt (-1) ["OCHER"; "ECHIN";
        "ECHID"]) |||
    stringAt (-4) ["BRONCH"; "STOICH"; "STRYCH"; "TELECH"; "PLANCH"; "CATECH"; "MANICH"; "MALACH";
      "BIANCH"; "DIDACH"; "BRANCHIO"; "BRANCHIF"] |||
    stringStart ["ICHA"; "ICHN"] |||
    (stringAt (-1) ["ACHAB"; "ACHAD"; "ACHAN"; "ACHAZ"] &&& notM (stringAt (-2) ["MACHADO";
        "LACHANC"])) |||
    stringAt (-1) ["ACHISH"; "ACHILL"; "ACHAIA"; "ACHENE"; "ACHAIAN"; "ACHATES"; "ACHIRAL";
        "ACHERON";
      "ACHILLEA"; "ACHIMAAS"; "ACHILARY"; "ACHELOUS"; "ACHENIAL"; "ACHERNAR";
      "ACHALASIA"; "ACHILLEAN"; "ACHIMENES"; "ACHIMELECH"; "ACHITOPHEL"] |||
    (test (fun e => (e.(idx) =? 2)) &&& (stringStart ["INCHOA"]) |||
      stringStart ["ISCH"]) |||
    (test (fun e => (e.(idx) + 1 =? e.(lastIdx))) &&& stringAt (-1) ["A"; "O"; "U"; "E"] &&&
      notM (stringStart ["DEBAUCH"] ||| stringAt (-2) ["MUCH"; "SUCH"; "KOCH"] |||
        stringAt (-5) ["OODRICH"; "ALDRICH"])))
  (metaphAddAlt (rn "K") (rn "X") ;;
    incIdx ;;
    ret true)
  (ret false).

(** [encodeCh], metaphone3.go line 255. *)
Definition encodeCh : M bool :=
  ifM (notM (stringAt 0 ["CH"]))
  (ret false)
  (ifM (encodeChae |||
      encodeChToH |||
      encodeSilentCh |||
      encodeArch |||
      encodeChToX |||
      encodeEnglishChToK |||
      encodeGermanicChToK |||
      encodeGreekChInitial |||
      encodeGreekChNonInitial)
    (ret true)
    (ifM (test (fun e => (e.(idx) >? 0)))
      (ifM (stringStart ["MC"] &&& test (fun e => (e.(idx) =? 1)))
        (metaphAdd (rn "K"))
        (metaphAddAlt (rn "X") (rn "K")))
      (metaphAdd (rn "X")) ;;
      incIdx ;;
      ret true)).

(** [encodeCcia], metaphone3.go line 523.  Encodes reliably italian '-CCIA-'
    *)
Definition encodeCcia : M bool :=
  ifM (stringAt 1 ["CIA"])
  (metaphAddAlt (rn "X") (rn "S") ;;
    incIdx ;;
    ret true)
  (ret false).

(** [encodeCc], metaphone3.go line 534. *)
Definition encodeCc : M bool :=
  ifM (stringAt 0 ["CC"] &&& notM (test (fun e => (e.(idx) =? 1)) &&& (c <- inAt 0 ;;
      ret (c =? (rn "M")))))
  (ifM (stringAt (-3) ["FLACCID"])
    (metaphAdd (rn "S") ;;
      advanceCounter 2 1 ;;
      ret true)
    (ifM (stringAtEnd 2 ["I"] |||
        stringAt 2 ["IO"] ||| stringAtEnd 2 ["INO"; "INI"])
      (metaphAdd (rn "X") ;;
        advanceCounter 2 1 ;;
        ret true)
      (ifM (stringAt 2 ["I"; "E"; "Y"] &&&
          notM (charAt 2 (rn "H") ||| stringAt (-2) ["SOCCER"]))
        (metaphAddStr "KS" "KS" ;;
          advanceCounter 2 1 ;;
          ret true)
        (metaphAdd (rn "K") ;;
          incIdx ;;
          ret true))))
  (ret false).

(** [encodeCkCgCq], metaphone3.go line 568. *)
Definition encodeCkCgCq : M bool :=
  ifM (stringAt 0 ["CK"; "CG"; "CQ"])
  (ifM (stringAtEnd 0 ["CKI"; "CKY"] &&& test (fun e => (lenIn e >? 6)))
    (metaphAddStr "K" "SK")
    (metaphAdd (rn "K")) ;;
    incIdx ;;
    whenM (stringAt 1 ["K"; "G"; "Q"])
    incIdx ;;
    ret true)
  (ret false).

(** [encodeBritishSilentCE], metaphone3.go line 610. *)
Definition encodeBritishSilentCE : M bool :=
  ifM (stringAtEnd 1 ["ESTER"] ||| stringAt 1 ["ESTERSHIRE"])
  (ret true)
  (ret false).

(** [encodeCe], metaphone3.go line 619. *)
Definition encodeCe : M bool :=
  ifM ((stringAt 1 ["EAN"] &&& isVowelAt (-1)) |||
    (stringAtEnd (-1) ["ACEA"] &&& notM (stringStart ["PANACEA"])) |||
    stringAt 1 ["ELLI"; "ERTO"; "EORL"] |||
    stringAtEnd (-3) ["CROCE"] |||
    stringAt (-3) ["DOLCE"] |||
    stringAtEnd 1 ["ELLO"])
  (metaphAddAlt (rn "X") (rn "S") ;;
    ret true)
  (ret false).

(** [encodeCi], metaphone3.go line 635. *)
Definition encodeCi : M bool :=
  ifM ((stringAtEnd 1 ["INI"] &&& notM (stringExact ["MANCINI"])) |||
    stringAtEnd (-1) ["ICI"] |||
    stringAt (-1) ["RCIAL"; "NCIAL"; "RCIAN"; "UCIUS"] |||
    stringAt (-3) ["MARCIA"] |||
    stringAt (-2) ["ANCIENT"])
  (metaphAddAlt (rn "X") (rn "S") ;;
    ret true)
  (ifM (stringAt (-4) ["COERCION"])
    (metaphAdd (rn "J") ;;
      ret true)
    (ifM ((stringAt 0 ["CIO"; "CIE"; "CIA"] &&& isVowelAt (-1)) |||
        stringAt 1 ["IAO"])
      (ifM ((stringAt 0 ["CIAN"; "CIAL"; "CIAO"; "CIES"; "CIOL"; "CION"] |||
            stringAt (-3) ["GLACIER"] |||
            stringAt 0 ["CIENT"; "CIENC"; "CIOUS"; "CIATE"; "CIATI"; "CIATO"; "CIABL"; "CIARY"] |||
            stringAtEnd 0 ["CIA"; "CIO"; "CIAS"; "CIOS"]) &&&
          notM (stringAt (-4) ["ASSOCIATION"] ||| stringStart ["OCIE"] |||
            stringAt (-2) ["LUCIO"; "SOCIO"; "SOCIE"; "MACIAS"; "LUCIANO"; "HACIENDA"] |||
            stringAt (-3) ["GRACIE"; "GRACIA"; "MARCIANO"] |||
            stringAt (-4) ["PALACIO"; "POLICIES"; "FELICIANO"] |||
            stringAt (-5) ["MAURICIO"] |||
            stringAt (-6) ["ANDALUCIA"] |||
            stringAt (-7) ["ENCARNACION"]))
        (metaphAddAlt (rn "X") (rn "S"))
        (metaphAddAlt (rn "S") (rn "X")) ;;
        ret true)
      (ret false))).

(** [encodeLatinateSuffixes], metaphone3.go line 683. *)
Definition encodeLatinateSuffixes : M bool :=
  ifM (stringAt 1 ["EOUS"; "IOUS"])
  (metaphAddAlt (rn "X") (rn "S") ;;
    ret true)
  (ret false).

(** [encodeCFrontVowel], metaphone3.go line 591.  Encode cases where 'C'
    preceeds a front vowel such as 'E', 'I', or 'Y'. These cases most likely
    => S or X *)
Definition encodeCFrontVowel : M bool :=
  ifM (stringAt 0 ["CI"; "CE"; "CY"])
  (ifM (encodeBritishSilentCE |||
      encodeCe |||
      encodeCi |||
      encodeLatinateSuffixes)
    (advanceCounter 1 0 ;;
      ret true)
    (metaphAdd (rn "S") ;;
      advanceCounter 1 0 ;;
      ret true))
  (ret false).

(** [encodeSilentC], metaphone3.go line 691. *)
Definition encodeSilentC : M bool :=
  ifM (stringAt 1 ["T"; "S"] &&& stringStart ["INDICT"; "TUCSON"; "CONNECTICUT"])
  (ret true)
  (ret false).

(** [encodeCz], metaphone3.go line 701.  Encodes slavic spellings or
    transliterations written as '-CZ-' *)
Definition encodeCz : M bool :=
  ifM (stringAt 1 ["Z"] &&& notM (stringAt (-1) ["ECZEMA"]))
  (ifM (stringAt 0 ["CZAR"])
    (metaphAdd (rn "S"))
    (metaphAdd (rn "X")) ;;
    incIdx ;;
    ret true)
  (ret false).

(** [encodeCs], metaphone3.go line 716. *)
Definition encodeCs : M bool :=
  ifM (stringStart ["KOVACS"])
  (metaphAddStr "KS" "X" ;;
    incIdx ;;
    ret true)
  (ifM (stringAtEnd (-1) ["ACS"] &&& notM (stringAt (-4) ["ISAACS"]))
    (metaphAdd (rn "X") ;;
      incIdx ;;
      ret true)
    (ret false)).

(** [encodeC], metaphone3.go line 185. *)
Definition encodeC : M unit :=
  ifM (encodeSilentCAtBeginning |||
    encodeCaToS |||
    encodeCoToS |||
    encodeCh |||
    encodeCcia |||
    encodeCc |||
    encodeCkCgCq |||
    encodeCFrontVowel |||
    encodeSilentC |||
    encodeCz |||
    encodeCs)
  (ret tt)
  (whenM (notM (stringAt (-1) ["C"; "K"; "G"; "Q"]))
    (metaphAdd (rn "K")) ;;
    ifM (stringAt 1 [" C"; " Q"; " G"])
    incIdx
    (whenM (stringAt 1 ["C"; "K"; "Q"] &&& notM (stringAt 1 ["CE"; "CI"]))
      (incIdx ;;
        whenM (stringAt 1 ["C"; "K"; "Q"] &&& notM (stringAt 2 ["CE"; "CI"]))
        incIdx))).

(** [encodeDg], metaphone3.go line 755. *)
Definition encodeDg : M bool :=
  ifM (stringAt 0 ["DG"])
  (ifM (stringAt 2 ["A"; "O"] |||
      stringAt 1 ["GUN"; "GUT"; "GEAR"; "GLAS"; "GRIP"; "GREN"; "GILL"; "GRAF";
        "GUARD"; "GUILT"; "GRAVE"; "GRASS"; "GROUSE"])
    (metaphAddExactApprox "DG" "TK")
    (metaphAdd (rn "J")) ;;
    incIdx ;;
    ret true)
  (ret false).

(** [encodeDj], metaphone3.go line 781. *)
Definition encodeDj : M bool :=
  ifM (stringAt 0 ["DJ"])
  (metaphAdd (rn "J") ;;
    incIdx ;;
    ret true)
  (ret false).

(** [encodeDtDd], metaphone3.go line 791. *)
Definition encodeDtDd : M bool :=
  ifM (stringAt 0 ["DT"; "DD"])
  (ifM (stringAt 0 ["DTH"])
    (metaphAddExactApprox "D0" "T0" ;;
      addIdx 2)
    (ifM (test EncodeExact)
      (ifM (stringAt 0 ["DT"])
        (metaphAdd (rn "T"))
        (metaphAdd (rn "D")))
      (metaphAdd (rn "T")) ;;
      incIdx) ;;
    ret true)
  (ret false).

(** [encodeDToJ], metaphone3.go line 816. *)
Definition encodeDToJ : M bool :=
  ifM ((stringAt 0 ["DUL"] &&& isVowelAt (-1) &&& isVowelAt 3) |||
    stringAtEnd (-1) ["LDIER"; "NDEUR"; "EDURE"; "RDURE"] |||
    stringAt (-3) ["CORDIAL"] |||
    stringAt (-1) ["ADUA"; "IDUA"; "IDUU"; "NDULA"; "NDULU"; "EDUCA"])
  (metaphAddExactApproxAlt "J" "D" "J" "T" ;;
    advanceCounter 1 0 ;;
    ret true)
  (ret false).

(** [encodeDous], metaphone3.go line 833. *)
Definition encodeDous : M bool :=
  ifM (stringAt 1 ["UOUS"])
  (metaphAddExactApproxAlt "J" "D" "J" "T" ;;
    advanceCounter 3 0 ;;
    ret true)
  (ret false).

(** [encodeSilentD], metaphone3.go line 843. *)
Definition encodeSilentD : M bool :=
  stringAt (-2) ["WEDNESDAY"] |||
  stringAt (-3) ["HANDKER"; "HANDSOM"; "WINDSOR"] |||
  stringEnd ["PERNOD"; "ARTAUD"; "RENAUD"; "RIMBAUD"; "MICHAUD"; "BICHAUD"].

(** [encodeD], metaphone3.go line 736. *)
Definition encodeD : M unit :=
  ifM (encodeDg ||| encodeDj ||| encodeDtDd |||
    encodeDToJ ||| encodeDous ||| encodeSilentD)
  (ret tt)
  (ifM (test EncodeExact)
    (ifM (stringAtEnd (-3) ["SSED"])
      (metaphAdd (rn "T"))
      (metaphAdd (rn "D")))
    (metaphAdd (rn "T"))).

(** [encodeF], metaphone3.go line 851. *)
Definition encodeF : M unit :=
  ifM (stringAt (-1) ["OFTEN"])
  (metaphAddStr "F" "FT" ;;
    incIdx ;;
    ret tt)
  (whenM (charNextIs (rn "F"))
    incIdx ;;
    metaphAdd (rn "F")).

(** [encodeG], metaphone3.go line 869.  800 *)
Definition encodeG : M unit :=
  whenM (notM (stringAt (-1) ["C"; "K"; "G"; "Q"]))
  (metaphAddExactApprox "G" "K").

(** [encodeInitialSilentH], metaphone3.go line 889. *)
Definition encodeInitialSilentH : M bool :=
  ifM (stringAt 1 ["OUR"; "ERB"; "EIR"; "ONOR"; "ONOUR"; "ONEST"])
  (ifM (stringAtStart 0 ["HERB"])
    (ifM (test EncodeVowels)
      (metaphAddStr "HA" "A")
      (metaphAddAlt (rn "H") (rn "A")))
    (whenM (test (fun e => ((e.(idx) =? 0) || e.(EncodeVowels))))
      (metaphAdd (rn "A"))) ;;
    assignIdx (withE (fun e => skipVowels (e.(idx) + 1))) ;;
    ret true)
  (ret false).

(** [encodeInitialHs], metaphone3.go line 913. *)
Definition encodeInitialHs : M bool :=
  ifM (stringAtStart 0 ["HS"])
  (metaphAdd (rn "X") ;;
    incIdx ;;
    ret true)
  (ret false).

(** [encodeInitialHuHw], metaphone3.go line 924. *)
Definition encodeInitialHuHw : M bool :=
  ifM (stringStart ["HUA"; "HUE"; "HWA"] &&& notM (stringAt 0 ["HUEY"]))
  (metaphAdd (rn "A") ;;
    ifM (test (fun e => negb e.(EncodeVowels)))
    (addIdx 2)
    (incIdx ;;
      withE (fun e => whileM (List.length e.(in_)) (isVowelAt 0 ||| charAt 0 (rn "W")) (incIdx)) ;;
      decIdx) ;;
    ret true)
  (ret false).

(** [encodeNonInitialSilentH], metaphone3.go line 946. *)
Definition encodeNonInitialSilentH : M bool :=
  ifM (stringAt (-2) ["NIHIL"; "VEHEM"; "LOHEN"; "NEHEM"; "MAHON"; "MAHAN"; "COHEN"; "GAHAN"] |||
    stringAt (-3) ["TOUHY"; "GRAHAM"; "PROHIB"; "FRAHER"; "TOOHEY"; "TOUHEY"] |||
    stringStart ["CHIHUAHUA"])
  (ifM (test EncodeVowels)
    incIdx
    (assignIdx (withE (fun e => skipVowels (e.(idx) + 1)))) ;;
    ret true)
  (ret false).

(** [encodeHPronounced], metaphone3.go line 960. *)
Definition encodeHPronounced : M bool :=
  ifM (((test (fun e => (e.(idx) =? 0)) ||| isVowelAt (-1) ||| (test (fun e => (e.(idx) >? 0)) &&&
      charAt (-1) (rn "W"))) &&&
      isVowelAt 1) |||
    (charNextIs (rn "H") &&& isVowelAt 2))
  (metaphAdd (rn "H") ;;
    advanceCounter 1 0 ;;
    ret true)
  (ret false).

(** [encodeH], metaphone3.go line 877. *)
Definition encodeH : M unit :=
  ifM (encodeInitialSilentH ||| encodeInitialHs |||
    encodeInitialHuHw ||| encodeNonInitialSilentH)
  (ret tt)
  (whenM (notM (encodeHPronounced))
    (ret tt)).

(** [encodeSpanishJ], metaphone3.go line 1001. *)
Definition encodeSpanishJ : M bool :=
  ifM ((stringAt 1 ["UAN"; "ACI"; "ALI"; "EFE"; "ICA"; "IME"; "OAQ"; "UAR"] &&&
      notM (stringAt 0 ["JIMERSON"; "JIMERSEN"])) |||
    stringAtEnd 1 ["OSE"] |||
    stringAt 1 ["EREZ"; "UNTA"; "AIME"; "AVIE"; "AVIA"; "IMINEZ"; "ARAMIL"] |||
    stringAtEnd (-2) ["MEJIA"] |||
    stringAt (-2) ["TEJED"; "TEJAD"; "LUJAN"; "FAJAR"; "BEJAR"; "BOJOR"; "CAJIG";
      "DEJAS"; "DUJAR"; "DUJAN"; "MIJAR"; "MEJOR"; "NAJAR";
      "NOJOS"; "RAJED"; "RIJAL"; "REJON"; "TEJAN"; "UIJAN"] |||
    stringAt (-3) ["ALEJANDR"; "GUAJARDO"; "TRUJILLO"] |||
    (stringAt (-2) ["RAJAS"] &&& test (fun e => (e.(idx) >? 2))) |||
    (stringAt (-2) ["MEJIA"] &&& notM (stringAt (-2) ["MEJIAN"])) |||
    stringAt (-1) ["OJEDA"] |||
    stringAt (-3) ["LEIJA"; "MINJA"; "VIAJES"; "GRAJAL"] |||
    stringAt 0 ["JAUREGUI"] |||
    stringAt (-4) ["HINOJOSA"] |||
    stringStart ["SAN "] |||
    (test (fun e => (e.(idx) + 1 =? e.(lastIdx))) &&& charAt 1 (rn "O") &&&
        notM (stringStart ["TOJO"; "BANJO"; "MARYJO"])))
  (ifM (notM (stringAt 0 ["JUAN"] ||| stringAt 0 ["JOAQ"]))
    (metaphAdd (rn "H"))
    (whenM (test (fun e => (e.(idx) =? 0)))
      (metaphAdd (rn "A"))) ;;
    advanceCounter 1 0 ;;
    ret true)
  (ifM (stringAt 1 ["ORGE"; "ULIO"; "ESUS"] &&& notM (stringStart ["JORGEN"]))
    (ifM (stringAtEnd 1 ["ORGE"])
      (ifM (test EncodeVowels)
        (metaphAddStr "JARJ" "HARHA")
        (metaphAddStr "JRJ" "HRH") ;;
        advanceCounter 4 4 ;;
        ret true)
      (metaphAddAlt (rn "J") (rn "H") ;;
        advanceCounter 1 0 ;;
        ret true))
    (ret false)).

(** [encodeSpanishOjUj], metaphone3.go line 1067. *)
Definition encodeSpanishOjUj : M bool :=
  ifM (stringAt 1 ["OJOBA"; "UJUY"])
  (ifM (test EncodeVowels)
    (metaphAddStr "HAH" "HAH")
    (metaphAddStr "HH" "HH") ;;
    advanceCounter 3 2 ;;
    ret true)
  (ret false).

(** [encodeGermanJ], metaphone3.go line 1055. *)
Definition encodeGermanJ : M bool :=
  ifM (stringAt 1 ["AH"; "UGO"] ||| stringExact ["JOHANN"] |||
    (stringAt 1 ["UNG"] &&& notM (charAt 4 (rn "L"))))
  (metaphAdd (rn "A") ;;
    advanceCounter 1 0 ;;
    ret true)
  (ret false).

(** [namesBeginningWithJThatGetAltY], metaphone3.go line 1142. *)
Definition namesBeginningWithJThatGetAltY : M bool :=
  stringStart ["JAN"; "JON"; "JAN"; "JIN"; "JEN";
    "JUHL"; "JULY"; "JOEL"; "JOHN"; "JOSH"; "JUDE"; "JUNE"; "JONI"; "JULI"; "JENA";
    "JUNG"; "JINA"; "JANA"; "JENI"; "JOEL"; "JANN"; "JONA"; "JENE"; "JULE"; "JANI"; "JONG"; "JOHN";
    "JEAN"; "JUNG"; "JONE"; "JARA"; "JUST"; "JOST"; "JAHN"; "JACO"; "JANG"; "JUDE"; "JONE";
    "JOANN"; "JANEY"; "JANAE"; "JOANA"; "JUTTA"; "JULEE"; "JANAY"; "JANEE"; "JETTA";
    "JOHNA"; "JOANE"; "JAYNA"; "JANES"; "JONAS"; "JONIE"; "JUSTA"; "JUNIE"; "JUNKO"; "JENAE";
    "JULIO"; "JINNY"; "JOHNS"; "JACOB"; "JETER"; "JAFFE"; "JESKE"; "JANKE"; "JAGER"; "JANIK";
    "JANDA"; "JOSHI"; "JULES"; "JANTZ"; "JEANS"; "JUDAH"; "JANUS"; "JENNY"; "JENEE"; "JONAH";
    "JONAS"; "JACOB"; "JOSUE"; "JOSEF"; "JULES"; "JULIE"; "JULIA"; "JANIE"; "JANIS"; "JENNA";
    "JANNA"; "JEANA"; "JENNI"; "JEANE"; "JONNA";
    "JORDAN"; "JORDON"; "JOSEPH"; "JOSHUA"; "JOSIAH"; "JOSPEH"; "JUDSON"; "JULIAN";
    "JULIUS"; "JUNIOR"; "JUDITH"; "JOESPH"; "JOHNIE"; "JOANNE"; "JEANNE"; "JOANNA"; "JOSEFA";
    "JULIET"; "JANNIE"; "JANELL"; "JASMIN"; "JANINE"; "JOHNNY"; "JEANIE"; "JEANNA"; "JOHNNA";
    "JOELLE"; "JOVITA"; "JOSEPH"; "JONNIE"; "JANEEN"; "JANINA"; "JOANIE"; "JAZMIN"; "JOHNIE";
    "JANENE"; "JOHNNY"; "JONELL"; "JENELL"; "JANETT"; "JANETH"; "JENINE"; "JOELLA"; "JOEANN";
    "JULIAN"; "JOHANA"; "JENICE"; "JANNET"; "JANISE"; "JULENE"; "JOSHUA"; "JANEAN"; "JAIMEE";
    "JOETTE"; "JANYCE"; "JENEVA"; "JORDAN"; "JACOBS"; "JENSEN"; "JOSEPH"; "JANSEN"; "JORDON";
    "JULIAN"; "JAEGER"; "JACOBY"; "JENSON"; "JARMAN"; "JOSLIN"; "JESSEN"; "JAHNKE"; "JACOBO";
    "JULIEN"; "JOSHUA"; "JEPSON"; "JULIUS"; "JANSON"; "JACOBI"; "JUDSON"; "JARBOE"; "JOHSON";
    "JANZEN"; "JETTON"; "JUNKER"; "JONSON"; "JAROSZ"; "JENNER"; "JAGGER"; "JASMIN"; "JEPSEN";
    "JORDEN"; "JANNEY"; "JUHASZ"; "JERGEN"; "JAKOB";
    "JOHNSON"; "JOHNNIE"; "JASMINE"; "JEANNIE"; "JOHANNA"; "JANELLE"; "JANETTE";
    "JULIANA"; "JUSTINA"; "JOSETTE"; "JOELLEN"; "JENELLE"; "JULIETA"; "JULIANN"; "JULISSA";
    "JENETTE"; "JANETTA"; "JOSELYN"; "JONELLE"; "JESENIA"; "JANESSA"; "JAZMINE"; "JEANENE";
    "JOANNIE"; "JADWIGA"; "JOLANDA"; "JULIANE"; "JANUARY"; "JEANICE"; "JANELLA"; "JEANETT";
    "JENNINE"; "JOHANNE"; "JOHNSIE"; "JANIECE"; "JOHNSON"; "JENNELL"; "JAMISON"; "JANSSEN";
    "JOHNSEN"; "JARDINE"; "JAGGERS"; "JURGENS"; "JOURDAN"; "JULIANO"; "JOSEPHS"; "JHONSON";
    "JOZWIAK"; "JANICKI"; "JELINEK"; "JANSSON"; "JOACHIM"; "JANELLE"; "JACOBUS"; "JENNING";
    "JANTZEN"; "JOHNNIE";
    "JOSEFINA"; "JEANNINE"; "JULIANNE"; "JULIANNA"; "JONATHAN"; "JONATHON"; "JEANETTE";
    "JANNETTE"; "JEANETTA"; "JOHNETTA"; "JENNEFER"; "JULIENNE"; "JOSPHINE"; "JEANELLE"; "JOHNETTE";
    "JULIEANN"; "JOSEFINE"; "JULIETTA"; "JOHNSTON"; "JACOBSON"; "JACOBSEN"; "JOHANSEN"; "JOHANSON";
    "JAWORSKI"; "JENNETTE"; "JELLISON"; "JOHANNES"; "JASINSKI"; "JUERGENS"; "JARNAGIN"; "JEREMIAH";
    "JEPPESEN"; "JARNIGAN"; "JANOUSEK";
    "JOHNATHAN"; "JOHNATHON"; "JORGENSEN"; "JEANMARIE"; "JOSEPHINA"; "JEANNETTE";
    "JOSEPHINE"; "JEANNETTA"; "JORGENSON"; "JANKOWSKI"; "JOHNSTONE"; "JABLONSKI"; "JOSEPHSON";
    "JOHANNSEN"; "JURGENSEN"; "JIMMERSON"; "JOHANSSON";
    "JAKUBOWSKI"].

(** [encodeJToJ], metaphone3.go line 1082. *)
Definition encodeJToJ : M bool :=
  ifM (isVowelAt 1)
  (ifM (test (fun e => (e.(idx) =? 0)) &&& namesBeginningWithJThatGetAltY)
    (ifM (test EncodeVowels)
      (metaphAddStr "JA" "A")
      (metaphAddAlt (rn "J") (rn "A")))
    (ifM (test EncodeVowels)
      (metaphAddStr "JA" "JA")
      (metaphAdd (rn "J"))) ;;
    assignIdx (withE (fun e => skipVowels (e.(idx) + 1))) ;;
    ret false)
  (metaphAdd (rn "J") ;;
    ret true).

(** [encodeSpanishJ2], metaphone3.go line 1107. *)
Definition encodeSpanishJ2 : M bool :=
  ifM (stringAtStart (-2) ["BOJA"; "BAJA"; "BEJA"; "BOJO"; "MOJA"; "MOJI"; "MEJI"] |||
    stringAtStart (-3) ["FRIJO"; "BRUJO"; "BRUJA"; "GRAJE"; "GRIJA"; "LEIJA"; "QUIJA"] |||
    (stringAtEnd (-1) ["OJA"; "EJA"; "AJOS"; "EJOS"; "OJAS"; "OJOS"; "UJON";
        "AJOZ"; "AJAL"; "UJAR"; "EJON"; "EJAN"; "AJARA"] &&& notM (stringStart ["DEJA"])))
  (metaphAdd (rn "H") ;;
    advanceCounter 1 0 ;;
    ret true)
  (ret false).

(** [encodeJAsVowel], metaphone3.go line 1122. *)
Definition encodeJAsVowel : M bool :=
  ifM (stringAt 0 ["JEWSK"])
  (metaphAddAlt (rn "J") ReplacementChar ;;
    ret true)
  (ifM ((stringAt 1 ["L"; "T"; "K"; "S"; "N"; "M"] &&& notM (stringAt 2 ["A"])) |||
      stringStart ["FJ"; "WOJ"; "LJUB"; "BJOR"; "HAJEK"; "HALLELUJA"; "LJUBLJANA"] |||
      stringAt 0 ["JAVIK"; "JEVIC"] |||
      stringExact ["SONJA"; "TANJA"; "TONJA"])
    (ret true)
    (ret false)).

(** [encodeJ], metaphone3.go line 974. *)
Definition encodeJ : M unit :=
  ifM (encodeSpanishJ ||| encodeSpanishOjUj)
  (ret tt)
  (ifM (test (fun e => (e.(idx) =? 0)))
    (ifM encodeGermanJ
      (ret tt)
      (ifM encodeJToJ
        (ret tt)
        (ret tt)))
    (ifM encodeSpanishJ2
      (ret tt)
      (whenM (notM (encodeJAsVowel))
        (metaphAdd (rn "J")) ;;
        whenM (charNextIs (rn "J"))
        incIdx ;;
        ret tt))).

(** [encodeSilentK], metaphone3.go line 1194. *)
Definition encodeSilentK : M bool :=
  let rest :=
  ifM ((stringAt 1 ["NOW"; "NIT"; "NOT"; "NOB"] &&& notM (stringStart ["BANKNOTE"])) |||
    stringAt 1 ["NOCK"; "NUCK"; "NIFE"; "NACK"; "NIGHT"])
  (whenM (test (fun e => (e.(idx) >? 0)) &&& charAt (-1) (rn "N"))
    incIdx ;;
    ret true)
  (ret false) in
  ifM (test (fun e => (e.(idx) =? 0)) &&& stringStart ["KN"])
  (ifM (notM (stringAt 2 ["ISH"; "ESSET"; "IEVEL"]))
    (ret true)
    rest)
  rest.

(** [encodeK], metaphone3.go line 1183. *)
Definition encodeK : M unit :=
  whenM (notM (encodeSilentK))
  (metaphAdd (rn "K") ;;
    whenM (charAt 1 (rn "K") ||| charAt 1 (rn "Q"))
    incIdx).

(** [interpolateVowelWhenConsLAtEnd], metaphone3.go line 1238.  Cases where an
    L follows D, G, or T at the end have a schwa pronounced before the L *)
Definition interpolateVowelWhenConsLAtEnd : M unit :=
  whenM (test EncodeVowels &&& stringAtEnd (-1) ["DL"; "GL"; "TL"])
  (metaphAdd (rn "A")).

(** [encodeLelyToL], metaphone3.go line 1245. *)
Definition encodeLelyToL : M bool :=
  ifM (stringAtEnd (-1) ["ILELY"])
  (metaphAdd (rn "L") ;;
    addIdx 2 ;;
    ret true)
  (ret false).

(** [encodeColonel], metaphone3.go line 1255. *)
Definition encodeColonel : M bool :=
  ifM (stringAt (-2) ["COLONEL"])
  (metaphAdd (rn "R") ;;
    incIdx ;;
    ret true)
  (ret false).

(** [encodeFrenchAult], metaphone3.go line 1264. *)
Definition encodeFrenchAult : M bool :=
  ifM (test (fun e => (e.(idx) >? 3)) &&&
    (stringAt (-3) ["RAULT"; "NAULT"; "BAULT"; "SAULT"; "GAULT"; "CAULT"] |||
        stringAt (-4) ["REAULT"; "RIAULT"; "NEAULT"; "BEAULT"]) &&&
    notM (withE (fun e => liftR (rootOrInflections e.(in_) "ASSAULT")) |||
        stringAt (-8) ["SOMERSAULT"] ||| stringAt (-9) ["SUMMERSAULT"]))
  (incIdx ;;
    ret true)
  (ret false).

(** [encodeFrenchEuil], metaphone3.go line 1277. *)
Definition encodeFrenchEuil : M bool :=
  ifM (stringAtEnd (-3) ["EUIL"])
  (ret true)
  (ret false).

(** [encodeFrenchOulx], metaphone3.go line 1285. *)
Definition encodeFrenchOulx : M bool :=
  ifM (stringAtEnd (-2) ["OULX"])
  (incIdx ;;
    ret true)
  (ret false).

(** [encodeSilentLInLm], metaphone3.go line 1294. *)
Definition encodeSilentLInLm : M bool :=
  ifM (stringAt 0 ["LM"; "LN"])
  (ifM ((stringAt (-2) ["COLN"; "CALM"; "BALM"; "MALM"; "PALM"] |||
        stringAtEnd (-1) ["OLM"] |||
        stringAt (-3) ["PSALM"; "QUALM"] |||
        stringAt (-2) ["SALMON"; "HOLMES"] |||
        stringAt (-1) ["ALMOND"] |||
        stringAtStart (-1) ["ALMS"]) &&&
      (notM (stringAt 2 ["A"]) &&&
        notM (stringAt (-2) ["BALMO"; "PALMER"; "PALMOR"; "BALMER"]) &&&
        notM (stringAt (-3) ["THALM"])))
    (ret tt)
    (metaphAdd (rn "L")) ;;
    ret true)
  (ret false).

(** [encodeSilentLInLkLv], metaphone3.go line 1317. *)
Definition encodeSilentLInLkLv : M bool :=
  ifM ((stringAt (-2) ["WALK"; "YOLK"; "FOLK"; "HALF"; "TALK"; "CALF"; "BALK"; "CALK"] |||
      (stringAt (-2) ["POLK"; "HALV"; "SALVE"; "CALVE"; "SOLDER"] &&& notM (stringAt (-2) ["POLKA";
          "PALKO"; "HALVA"; "HALVO"; "SALVER"; "CALVER"])) |||
      (stringAt (-3) ["CAULK"; "CHALK"; "BAULK"; "FAULK"] &&& notM (stringAt (-4) ["SCHALK"]))) &&&
    notM (stringAt (-5) ["GONSALVES"; "GONCALVES"]) &&&
    notM (stringAt (-2) ["BALKAN"; "TALKAL"]) &&&
    notM (stringAt (-3) ["PAULK"; "CHALF"]))
  (ret true)
  (ret false).

(** [encodeSilentLInOuld], metaphone3.go line 1331. *)
Definition encodeSilentLInOuld : M bool :=
  ifM (stringAt (-3) ["WOULD"; "COULD"] |||
    (stringAt (-4) ["SHOULD"] &&& notM (stringAt (-4) ["SHOULDER"])))
  (metaphAddExactApprox "D" "T" ;;
    incIdx ;;
    ret true)
  (ret false).

(** [encodeLlAsVowelSpecialCases], metaphone3.go line 1344.  Encode '-ILLA-'
    and '-ILLE-' in spanish and french contexts were americans know to
    pronounce it as a 'Y' *)
Definition encodeLlAsVowelSpecialCases : M bool :=
  ifM (stringAt (-5) ["TORTILLA"] ||| stringAt (-8) ["RATATOUILLE"] |||
    (stringStart ["GUILL"; "VEILL"; "GAILL"] &&&
      notM (stringAt (-3) ["GUILLOT"; "GUILLOR"; "GUILLEN"] ||| stringExact ["GUILL"])) |||
    stringStart ["ROBILL"; "BROUILL"; "GREMILL"] |||
    (stringAtEnd (-2) ["EILLE"] &&& notM (stringAt (-5) ["REVEILLE"])))
  (incIdx ;;
    ret true)
  (ret false).

(** [encodeLlAsVowel], metaphone3.go line 1363. *)
Definition encodeLlAsVowel : M bool :=
  ifM (stringAtEnd (-1) ["ILLO"; "ILLA"; "ALLE"] |||
    (stringEnd ["A"; "O"; "AS"; "OS"] &&& stringAt (-1) ["AL"; "IL"] &&&
        notM (stringAt (-1) ["ALLA"])) |||
    stringStart ["LLA"; "VILLE"; "VILLA"; "GALLARDO"; "VALLADAR"; "MAGALLAN"; "CAVALLAR";
        "BALLASTE"])
  (metaphAddAlt (rn "L") ReplacementChar ;;
    incIdx ;;
    ret true)
  (ret false).

(** [encodeLlAsVowelCases], metaphone3.go line 1378. *)
Definition encodeLlAsVowelCases : M bool :=
  ifM (charNextIs (rn "L"))
  (ifM encodeLlAsVowelSpecialCases
    (ret true)
    (ifM encodeLlAsVowel
      (ret true)
      (incIdx ;;
        ret false)))
  (ret false).

(** [encodeVowelLeTransposition], metaphone3.go line 1391. *)
Definition encodeVowelLeTransposition (idx' : Z) : M bool :=
  offset <- get (fun e => e.(idx) - idx') ;;
  ifM (test (fun e => (e.(EncodeVowels) && (idx' >? 1))) &&& notM (isVowelAt (offset - 1)) &&&
      charAt (offset + 1) (rn "E") &&&
    notM (charAt (offset - 1) (rn "L")) &&& notM (charAt (offset - 1) (rn "R")) &&&
    notM (isVowelAt (offset + 2)) &&&
    notM (stringStart ["MCCLE"; "MCLEL"; "EMBLEM"; "KADLEC"; "ECCLESI"; "COMPLEC"; "COMPLEJ";
        "ROBLEDO"]) &&&
    notM (test (fun e => (idx' + 2 =? e.(lastIdx))) &&& stringAt offset ["LET"]) &&&
    notM (stringAt offset ["LEG"; "LER"; "LEX"; "LESS"; "LESQ"; "LECT"; "LEDG"; "LETE"; "LETH";
        "LETS"; "LETT";
        "LETUS"; "LETIV"; "LETELY"; "LETTER"; "LETION"; "LETIAN"; "LETING"; "LETORY";
            "LETTING"]) &&&
    notM (stringAt offset ["LEMENT"] &&&
      notM (stringAt (-5) ["BATTLE"; "TANGLE"; "PUZZLE"; "RABBLE"; "BABBLE"] |||
          stringAt (-4) ["TABLE"])) &&&
    notM (test (fun e => (idx' + 2 =? e.(lastIdx))) &&& stringAt (offset - 2) ["OCLES"; "ACLES";
        "AKLES"]) &&&
    notM (stringAt (offset - 3) ["LISLE"; "AISLE"]) &&& notM (stringStart ["ISLE"]) &&&
    notM (stringStart ["ROBLES"]) &&&
    notM (stringAt (offset - 4) ["PROBLEM"; "RESPLEN"]) &&&
    notM (stringAt (offset - 3) ["REPLEN"]) &&&
    notM (stringAt (offset - 2) ["SPLE"]) &&&
    notM (charAt (offset - 1) (rn "H")) &&& notM (charAt (offset - 1) (rn "W")))
  (metaphAddStr "AL" "AL" ;;
    setFlagAlInversion true ;;
    whenM (charAt (offset + 2) (rn "L"))
    (setIdx (idx' + 2)) ;;
    ret true)
  (ret false).

(** [encodeVowelPreserveVowelAfterL], metaphone3.go line 1427. *)
Definition encodeVowelPreserveVowelAfterL (idx' : Z) : M bool :=
  offset <- get (fun e => idx' - e.(idx)) ;;
  ifM (test EncodeVowels &&& notM (isVowelAt (offset - 1)) &&& charAt (offset + 1) (rn "E") &&&
      test (fun e => (idx' >? 1)) &&&
    test (fun e => negb (idx' + 1 =? e.(lastIdx))) &&&
    notM (stringAt (offset + 1) ["ES"; "ED"] &&& test (fun e => (idx' + 2 =? e.(lastIdx)))) &&&
    notM (stringAt (offset - 1) ["RLEST"]))
  (metaphAddStr "LA" "LA" ;;
    assignIdx (withE (fun e => skipVowels (e.(idx) + 1))) ;;
    ret true)
  (ret false).

(** [encodeLeCases], metaphone3.go line 1443. *)
Definition encodeLeCases (idx' : Z) : M unit :=
  ifM (encodeVowelLeTransposition idx')
  (ret tt)
  (ifM (encodeVowelPreserveVowelAfterL idx')
    (ret tt)
    (metaphAdd (rn "L"))).

(** [encodeL], metaphone3.go line 1216. *)
Definition encodeL : M unit :=
  saveIdx <- get (fun e => e.(idx)) ;;
  interpolateVowelWhenConsLAtEnd ;;
  ifM (encodeLelyToL ||| encodeColonel ||| encodeFrenchAult ||| encodeFrenchEuil |||
    encodeFrenchOulx ||| encodeSilentLInLm ||| encodeSilentLInLkLv |||
    encodeSilentLInOuld)
  (ret tt)
  (ifM encodeLlAsVowelCases
    (ret tt)
    (encodeLeCases saveIdx)).

(** [encodeSilentMAtBeginning], metaphone3.go line 1467. *)
Definition encodeSilentMAtBeginning : M bool :=
  stringAtStart 0 ["MN"].

(** [encodeMrAndMrs], metaphone3.go line 1471. *)
Definition encodeMrAndMrs : M bool :=
  ifM (stringExact ["MR"])
  (ifM (test EncodeVowels)
    (metaphAddStr "MASTAR" "MASTAR")
    (metaphAddStr "MSTR" "MSTR") ;;
    incIdx ;;
    ret true)
  (ifM (stringExact ["MRS"])
    (ifM (test EncodeVowels)
      (metaphAddStr "MASAS" "MASAS")
      (metaphAddStr "MSS" "MSS") ;;
      addIdx 2 ;;
      ret true)
    (ret false)).

(** [encodeMac], metaphone3.go line 1493. *)
Definition encodeMac : M bool :=
  ifM (stringAtStart 0 ["MC"; "MACIVER"; "MACEWEN"; "MACELROY"; "MACILROY"; "MACINTOSH"])
  (ifM (test EncodeVowels)
    (metaphAddStr "MAK" "MAK")
    (metaphAddStr "MK" "MK") ;;
    ifM (stringStart ["MC"])
    (ifM (stringAt 2 ["K"; "G"; "Q"] &&& notM (stringAt 2 ["GEOR"]))
      (addIdx 2)
      incIdx)
    (addIdx 2) ;;
    ret true)
  (ret false).

(** [encodeMpt], metaphone3.go line 1520. *)
Definition encodeMpt : M bool :=
  ifM (stringAt (-2) ["COMPTROL"] ||| stringAt (-4) ["ACCOMPT"])
  (metaphAdd (rn "N") ;;
    incIdx ;;
    ret true)
  (ret false).

(** [testSilentMb1], metaphone3.go line 1530. *)
Definition testSilentMb1 : M bool :=
  stringAtStart (-3) ["THUMB"] ||| stringAtStart (-2) ["DUMB"; "BOMB"; "DAMN"; "LAMB"; "NUMB";
      "TOMB"].

(** [testPronouncedMb], metaphone3.go line 1536. *)
Definition testPronouncedMb : M bool :=
  stringAt (-2) ["NUMBER"] |||
  (stringAt 2 ["A"; "O"] &&& notM (stringAt (-2) ["DUMBASS"])) |||
  stringAt (-2) ["LAMBEN"; "LAMBER"; "LAMBET"; "TOMBIG"; "LAMBRE"].

(** [testSilentMb2], metaphone3.go line 1542. *)
Definition testSilentMb2 : M bool :=
  charNextIs (rn "B") &&& test (fun e => (e.(idx) >? 1)) &&&
  (test (fun e => (e.(idx) + 1 =? e.(lastIdx))) |||
    stringAt 2 ["ING"; "ABL"; "LIKE"] |||
    stringAtEnd 2 ["S"] |||
    stringAt (-5) ["BUNCOMB"] |||
    (stringAtEnd 2 ["ED"; "ER"] &&&
      (stringStart ["CLIMB"; "PLUMB"] ||| notM (stringAt (-1) ["IMBER"; "AMBER"; "EMBER";
          "UMBER"])) &&&
      notM (stringAt (-2) ["CUMBER"; "SOMBER"]))).

(** [testPronouncedMb2], metaphone3.go line 1559. *)
Definition testPronouncedMb2 : M bool :=
  stringAt (-1) ["OMBAS"; "OMBAD"; "UMBRA"] ||| stringAt (-3) ["FLAM"].

(** [testMn], metaphone3.go line 1564. *)
Definition testMn : M bool :=
  charNextIs (rn "N") &&& (test (fun e => (e.(idx) + 1 =? e.(lastIdx))) |||
    stringAtEnd 2 ["S"; "LY"; "ER"; "ED"; "ING"; "EST"] |||
    stringAt (-2) ["DAMNEDEST"] |||
    stringAt (-5) ["GODDAMNIT"]).

(** [encodeMb], metaphone3.go line 1572. *)
Definition encodeMb : M unit :=
  ifM testSilentMb1
  (whenM (notM (testPronouncedMb))
    incIdx)
  (ifM testSilentMb2
    (whenM (notM (testPronouncedMb2))
      incIdx)
    (whenM (testMn ||| charNextIs (rn "M"))
      incIdx)).

(** [encodeM], metaphone3.go line 1454. *)
Definition encodeM : M unit :=
  ifM (encodeSilentMAtBeginning ||| encodeMrAndMrs |||
    encodeMac ||| encodeMpt)
  (ret tt)
  (encodeMb ;;
    metaphAdd (rn "M")).

(** [encodeNce], metaphone3.go line 1604.  Encode '-NCE-' and '-NSE-'
    'entrance' is pronounced exactly the same as 'entrants' *)
Definition encodeNce : M bool :=
  ifM (stringAt 1 ["C"; "S"] &&& stringAt 2 ["E"; "Y"; "I"] &&&
    (test (fun e => (e.(idx) + 2 =? e.(lastIdx))) |||
        (test (fun e => (e.(idx) + 3 =? e.(lastIdx))) &&& charAt 3 (rn "S"))))
  (metaphAddStr "NTS" "NTS" ;;
    incIdx ;;
    ret true)
  (ret false).

(** [encodeN], metaphone3.go line 1586. *)
Definition encodeN : M unit :=
  ifM encodeNce
  (ret tt)
  (whenM (charNextIs (rn "N"))
    incIdx ;;
    whenM (notM (stringAt (-3) ["MONSIEUR"]) &&& notM (stringAt (-3) ["NENESS"]))
    (metaphAdd (rn "N"))).

(** [encodeSilentPAtBeginning], metaphone3.go line 1629. *)
Definition encodeSilentPAtBeginning : M bool :=
  stringAtStart 0 ["PN"; "PF"; "PS"; "PT"].

(** [encodePt], metaphone3.go line 1633. *)
Definition encodePt : M bool :=
  ifM (charNextIs (rn "T") &&&
    (stringAtStart 0 ["PTERO"] ||| stringAt (-5) ["RECEIPT"] ||| stringAt (-4) ["ASYMPTOT"]))
  (metaphAdd (rn "T") ;;
    incIdx ;;
    ret true)
  (ret false).

(** [encodePh], metaphone3.go line 1649.  Encode '-PH-', usually as F, with
    exceptions for cases where it is silent, or where the 'P' and 'T' are
    pronounced seperately because they belong to two different words in a
    combining form *)
Definition encodePh : M bool :=
  ifM (charNextIs (rn "H"))
  (ifM (stringAt 0 ["PHTHALEIN"] ||| stringAtStart 0 ["PHTH"] ||| stringAt (-3) ["APOPHTHEGM"])
    (metaphAdd (rn "0") ;;
      addIdx 3)
    (ifM (test (fun e => (e.(idx) >? 0)) &&&
        (stringAt 2 ["AM"; "EAD"; "OLE"; "ELD"; "ILL"; "OLD"; "EAP"; "ERD"; "ARD"; "ANG";
            "ORN"; "EAV"; "ART"; "OUSE"; "AMMER"; "AZARD"; "UGGER"; "OLSTER"] &&&
                notM (stringAt (-1) ["LPHAM"])) &&&
        notM (stringAt (-3) ["LYMPH"; "NYMPH"]))
      (metaphAdd (rn "P") ;;
        advanceCounter 2 1)
      (metaphAdd (rn "F") ;;
        incIdx)) ;;
    ret true)
  (ret false).

(** [encodePph], metaphone3.go line 1674. *)
Definition encodePph : M bool :=
  ifM (charNextIs (rn "P") &&& test (fun e => (e.(idx) + 2 <? lenIn e)) &&& charAt 2 (rn "H"))
  (metaphAdd (rn "F") ;;
    addIdx 2 ;;
    ret true)
  (ret false).

(** [encodeRps], metaphone3.go line 1684. *)
Definition encodeRps : M bool :=
  ifM (stringAt (-3) ["CORPS"] &&& notM (stringAt (-3) ["CORPSE"]))
  (incIdx ;;
    ret true)
  (ret false).

(** [encodeCoup], metaphone3.go line 1693. *)
Definition encodeCoup : M bool :=
  stringAtEnd (-3) ["COUP"] &&& notM (stringAt (-5) ["RECOUP"]).

(** [encodePneum], metaphone3.go line 1698. *)
Definition encodePneum : M bool :=
  ifM (stringAt 1 ["NEUM"])
  (metaphAdd (rn "N") ;;
    incIdx ;;
    ret true)
  (ret false).

(** [encodePsych], metaphone3.go line 1708. *)
Definition encodePsych : M bool :=
  ifM (stringAt 1 ["SYCH"])
  (ifM (test EncodeVowels)
    (metaphAddStr "SAK" "SAK")
    (metaphAddStr "SK" "SK") ;;
    addIdx 4 ;;
    ret true)
  (ret false).

(** [encodePsalm], metaphone3.go line 1722. *)
Definition encodePsalm : M bool :=
  ifM (stringAt 1 ["SALM"])
  (ifM (test EncodeVowels)
    (metaphAddStr "SAM" "SAM")
    (metaphAddStr "SM" "SM") ;;
    addIdx 4 ;;
    ret true)
  (ret false).

(** [encodePb], metaphone3.go line 1735. *)
Definition encodePb : M unit :=
  whenM (stringAt 1 ["P"; "B"])
  incIdx.

(** [encodeP], metaphone3.go line 1617. *)
Definition encodeP : M unit :=
  ifM (encodeSilentPAtBeginning ||| encodePt ||| encodePh |||
    encodePph ||| encodeRps ||| encodeCoup |||
    encodePneum ||| encodePsych ||| encodePsalm)
  (ret tt)
  (encodePb ;;
    metaphAdd (rn "P")).

(** [encodeQ], metaphone3.go line 1743. *)
Definition encodeQ : M unit :=
  ifM (stringAt 0 ["QIN"])
  (metaphAdd (rn "X") ;;
    ret tt)
  (whenM (charNextIs (rn "Q"))
    incIdx ;;
    metaphAdd (rn "K")).

(** [encodeRz], metaphone3.go line 1773.  Encode '-RZ-' according to american
    and polish pronunciations *)
Definition encodeRz : M bool :=
  ifM (stringAt (-2) ["GARZ"; "KURZ"; "MARZ"; "MERZ"; "HERZ"; "PERZ"; "WARZ"] |||
    stringAt 0 ["RZANO"; "RZOLA"] ||| stringAt (-1) ["ARZA"; "ARZN"])
  (ret false)
  (ifM (stringAt (-4) ["YASTRZEMSKI"])
    (metaphAddAlt (rn "R") (rn "X") ;;
      incIdx ;;
      ret true)
    (ifM (stringAt (-1) ["BRZEZINSKI"])
      (metaphAddStr "RS" "RJ" ;;
        addIdx 3 ;;
        ret true)
      (ifM (stringAt (-1) ["TRZ"; "PRZ"; "KRZ"] |||
          (stringAt 0 ["RZ"] &&& (isVowelAt (-1) ||| test (fun e => (e.(idx) =? 0)))))
        (metaphAddStr "RS" "X" ;;
          incIdx ;;
          ret true)
        (ifM (stringAt (-1) ["BRZ"; "DRZ"; "GRZ"])
          (metaphAddStr "RS" "J" ;;
            incIdx ;;
            ret true)
          (ret false))))).

(** [testSilentR], metaphone3.go line 1817. *)
Definition testSilentR : M bool :=
  ifM ((test (fun e => (e.(idx) =? e.(lastIdx))) &&&
      stringAt (-2) ["IER"] &&&
      (stringAt (-5) ["MET"; "VIV"; "LUC"] |||
        stringAt (-6) ["CART"; "DOSS"; "FOUR"; "OLIV"; "BUST"; "DAUM"; "ATEL"; "SONN";
          "CORM"; "MERC"; "PELT"; "POIR"; "BERN"; "FORT"; "GREN"; "SAUC"; "GAGN"; "GAUT"; "GRAN";
          "FORC"; "MESS"; "LUSS"; "MEUN"; "POTH"; "HOLL"; "CHEN"] |||
        stringAt (-7) ["CROUP"; "TORCH"; "CLOUT"; "FOURN"; "GAUTH"; "TROTT"; "DEROS"; "CHART"] |||
        stringAt (-8) ["CHEVAL"; "LAVOIS"; "PELLET"; "SOMMEL"; "TREPAN"; "LETELL"; "COLOMB"] |||
        stringAt (-9) ["CHARCUT"] ||| stringAt (-10) ["CHARPENT"])) |||
    stringAt (-2) ["SURBURB"; "WORSTED"; "WORCESTER"] |||
    stringAt (-7) ["MONSIEUR"] ||| stringAt (-6) ["POITIERS"])
  (ret true)
  (ret false).

(** [encodeVowelReTransposition], metaphone3.go line 1844.  Encode '-re-' as
    'AR' in contexts where this is the correct pronunciation *)
Definition encodeVowelReTransposition : M bool :=
  ifM (test EncodeVowels &&& charNextIs (rn "E") &&& test (fun e => (lenIn e >? 3)) &&&
    notM (stringStart ["OUTRE"; "LIBRE"; "ANDRE"]) &&& notM (stringExact ["FRED"; "TRES"]) &&&
    notM (stringAt (-2) ["LDRED"; "LFRED"; "NDRED"; "NFRED"; "NDRES"; "TRES"; "IFRED"]) &&&
    notM (isVowelAt (-1)) &&&
    (test (fun e => (e.(idx) + 1 =? e.(lastIdx))) ||| stringAtEnd 2 ["D"; "S"]))
  (metaphAddStr "AR" "AR" ;;
    ret true)
  (ret false).

(** [encodeR], metaphone3.go line 1757. *)
Definition encodeR : M unit :=
  ifM encodeRz
  (ret tt)
  (whenM (notM (testSilentR) &&& notM (encodeVowelReTransposition))
    (metaphAdd (rn "R")) ;;
    whenM (charNextIs (rn "R") ||| stringAt (-6) ["POITIERS"])
    incIdx).

(** [encodeSkj], metaphone3.go line 1879. *)
Definition encodeSkj : M bool :=
  ifM (stringAt 0 ["SKJO"; "SKJU"] &&& isVowelAt 3)
  (metaphAdd (rn "X") ;;
    addIdx 2 ;;
    ret true)
  (ret false).

(** [namesBeginningWithSwThatGetAltSv], metaphone3.go line 1905. *)
Definition namesBeginningWithSwThatGetAltSv : M bool :=
  stringStart ["SWANSON"; "SWENSON"; "SWINSON"; "SWENSEN"; "SWOBODA";
    "SWIDERSKI"; "SWARTHOUT"; "SWEARENGIN"].

(** [namesBeginningWithSwThatGetAlvXV], metaphone3.go line 1910. *)
Definition namesBeginningWithSwThatGetAlvXV : M bool :=
  stringStart ["SWART"; "SWARTZ"; "SWARTS"; "SWIGER";
    "SWITZER"; "SWANGER"; "SWIGERT"; "SWIGART"; "SWIHART";
    "SWEITZER"; "SWATZELL"; "SWINDLER"; "SWINEHART"; "SWEARINGEN"].

(** [encodeSpecialSw], metaphone3.go line 1888. *)
Definition encodeSpecialSw : M bool :=
  ifM (test (fun e => (e.(idx) =? 0)))
  (ifM namesBeginningWithSwThatGetAltSv
    (metaphAddStr "S" "SV" ;;
      incIdx ;;
      ret true)
    (ifM namesBeginningWithSwThatGetAlvXV
      (metaphAddStr "S" "XV" ;;
        incIdx ;;
        ret true)
      (ret false)))
  (ret false).

(** [encodeSj], metaphone3.go line 1916. *)
Definition encodeSj : M bool :=
  ifM (stringStart ["SJ"])
  (metaphAdd (rn "X") ;;
    incIdx ;;
    ret true)
  (ret false).

(** [encodeSilentFrenchSFinal], metaphone3.go line 1925. *)
Definition encodeSilentFrenchSFinal : M bool :=
  ifM (stringExact ["LOUIS"])
  (metaphAddAlt (rn "S") ReplacementChar ;;
    ret true)
  (ifM (test (fun e => (e.(idx) =? e.(lastIdx))) &&&
      ((stringStart ["YVES"; "ARKANSAS"; "FRANCAIS"; "CRUDITES"; "BRUYERES";
            "DESCARTES"; "DESCHUTES"; "DESCHAMPS"; "DESROCHES"; "DESCHENES";
            "RENDEZVOUS"; "CONTRETEMPS"; "DESLAURIERS"] |||
          stringExact ["HORS"] |||
          stringEnd ["CAMUS"; "YPRES";
            "MESNES"; "DEBRIS"; "BLANCS"; "INGRES"; "CANNES";
            "CHABLIS"; "APROPOS"; "JACQUES"; "ELYSEES"; "OEUVRES"; "GEORGES"; "DESPRES"]) |||
        (stringAt (-2) ["AI"; "OI"; "UI"] &&& notM (stringStart ["LOIS"; "LUIS"]))))
    (ret true)
    (ret false)).

(** [encodeSilentFrenchSInternal], metaphone3.go line 1947. *)
Definition encodeSilentFrenchSInternal : M bool :=
  stringAt (-2) ["MESNES"; "DESCHAM"; "DESPRES"; "DESROCH"; "DESROSI"; "DESJARD"; "DESMARA";
    "DESCHEN"; "DESHOTE"; "DESLAUR"; "DESCARTES"] |||
  stringAt (-5) ["DUQUESNE"; "DUCHESNE"] |||
  stringAt (-3) ["FRESNEL"; "GROSVENOR"] |||
  stringAt (-4) ["LOUISVILLE"] |||
  stringAt (-7) ["BEAUCHESNE"; "ILLINOISAN"].

(** [encodeIsl], metaphone3.go line 1957. *)
Definition encodeIsl : M bool :=
  (stringAt (-2) ["LISL"; "LYSL"; "AISL"] &&&
    notM (stringAt (-3) ["PAISLEY"; "BAISLEY"; "ALISLAM"; "ALISLAH"; "ALISLAA"])) |||
  (test (fun e => (e.(idx) =? 1)) &&& (stringAt (-1) ["ISLE"; "ISLAN"] &&&
      notM (stringAt (-1) ["ISLEY"; "ISLER"]))).

(** [encodeStl], metaphone3.go line 1964. *)
Definition encodeStl : M bool :=
  ifM ((stringAt 0 ["STLE"; "STLI"] &&& notM (stringAt 2 ["LESS"; "LIKE"; "LINE"])) |||
    stringAt (-3) ["THISTLY"; "BRISTLY"; "GRISTLY"] |||
    stringAt (-1) ["USCLE"])
  (ifM (stringStart ["KRISTEN"; "KRYSTLE"; "CRYSTLE"; "KRISTLE"; "CHRISTENSEN"; "CHRISTENSON"] |||
      stringAt (-3) ["FIRSTLING"] |||
      stringAt (-2) ["NESTLING"; "WESTLING"])
    (metaphAddStr "ST" "ST" ;;
      incIdx)
    (ifM (test EncodeVowels &&& charAt 3 (rn "E") &&& notM (charAt 4 (rn "R")) &&&
        notM (stringAt 3 ["EY"; "ETTE"; "ETTA"]))
      (metaphAddStr "SAL" "SAL" ;;
        setFlagAlInversion true)
      (metaphAddStr "SL" "SL") ;;
      addIdx 2) ;;
    ret true)
  (ret false).

(** [encodeChristmas], metaphone3.go line 1995. *)
Definition encodeChristmas : M bool :=
  ifM (stringAt (-4) ["CHRISTMA"])
  (metaphAddStr "SM" "SM" ;;
    addIdx 2 ;;
    ret true)
  (ret false).

(** [encodeSthm], metaphone3.go line 2004. *)
Definition encodeSthm : M bool :=
  ifM (stringAt 0 ["STHM"])
  (metaphAddStr "SM" "SM" ;;
    addIdx 3 ;;
    ret true)
  (ret false).

(** [encodeIsten], metaphone3.go line 2014. *)
Definition encodeIsten : M bool :=
  ifM (stringStart ["CHRISTEN"])
  (ifM (withE (fun e => liftR (rootOrInflections e.(in_) "CHRISTEN")) |||
      stringStart ["CHRISTENDOM"])
    (metaphAddStr "S" "ST")
    (metaphAddStr "ST" "ST") ;;
    incIdx ;;
    ret true)
  (ifM (stringAt (-2) ["LISTEN"; "RISTEN"; "HASTEN"; "FASTEN"; "MUSTNT"] |||
      stringAt (-3) ["MOISTEN"])
    (metaphAdd (rn "S") ;;
      incIdx ;;
      ret true)
    (ret false)).

(** [encodeSugar], metaphone3.go line 2036. *)
Definition encodeSugar : M bool :=
  ifM (stringAt 0 ["SUGAR"])
  (metaphAdd (rn "X") ;;
    ret true)
  (ret false).

(** [encodeSh], metaphone3.go line 2044. *)
Definition encodeSh : M bool :=
  ifM (stringAt 0 ["SH"])
  (ifM (stringAt (-2) ["CASHMERE"])
    (metaphAdd (rn "J") ;;
      incIdx ;;
      ret true)
    (ifM (test (fun e => (e.(idx) >? 0)) &&&
        (stringAtEnd 1 ["HAP"] |||
          stringAt 1 ["HEIM"; "HOEK"; "HOLM"; "HOLZ"; "HOOD"; "HEAD"; "HEID";
            "HAAR"; "HORS"; "HOLE"; "HUND"; "HELM"; "HAWK"; "HILL"; "HEART"; "HATCH"; "HOUSE";
                "HOUND"; "HONOR"] |||
          stringAtEnd 2 ["EAR"] |||
          (stringAt 2 ["ORN"] &&& notM (stringAt (-2) ["UNSHORN"])) |||
          (stringAt 1 ["HOUR"] &&& notM (stringStart ["ASHOUR"; "BASHOUR"; "MANSHOUR"])) |||
          stringAt 2 ["ARMON"; "ONEST"; "ALLOW"; "OLDER"; "OPPER"; "EIMER";
            "ANDLE"; "ONOUR"; "ABILLE"; "UMANCE"; "ABITUA"]))
      (whenM (notM (stringAt (-1) ["S"]))
        (metaphAdd (rn "S")))
      (metaphAdd (rn "X")) ;;
      incIdx ;;
      ret true))
  (ret false).

(** [encodeSch], metaphone3.go line 2083. *)
Definition encodeSch : M bool :=
  ifM (stringAt 1 ["CH"])
  (ifM (test (fun e => (e.(idx) >? 0)) &&&
      (stringAt 3 ["IEF"; "EAT"; "ANCE"; "ARGE"] |||
        stringStart ["ESCHEW"]))
    (metaphAdd (rn "S") ;;
      ret true)
    (ifM ((stringAt 3 ["OO"; "ER"; "EN"; "UY"; "ED"; "EM"; "IA"; "IZ"; "IS"; "OL"] &&&
          notM (stringAt 0 ["SCHOLT"; "SCHISL"; "SCHERR"])) |||
        stringAt 3 ["ISZ"] |||
        (stringAt (-1) ["ESCHAT"; "ASCHIN"; "ASCHAL"; "ISCHAE"; "ISCHIA"] &&&
          notM (stringAt (-2) ["FASCHING"])) |||
        stringAtEnd (-1) ["ESCHI"] |||
        charAt 3 (rn "Y"))
      (ifM (stringAt 3 ["ER"; "EN"; "IS"] &&&
          (test (fun e => (e.(idx) + 4 =? e.(lastIdx))) ||| stringAt 3 ["ENK"; "ENB"; "IST"]))
        (metaphAddStr "X" "SK")
        (metaphAddStr "SK" "SK") ;;
        addIdx 2 ;;
        ret true)
      (metaphAdd (rn "X") ;;
        addIdx 2 ;;
        ret true)))
  (ret false).

(** [encodeSur], metaphone3.go line 2127. *)
Definition encodeSur : M bool :=
  ifM (stringAt 1 ["URE"; "URA"; "URY"])
  (ifM (test (fun e => (e.(idx) =? 0)) ||| stringAt (-1) ["N"; "K"] ||| stringAt (-2) ["NO"])
    (metaphAdd (rn "X"))
    (metaphAdd (rn "J")) ;;
    advanceCounter 1 0 ;;
    ret true)
  (ret false).

(** [encodeSu], metaphone3.go line 2143. *)
Definition encodeSu : M bool :=
  ifM (stringAt 1 ["UO"; "UA"] &&& test (fun e => negb (e.(idx) =? 0)))
  (ifM (stringAt (-1) ["RSUA"])
    (metaphAdd (rn "S"))
    (ifM (isVowelAt (-1))
      (metaphAddAlt (rn "J") (rn "S"))
      (metaphAddAlt (rn "X") (rn "S"))) ;;
    advanceCounter 2 0 ;;
    ret true)
  (ret false).

(** [encodeSsio], metaphone3.go line 2162. *)
Definition encodeSsio : M bool :=
  ifM (stringAt 1 ["SION"])
  (ifM (stringAt (-2) ["CI"])
    (metaphAdd (rn "J"))
    (whenM (isVowelAt (-1))
      (metaphAdd (rn "X"))) ;;
    advanceCounter 3 1 ;;
    ret true)
  (ret false).

(** [encodeSs], metaphone3.go line 2178. *)
Definition encodeSs : M bool :=
  ifM (stringAt (-1) ["USSIA"; "ESSUR"; "ISSUR"; "ISSUE"; "ESSIAN"; "ASSURE"; "ASSURA"; "ISSUAB";
      "ISSUAN"; "ASSIUS"])
  (metaphAdd (rn "X") ;;
    advanceCounter 2 1 ;;
    ret true)
  (ret false).

(** [encodeSia], metaphone3.go line 2189. *)
Definition encodeSia : M bool :=
  ifM (stringAt (-2) ["CHSIA"] ||| stringAt (-1) ["RSIAL"])
  (metaphAdd (rn "X") ;;
    advanceCounter 2 0 ;;
    ret true)
  (ifM ((stringAtStart (-3) ["ALESIA"; "ALYSIA"; "ALISIA"; "STASIA"] &&&
      notM (stringStart ["ANASTASIA"])) |||
      stringAt (-5) ["THERESIA"; "DIONYSIAN"])
    (metaphAddAlt (rn "X") (rn "S") ;;
      advanceCounter 2 0 ;;
      ret true)
    (ifM (stringAtEnd 0 ["SIA"; "SIAN"] ||| stringAt (-5) ["AMBROSIAL"])
      (ifM ((isVowelAt (-1) ||| stringAt (-1) ["R"]) &&&
          notM (stringStart ["JAMES"; "NICOS"; "PEGAS"; "PEPYS";
              "HOBBES"; "HOLMES"; "JAQUES"; "KEYNES";
              "MALTHUS"; "HOMOOUS"; "MAGLEMOS"; "HOMOIOUS";
              "LEVALLOIS"; "TARDENOIS"] ||| stringAt (-4) ["ALGES"]))
        (metaphAdd (rn "J"))
        (metaphAdd (rn "S")) ;;
        advanceCounter 1 0 ;;
        ret true)
      (ret false))).

(** [encodeSio], metaphone3.go line 2226. *)
Definition encodeSio : M bool :=
  ifM (stringStart ["SIOBHAN"])
  (metaphAdd (rn "X") ;;
    advanceCounter 2 0 ;;
    ret true)
  (ifM (stringAt 1 ["ION"])
    (ifM (isVowelAt (-1) ||| stringAt (-2) ["ER"; "UR"])
      (metaphAdd (rn "J"))
      (metaphAdd (rn "X")) ;;
      advanceCounter 2 0 ;;
      ret true)
    (ret false)).

(** [encodeAnglicisations], metaphone3.go line 2247. *)
Definition encodeAnglicisations : M bool :=
  ifM (stringAtStart 0 ["SM"; "SN"; "SL"] ||| stringAt 1 ["Z"])
  (metaphAddAlt (rn "S") (rn "X") ;;
    whenM (stringAt 1 ["Z"])
    incIdx ;;
    ret true)
  (ret false).

(** [encodeSc], metaphone3.go line 2266. *)
Definition encodeSc : M bool :=
  ifM (stringAt 0 ["SC"])
  (ifM (stringAt (-2) ["VISCOUNT"])
    (ret true)
    (ifM (stringAt 2 ["I"; "E"; "Y"])
      (ifM (stringAt 2 ["IUT"; "IOUS"] ||| stringAt (-2) ["FASCIS"] |||
          stringAt (-3) ["CONSCIEN"; "CRESCEND"; "CONSCION"] ||| stringAt (-4) ["OMNISCIEN"])
        (metaphAdd (rn "X"))
        (ifM (stringAt 0 ["SCIVV"; "SCIRO"; "SCIPIO"; "SCEPTIC"; "SCEPSIS"] |||
            stringAt (-2) ["PISCITELLI"])
          (metaphAddStr "SK" "SK")
          (metaphAdd (rn "S"))) ;;
        incIdx ;;
        ret true)
      (metaphAddStr "SK" "SK" ;;
        incIdx ;;
        ret true)))
  (ret false).

(** [encodeSeiSuiSier], metaphone3.go line 2298. *)
Definition encodeSeiSuiSier : M bool :=
  ifM (stringAtEnd (-3) ["NAUSEA"] |||
    stringAt (-2) ["CASUI"] |||
    (stringAt (-1) ["OSIER"; "ASIER"] &&&
      notM (stringStart ["OSIER"; "EASIER"] ||| stringAt (-2) ["ROSIER"; "MOSIER"])))
  (metaphAddAlt (rn "J") (rn "X") ;;
    advanceCounter 2 0 ;;
    ret true)
  (ret false).

(** [encodeSea], metaphone3.go line 2315. *)
Definition encodeSea : M bool :=
  ifM (stringExact ["SEAN"] ||| (stringAt (-3) ["NAUSEO"] &&& notM (stringAt (-3) ["NAUSEAT"])))
  (metaphAdd (rn "X") ;;
    advanceCounter 2 0 ;;
    ret true)
  (ret false).

(** [encodeS], metaphone3.go line 1862.  650 *)
Definition encodeS : M unit :=
  ifM (encodeSkj ||| encodeSpecialSw ||| encodeSj ||| encodeSilentFrenchSFinal |||
    encodeSilentFrenchSInternal ||| encodeIsl ||| encodeStl ||| encodeChristmas |||
    encodeSthm ||| encodeIsten ||| encodeSugar ||| encodeSh ||| encodeSch |||
    encodeSur ||| encodeSu ||| encodeSsio ||| encodeSs ||| encodeSia |||
    encodeSio ||| encodeAnglicisations ||| encodeSc ||| encodeSeiSuiSier |||
    encodeSea)
  (ret tt)
  (metaphAdd (rn "S") ;;
    whenM (stringAt 1 ["S"; "Z"] &&& notM (stringAt 1 ["SH"]))
    incIdx).

(** [encodeTInitial], metaphone3.go line 2339. *)
Definition encodeTInitial : M bool :=
  ifM (test (fun e => (e.(idx) =? 0)))
  (ifM (stringAt 1 ["SAR"; "ZAR"])
    (ret true)
    (ifM (stringExact ["TSO"; "TSA"; "TSU"; "TSAO"; "TSAI"; "TSING"; "TSANG"])
      (metaphAdd (rn "X") ;;
        advanceCounter 2 1 ;;
        ret true)
      (ifM (charNextIs (rn "S") &&& isVowelAt 2)
        (metaphAddStr "TS" "S" ;;
          advanceCounter 2 1 ;;
          ret true)
        (ifM (charNextIs (rn "J"))
          (metaphAdd (rn "X") ;;
            advanceCounter 2 1 ;;
            ret true)
          (ifM (stringExact ["THU"] ||| stringAt 1 ["HAI"; "HUY"; "HAO"; "HYME"; "HYMY"; "HANH";
              "HERES"])
            (metaphAdd (rn "T") ;;
              advanceCounter 2 1 ;;
              ret true)
            (ret false))))))
  (ret false).

(** [encodeTch], metaphone3.go line 2377. *)
Definition encodeTch : M bool :=
  ifM (stringAt 1 ["CH"])
  (metaphAdd (rn "X") ;;
    addIdx 2 ;;
    ret true)
  (ret false).

(** [encodeSilentFrenchT], metaphone3.go line 2386. *)
Definition encodeSilentFrenchT : M bool :=
  (stringAtEnd (-4) ["MONET"; "GENET"; "CHAUT"] |||
    stringAt (-2) ["POTPOURRI"] |||
    stringAt (-3) ["MORTGAGE"; "BOATSWAIN"] |||
    stringAt (-4) ["BERET"; "BIDET"; "FILET"; "DEBUT"; "DEPOT"; "PINOT"; "TAROT"] |||
    stringAt (-5) ["BALLET"; "BUFFET"; "CACHET"; "CHALET"; "ESPRIT"; "RAGOUT"; "GOULET"; "CHABOT";
        "BENOIT"] |||
    stringAt (-6) ["GOURMET"; "BOUQUET"; "CROCHET"; "CROQUET"; "PARFAIT"; "PINCHOT"; "CABARET";
        "PARQUET"; "RAPPORT"; "TOUCHET"; "COURBET"; "DIDEROT"] |||
    stringAt (-7) ["ENTREPOT"; "CABERNET"; "DUBONNET"; "MASSENET"; "MUSCADET"; "RICOCHET";
        "ESCARGOT"] |||
    stringAt (-8) ["SOBRIQUET"; "CABRIOLET"; "CASSOULET"; "OUBRIQUET"; "CAMEMBERT"]) &&&
  notM (stringAt 1 ["AN"; "RY"; "IC"; "OM"; "IN"]).

(** [encodeTunTulTuaTuo], metaphone3.go line 2399. *)
Definition encodeTunTulTuaTuo : M bool :=
  ifM (stringAt (-3) ["FORTUN"] |||
    (stringAt 0 ["TUL"] &&& isVowelAt (-1) &&& isVowelAt 3) |||
    stringAt (-2) ["BITUA"; "BITUE"] |||
    (test (fun e => (e.(idx) >? 1)) &&& stringAt 0 ["TUA"; "TUO"]))
  (metaphAddAlt (rn "X") (rn "T") ;;
    ret true)
  (ret false).

(** [encodeTueTeuTeouTulTie], metaphone3.go line 2415. *)
Definition encodeTueTeuTeouTulTie : M bool :=
  ifM (stringAt 1 ["UENT"] |||
    stringAt (-4) ["RIGHTEOUS"] |||
    stringAt (-3) ["STATUTE"; "AMATEUR"; "STATUTOR"] |||
    stringAt (-1) ["NTULE"; "NTULA"; "STULE"; "STULA"; "STEUR"] |||
    stringAtEnd 0 ["TUE"] |||
    stringAt 0 ["TUENC"] |||
    stringAtEnd 0 ["TIENCE"])
  (metaphAddAlt (rn "X") (rn "T") ;;
    advanceCounter 1 0 ;;
    ret true)
  (ret false).

(** [encodeTurTiuSuffixes], metaphone3.go line 2436. *)
Definition encodeTurTiuSuffixes : M bool :=
  ifM (test (fun e => (e.(idx) >? 0)) &&& stringAt 1 ["URE"; "URA"; "URI"; "URY"; "URO"; "IUS"])
  (ifM ((stringAtEnd 1 ["URA"; "URO"] &&& notM (stringAt (-3) ["VENTURA"])) |||
      stringAt 1 ["URIA"])
    (metaphAdd (rn "T"))
    (metaphAddAlt (rn "X") (rn "T")) ;;
    advanceCounter 1 0 ;;
    ret true)
  (ret false).

(** [encodeTi], metaphone3.go line 2455. *)
Definition encodeTi : M bool :=
  ifM ((stringAt 1 ["IO"] &&& notM (stringAt (-1) ["ETIOL"])) |||
    stringAt 1 ["IAL"] |||
    stringAt (-1) ["RTIUM"; "ATIUM"] |||
    ((stringAt 1 ["IAN"] &&& test (fun e => (e.(idx) >? 0))) &&&
      notM (stringAt (-4) ["FAUSTIAN"] ||| stringAt (-5) ["PROUSTIAN"] |||
        stringAt (-2) ["TATIANA"] ||| stringAt (-3) ["KANTIAN"; "GENTIAN"] |||
        stringAt (-8) ["ROOSEVELTIAN"]) |||
      (stringAtEnd 0 ["TIA"] &&&
        notM (stringAt (-3) ["HESTIA"; "MASTIA"] |||
          stringAt (-2) ["OSTIA"] ||| stringStart ["TIA"] |||
          stringAt (-5) ["IZVESTIA"])) |||
      stringAt 1 ["IATE"; "IATI"; "IABL"; "IATO"; "IARY"] |||
      stringAt (-5) ["CHRISTIAN"]))
  (ifM (stringAtStart (-2) ["ANTI"] ||| stringStart ["PATIO"; "PITIA"; "DUTIA"])
    (metaphAdd (rn "T"))
    (ifM (stringAt (-4) ["EQUATION"])
      (metaphAdd (rn "J"))
      (ifM (stringAt 0 ["TION"])
        (metaphAdd (rn "X"))
        (ifM (stringStart ["KATIA"; "LATIA"])
          (metaphAddAlt (rn "T") (rn "X"))
          (metaphAddAlt (rn "X") (rn "T"))))) ;;
    advanceCounter 2 0 ;;
    ret true)
  (ret false).

(** [encodeTient], metaphone3.go line 2492. *)
Definition encodeTient : M bool :=
  ifM (stringAt 1 ["IENT"])
  (metaphAddAlt (rn "X") (rn "T") ;;
    advanceCounter 2 0 ;;
    ret true)
  (ret false).

(** [encodeTsch], metaphone3.go line 2502. *)
Definition encodeTsch : M bool :=
  ifM (stringAt 0 ["TSCH"] &&&
    notM (stringAt (-3) ["WELT"; "KLAT"; "FEST"]))
  (metaphAdd (rn "X") ;;
    addIdx 3 ;;
    ret true)
  (ret false).

(** [encodeTzsch], metaphone3.go line 2516. *)
Definition encodeTzsch : M bool :=
  ifM (stringAt 0 ["TZSCH"])
  (metaphAdd (rn "X") ;;
    addIdx 4 ;;
    ret true)
  (ret false).

(** [encodeThPronouncedSeparately], metaphone3.go line 2526. *)
Definition encodeThPronouncedSeparately : M bool :=
  ifM ((test (fun e => (e.(idx) >? 0)) &&& stringAt 1 ["HOOD"; "HEAD"; "HEID"; "HAND"; "HILL";
      "HOLD"; "HAWK"; "HEAP"; "HERD";
        "HOLE"; "HOOK"; "HUNT"; "HUMO"; "HAUS"; "HOFF"; "HARD"] &&& notM (stringAt (-3) ["SOUTH";
            "NORTH"])) |||
    stringAt 1 ["HOUSE"; "HEART"; "HASTE"; "HYPNO"; "HEQUE"] |||
    (stringAtEnd 1 ["HALL"] &&& notM (stringAt (-3) ["SOUTH"; "NORTH"])) |||
    (stringAtEnd 1 ["HAM"] &&& notM (stringStart ["GOTHAM"; "WITHAM"; "LATHAM"; "BENTHAM";
        "WALTHAM"; "WORTHAM"; "GRANTHAM"])) |||
    (stringAt 1 ["HATCH"] &&& notM (test (fun e => (e.(idx) =? 0)) |||
        stringAt (-2) ["UNTHATCH"])) |||
    stringAt (-3) ["GOETHE"; "WARTHOG"] |||
    stringAt (-2) ["ESTHER"; "NATHALIE"])
  (ifM (stringAt (-3) ["POSTHUM"])
    (metaphAdd (rn "X"))
    (metaphAdd (rn "T")) ;;
    incIdx ;;
    ret true)
  (ret false).

(** [encodeTth], metaphone3.go line 2552. *)
Definition encodeTth : M bool :=
  ifM (stringAt 0 ["TTH"])
  (ifM (stringAt (-2) ["MATTH"])
    (metaphAdd (rn "0"))
    (metaphAddStr "T0" "T0") ;;
    addIdx 2 ;;
    ret true)
  (ret false).

(** [encodeTh], metaphone3.go line 2567. *)
Definition encodeTh : M bool :=
  ifM (stringAt 0 ["TH"])
  (ifM (stringAt (-3) ["CLOTHES"])
    (addIdx 2 ;;
      ret true)
    (ifM (stringAt 2 ["OMAS"; "OMPS"; "OMPK"; "OMSO"; "OMSE"; "AMES"; "OVEN"; "OFEN"; "ILDA";
        "ILDE"] |||
        stringExact ["THOM"; "THOMS"] |||
        stringStart ["SCH"; "VAN "; "VON "])
      (metaphAdd (rn "T"))
      (ifM (stringStart ["SM"])
        (metaphAddAlt (rn "0") (rn "T"))
        (metaphAdd (rn "0"))) ;;
      incIdx ;;
      ret true))
  (ret false).

(** [encodeT], metaphone3.go line 2325. *)
Definition encodeT : M unit :=
  ifM (encodeTInitial ||| encodeTch ||| encodeSilentFrenchT |||
    encodeTunTulTuaTuo ||| encodeTueTeuTeouTulTie ||| encodeTurTiuSuffixes |||
    encodeTi ||| encodeTient ||| encodeTsch ||| encodeTzsch |||
    encodeThPronouncedSeparately ||| encodeTth ||| encodeTh)
  (ret tt)
  (whenM (stringAt 1 ["T"; "D"])
    incIdx ;;
    metaphAdd (rn "T")).

(** [encodeV], metaphone3.go line 2598. *)
Definition encodeV : M unit :=
  whenM (charNextIs (rn "V"))
  incIdx ;;
  metaphAddExactApprox "V" "F".

(** [encodeSilentWAtBeginning], metaphone3.go line 2617. *)
Definition encodeSilentWAtBeginning : M bool :=
  stringAtStart 0 ["WR"].

(** [encodeWitzWicz], metaphone3.go line 2621. *)
Definition encodeWitzWicz : M bool :=
  ifM (stringAtEnd 0 ["WICZ"; "WITZ"])
  (ifM (test EncodeVowels)
    (ifM (test (fun e => (llen e.(primBuf) >? 0)) &&&
        (c <- withE (fun e => liftR (index e.(primBuf) (llen e.(primBuf) - 1))) ;;
        ret (c =? (rn "A"))))
      (metaphAddStr "TS" "FAX")
      (metaphAddStr "ATS" "FAX"))
    (metaphAddStr "TS" "FX") ;;
    addIdx 3 ;;
    ret true)
  (ret false).

(** [encodeWr], metaphone3.go line 2641. *)
Definition encodeWr : M bool :=
  ifM (stringAt 0 ["WR"])
  (metaphAdd (rn "R") ;;
    incIdx ;;
    ret true)
  (ret false).

(** [germanicOrSlavicNameBeginningWithW], metaphone3.go line 2715. *)
Definition germanicOrSlavicNameBeginningWithW : M bool :=
  stringStart ["WEE"; "WIX"; "WAX";
    "WOLF"; "WEIS"; "WAHL"; "WALZ"; "WEIL"; "WERT"; "WINE"; "WILK"; "WALT"; "WOLL";
    "WADA"; "WULF"; "WEHR"; "WURM"; "WYSE"; "WENZ"; "WIRT"; "WOLK"; "WEIN"; "WYSS"; "WASS"; "WANN";
    "WINT"; "WINK"; "WILE"; "WIKE"; "WIER"; "WELK"; "WISE";
    "WIRTH"; "WIESE"; "WITTE"; "WENTZ"; "WOLFF"; "WENDT"; "WERTZ"; "WILKE"; "WALTZ";
    "WEISE"; "WOOLF"; "WERTH"; "WEESE"; "WURTH"; "WINES"; "WARGO"; "WIMER"; "WISER"; "WAGER";
    "WILLE"; "WILDS"; "WAGAR"; "WERTS"; "WITTY"; "WIENS"; "WIEBE"; "WIRTZ"; "WYMER"; "WULFF";
    "WIBLE"; "WINER"; "WIEST"; "WALKO"; "WALLA"; "WEBRE"; "WEYER"; "WYBLE"; "WOMAC"; "WILTZ";
    "WURST"; "WOLAK"; "WELKE"; "WEDEL"; "WEIST"; "WYGAN"; "WUEST"; "WEISZ"; "WALCK"; "WEITZ";
    "WYDRA"; "WANDA"; "WILMA"; "WEBER";
    "WETZEL"; "WEINER"; "WENZEL"; "WESTER"; "WALLEN"; "WENGER"; "WALLIN"; "WEILER";
    "WIMMER"; "WEIMER"; "WYRICK"; "WEGNER"; "WINNER"; "WESSEL"; "WILKIE"; "WEIGEL"; "WOJCIK";
    "WENDEL"; "WITTER"; "WIENER"; "WEISER"; "WEXLER"; "WACKER"; "WISNER"; "WITMER"; "WINKLE";
    "WELTER"; "WIDMER"; "WITTEN"; "WINDLE"; "WASHER"; "WOLTER"; "WILKEY"; "WIDNER"; "WARMAN";
    "WEYANT"; "WEIBEL"; "WANNER"; "WILKEN"; "WILTSE"; "WARNKE"; "WALSER"; "WEIKEL"; "WESNER";
    "WITZEL"; "WROBEL"; "WAGNON"; "WINANS"; "WENNER"; "WOLKEN"; "WILNER"; "WYSONG"; "WYCOFF";
    "WUNDER"; "WINKEL"; "WIDMAN"; "WELSCH"; "WEHNER"; "WEIGLE"; "WETTER"; "WUNSCH"; "WHITTY";
    "WAXMAN"; "WILKER"; "WILHAM"; "WITTIG"; "WITMAN"; "WESTRA"; "WEHRLE"; "WASSER"; "WILLER";
    "WEGMAN"; "WARFEL"; "WYNTER"; "WERNER"; "WAGNER"; "WISSER";
    "WISEMAN"; "WINKLER"; "WILHELM"; "WELLMAN"; "WAMPLER"; "WACHTER"; "WALTHER";
    "WYCKOFF"; "WEIDNER"; "WOZNIAK"; "WEILAND"; "WILFONG"; "WIEGAND"; "WILCHER"; "WIELAND";
    "WILDMAN"; "WALDMAN"; "WORTMAN"; "WYSOCKI"; "WEIDMAN"; "WITTMAN"; "WIDENER"; "WOLFSON";
    "WENDELL"; "WEITZEL"; "WILLMAN"; "WALDRUP"; "WALTMAN"; "WALCZAK"; "WEIGAND"; "WESSELS";
    "WIDEMAN"; "WOLTERS"; "WIREMAN"; "WILHOIT"; "WEGENER"; "WOTRING"; "WINGERT"; "WIESNER";
    "WAYMIRE"; "WHETZEL"; "WENTZEL"; "WINEGAR"; "WESTMAN"; "WYNKOOP"; "WALLICK"; "WURSTER";
    "WINBUSH"; "WILBERT"; "WALLACH"; "WYNKOOP"; "WALLICK"; "WURSTER"; "WINBUSH"; "WILBERT";
    "WALLACH"; "WEISSER"; "WEISNER"; "WINDERS"; "WILLMON"; "WILLEMS"; "WIERSMA"; "WACHTEL";
    "WARNICK"; "WEIDLER"; "WALTRIP"; "WHETSEL"; "WHELESS"; "WELCHER"; "WALBORN"; "WILLSEY";
    "WEINMAN"; "WAGAMAN"; "WOMMACK"; "WINGLER"; "WINKLES"; "WIEDMAN"; "WHITNER"; "WOLFRAM";
    "WARLICK"; "WEEDMAN"; "WHISMAN"; "WINLAND"; "WEESNER"; "WARTHEN"; "WETZLER"; "WENDLER";
    "WALLNER"; "WOLBERT"; "WITTMER"; "WISHART"; "WILLIAM";
    "WESTPHAL"; "WICKLUND"; "WEISSMAN"; "WESTLUND"; "WOLFGANG"; "WILLHITE"; "WEISBERG";
    "WALRAVEN"; "WOLFGRAM"; "WILHOITE"; "WECHSLER"; "WENDLING"; "WESTBERG"; "WENDLAND"; "WININGER";
    "WHISNANT"; "WESTRICK"; "WESTLING"; "WESTBURY"; "WEITZMAN"; "WEHMEYER"; "WEINMANN"; "WISNESKI";
    "WHELCHEL"; "WEISHAAR"; "WAGGENER"; "WALDROUP"; "WESTHOFF"; "WIEDEMAN"; "WASINGER"; "WINBORNE";
    "WHISENANT"; "WEINSTEIN"; "WESTERMAN"; "WASSERMAN"; "WITKOWSKI"; "WEINTRAUB";
    "WINKELMAN"; "WINKFIELD"; "WANAMAKER"; "WIECZOREK"; "WIECHMANN"; "WOJTOWICZ"; "WALKOWIAK";
    "WEINSTOCK"; "WILLEFORD"; "WARKENTIN"; "WEISINGER"; "WINKLEMAN"; "WILHEMINA";
    "WISNIEWSKI"; "WUNDERLICH"; "WHISENHUNT"; "WEINBERGER"; "WROBLEWSKI"; "WAGUESPACK";
    "WEISGERBER"; "WESTERVELT"; "WESTERLUND"; "WASILEWSKI"; "WILDERMUTH"; "WESTENDORF";
    "WESOLOWSKI"; "WEINGARTEN"; "WINEBARGER"; "WESTERBERG"; "WANNAMAKER"; "WEISSINGER";
    "WALDSCHMIDT"; "WEINGARTNER"; "WINEBRENNER";
    "WOLFENBARGER"; "WOJCIECHOWSKI"].

(** [encodeInitialWVowel], metaphone3.go line 2651. *)
Definition encodeInitialWVowel : M bool :=
  ifM (test (fun e => (e.(idx) =? 0)) &&& isVowelAt 1)
  (ifM germanicOrSlavicNameBeginningWithW
    (ifM (test EncodeVowels)
      (metaphAddExactApproxAlt "A" "VA" "A" "FA")
      (metaphAddExactApproxAlt "A" "V" "A" "F"))
    (metaphAdd (rn "A")) ;;
    assignIdx (withE (fun e => skipVowels (e.(idx) + 1))) ;;
    ret true)
  (ret false).

(** [encodeWh], metaphone3.go line 2671. *)
Definition encodeWh : M bool :=
  ifM (stringAt 0 ["WH"])
  (ifM (charAt 2 (rn "O") &&& notM (stringAt 2 ["OA"; "OP"; "OOP"; "OMP"; "ORL"; "ORT"; "OOSH"]))
    (metaphAdd (rn "H") ;;
      advanceCounter 2 1 ;;
      ret true)
    (ifM (stringAt 2 ["IDE"; "ARD"; "EAD"; "AWK"; "ERD"; "OOK"; "AND"; "OLE"; "OOD";
          "EART"; "OUSE"; "OUND"; "AMMER"])
      (metaphAdd (rn "H") ;;
        incIdx ;;
        ret true)
      (ifM (test (fun e => (e.(idx) =? 0)))
        (metaphAdd (rn "A") ;;
          assignIdx (withE (fun e => skipVowels (e.(idx) + 2))) ;;
          ret true)
        (incIdx ;;
          ret true))))
  (ret false).

(** [encodeEasternEuropeanW], metaphone3.go line 2702. *)
Definition encodeEasternEuropeanW : M bool :=
  ifM ((test (fun e => (e.(idx) =? e.(lastIdx))) &&& isVowelAt (-1)) |||
    stringAt (-1) ["EWSKI"; "EWSKY"; "OWSKI"; "OWSKY"] |||
    stringAtEnd 0 ["WIAK"; "WICKI"; "WACKI"] |||
    stringStart ["SCH"])
  (metaphAddExactApproxAlt "" "V" "" "F" ;;
    ret true)
  (ret false).

(** [encodeW], metaphone3.go line 2605. *)
Definition encodeW : M unit :=
  ifM (encodeSilentWAtBeginning ||| encodeWitzWicz ||| encodeWr |||
    encodeInitialWVowel ||| encodeWh ||| encodeEasternEuropeanW)
  (ret tt)
  (whenM (test EncodeVowels &&& stringAtEnd 0 ["WE"])
    (metaphAdd (rn "A"))).

(** [encodeInitialX], metaphone3.go line 2774. *)
Definition encodeInitialX : M bool :=
  ifM (stringStart ["XU"; "XIA"; "XIO"; "XIE"])
  (metaphAdd (rn "X") ;;
    ret true)
  (ifM (test (fun e => (e.(idx) =? 0)))
    (metaphAdd (rn "S") ;;
      ret true)
    (ret false)).

(** [encodeGreekX], metaphone3.go line 2790.  'xylophone', xylem', 'xanthoma',
    'xeno-' *)
Definition encodeGreekX : M bool :=
  ifM (stringAt 1 ["YLO"; "YLE"; "ENO"; "ANTH"])
  (metaphAdd (rn "S") ;;
    ret true)
  (ret false).

(** [encodeXSpecialCases], metaphone3.go line 2799.  Encode special cases,
    'LUXUR-', 'Texeira' *)
Definition encodeXSpecialCases : M bool :=
  ifM (stringAt (-2) ["LUXUR"])
  (metaphAddExactApprox "GJ" "KJ" ;;
    ret true)
  (ifM (stringStart ["TEXEIRA"; "TEIXEIRA"])
    (metaphAdd (rn "X") ;;
      ret true)
    (ret false)).

(** [encodeXToH], metaphone3.go line 2814.  Encode special case where
    americans know the proper mexican indian pronounciation of this name *)
Definition encodeXToH : M bool :=
  ifM (stringAt (-2) ["OAXACA"] ||| stringAt (-3) ["QUIXOTE"])
  (metaphAdd (rn "H") ;;
    ret true)
  (ret false).

(** [encodeXVowel], metaphone3.go line 2822. *)
Definition encodeXVowel : M bool :=
  ifM (stringAt 1 ["UAL"; "ION"; "IOU"])
  (metaphAddStr "KX" "KS" ;;
    advanceCounter 2 0 ;;
    ret true)
  (ret false).

(** [encodeFrenchXFinal], metaphone3.go line 2832. *)
Definition encodeFrenchXFinal : M bool :=
  whenM (notM (test (fun e => (e.(idx) =? e.(lastIdx))) &&& (stringAt (-3) ["IAU"; "EAU"; "IEU"] |||
        stringAt (-2) ["AI"; "AU"; "OU"; "OI"; "EU"])))
  (metaphAddStr "KS" "KS") ;;
  ret false.

(** [encodeX], metaphone3.go line 2761. *)
Definition encodeX : M unit :=
  ifM (encodeInitialX ||| encodeGreekX ||| encodeXSpecialCases |||
    encodeXToH ||| encodeXVowel ||| encodeFrenchXFinal)
  (ret tt)
  (whenM (stringAt 1 ["X"; "Z"; "S"; "CE"; "CE"])
    incIdx).

(** [encodeZz], metaphone3.go line 2857.  Encode cases of '-ZZ-' where it is
    obviously part of an italian word where '-ZZ-' is pronounced as TS *)
Definition encodeZz : M bool :=
  ifM (charNextIs (rn "Z") &&&
    (stringAtEnd 2 ["I"; "O"; "A"] ||| stringAt (-2) ["MOZZARELL"; "PIZZICATO"; "PUZZONLAN"]))
  (metaphAddStr "TS" "S" ;;
    incIdx ;;
    ret true)
  (ret false).

(** [encodeZuZierZs], metaphone3.go line 2869. *)
Definition encodeZuZierZs : M bool :=
  ifM ((test (fun e => (e.(idx) =? 1)) &&& stringAt (-1) ["AZUR"]) |||
    (stringAt 0 ["ZIER"] &&& notM (stringAt (-2) ["VIZIER"])) |||
    stringAt 0 ["ZSA"])
  (metaphAddAlt (rn "J") (rn "S") ;;
    whenM (stringAt 0 ["ZSA"])
    incIdx ;;
    ret true)
  (ret false).

(** [encodeFrenchEz], metaphone3.go line 2886.  Encode cases where americans
    recognize '-EZ' as part of a french word where Z not pronounced *)
Definition encodeFrenchEz : M bool :=
  ifM ((test (fun e => (e.(idx) =? 3)) &&& stringAt (-3) ["CHEZ"]) |||
    stringAt (-5) ["RENDEZ"])
  (ret true)
  (ret false).

(** [encodeGermanZ], metaphone3.go line 2896.  Encode cases where '-Z-' is in
    a german word where Z => TS in german *)
Definition encodeGermanZ : M bool :=
  ifM (stringExact ["NAZI"] |||
    stringAt (-2) ["NAZIFY"; "MOZART"] |||
    stringAt (-3) ["HOLZ"; "HERZ"; "MERZ"; "FITZ"; "HERZOG"] |||
    (stringAt (-3) ["GANZ"] &&& notM (isVowelAt 1)) |||
    stringAt (-4) ["STOLZ"; "PRINZ"; "VENEZIA"] |||
    (stringContains "SCH" &&& notM (stringEnd ["IZE"; "OZE"; "ZEL"])) |||
    (test (fun e => (e.(idx) >? 0)) &&& stringAt 0 ["ZEIT"]) |||
    stringAt (-3) ["WEIZ"])
  (ifM (test (fun e => (e.(idx) >? 0)) &&& charAt (-1) (rn "T"))
    (metaphAdd (rn "S"))
    (metaphAddStr "TS" "TS") ;;
    ret true)
  (ret false).

(** [encodeZh], metaphone3.go line 2918. *)
Definition encodeZh : M bool :=
  ifM (charNextIs (rn "H"))
  (metaphAdd (rn "J") ;;
    incIdx ;;
    ret true)
  (ret false).

(** [encodeZ], metaphone3.go line 2842. *)
Definition encodeZ : M unit :=
  ifM (encodeZz ||| encodeZuZierZs ||| encodeFrenchEz ||| encodeGermanZ ||| encodeZh)
  (ret tt)
  (metaphAdd (rn "S") ;;
    whenM (charNextIs (rn "Z"))
    incIdx).

(** [encodeSkipSilentUe], metaphone3.go line 2956. *)
Definition encodeSkipSilentUe : M bool :=
  ifM ((stringAt (-1) ["QUE"; "GUE"] &&&
      notM (stringStart ["RISQUE"; "PIROGUE"; "ENRIQUE"; "BARBEQUE"; "PALENQUE"; "APPLIQUE";
          "COMMUNIQUE"]) &&&
      notM (stringAt (-3) ["ARGUE"; "SEGUE"])) &&&
    test (fun e => (e.(idx) >? 1)) &&&
    (test (fun e => (e.(idx) + 1 =? e.(lastIdx))) ||| stringStart ["JACQUES"]))
  (assignIdx (withE (fun e => skipVowels (e.(idx)))) ;;
    ret true)
  (ret false).

(** [encodeOSilent], metaphone3.go line 3009. *)
Definition encodeOSilent : M bool :=
  ifM (charAt 0 (rn "O") &&& stringAt (-2) ["IRON"])
  (ifM ((stringStart ["IRON"] ||| stringAtEnd (-2) ["IRON"]) &&& notM (stringAt (-2) ["IRONIC"]))
    (ret true)
    (ret false))
  (ret false).

(** [encodeEPronouncedAtEnd], metaphone3.go line 3055.  Tests for words where
    an 'E' at the end of the word is pronounced  special cases, mostly from
    the greek, spanish, japanese, italian, and french words normally having an
    acute accent. also, pronouns and articles  Many Thanks to ali,
    QuentinCompson, JeffCO, ToonScribe, Xan, Trafalz, and VictorLaszlo, all of
    them atriots from the Eschaton, for all their fine contributions! *)
Definition encodeEPronouncedAtEnd : M bool :=
  ifM (test (fun e => (e.(idx) =? e.(lastIdx))) &&&
    (stringAt (-6) ["STROPHE"] |||
      test (fun e => (lenIn e =? 2)) |||
      (test (fun e => (lenIn e =? 3)) &&& notM (withE (fun e => isVowelAt (- e.(idx))))) |||
      (stringAtEnd (-2) ["BKE"; "DKE"; "FKE"; "KKE"; "LKE"; "NKE"; "MKE"; "PKE"; "TKE"; "VKE";
          "ZKE"] &&&
        notM (stringStart ["FINKE"; "FUNKE"; "FRANKE"])) |||
      stringAtEnd (-4) ["SCHKE"] |||
      stringExact ["ACME"; "NIKE"; "CAFE"; "RENE"; "LUPE"; "JOSE"; "ESME";
        "LETHE"; "CADRE"; "TILDE"; "SIGNE"; "POSSE"; "LATTE"; "ANIME"; "DOLCE"; "CROCE";
        "ADOBE"; "OUTRE"; "JESSE"; "JAIME"; "JAFFE"; "BENGE"; "RUNGE";
        "CHILE"; "DESME"; "CONDE"; "URIBE"; "LIBRE"; "ANDRE";
        "HECATE"; "PSYCHE"; "DAPHNE"; "PENSKE"; "CLICHE"; "RECIPE";
        "TAMALE"; "SESAME"; "SIMILE"; "FINALE"; "KARATE"; "RENATE"; "SHANTE";
        "OBERLE"; "COYOTE"; "KRESGE"; "STONGE"; "STANGE"; "SWAYZE"; "FUENTE";
        "SALOME"; "URRIBE";
        "ECHIDNE"; "ARIADNE"; "MEINEKE"; "PORSCHE"; "ANEMONE"; "EPITOME";
        "SYNCOPE"; "SOUFFLE"; "ATTACHE"; "MACHETE"; "KARAOKE"; "BUKKAKE";
        "VICENTE"; "ELLERBE"; "VERSACE";
        "PENELOPE"; "CALLIOPE"; "CHIPOTLE"; "ANTIGONE"; "KAMIKAZE"; "EURIDICE";
        "YOSEMITE"; "FERRANTE";
        "HYPERBOLE"; "GUACAMOLE"; "XANTHIPPE";
        "SYNECDOCHE"]))
  (ret true)
  (ret false).

(** [encodeESilent], metaphone3.go line 3020. *)
Definition encodeESilent : M bool :=
  ifM encodeEPronouncedAtEnd
  (ret false)
  (ifM (test (fun e => (e.(idx) =? e.(lastIdx))) |||
      (test (fun e => ((e.(idx) >? 1) && (e.(idx) + 1 =? e.(lastIdx)))) &&& stringAt 1 ["S";
          "D"] &&&
        notM (stringAt (-1) ["TED"; "SES"; "CES"] |||
          stringStart ["ABED"; "IMED"; "JARED"; "AHMED"; "HAMED"; "JAVED";
            "NORRED"; "MEDVED"; "MERCED"; "ALLRED"; "KHALED"; "RASHED"; "MASJED";
            "MOHAMED"; "MOHAMMED"; "MUHAMMED"; "MOUHAMED"; "ANTIPODES"; "ANOPHELES"])) |||
      stringAtEnd 1 ["NESS"; "LESS"] |||
      (stringAtEnd 1 ["LY"] &&& notM (stringStart ["CICELY"])))
    (ret true)
    (ret false)).

(** [encodeESuffix], metaphone3.go line 3107. *)
Definition encodeESuffix (at_ : Z) : M bool :=
  ifM (test (fun e => ((e.(idx) =? at_ - 1) && (lenIn e >? at_ + 1))) &&&
    (withE (fun e => isVowelAt (- e.(idx) + at_ + 1)) |||
      (withE (fun e => stringAt (- e.(idx) + at_) ["ST"; "SL"]) &&&
          test (fun e => (lenIn e >? at_ + 2)))))
  (ifM (withE (fun e => stringAtEnd (- e.(idx) + at_) ["T"; "R"; "TA"; "TT"; "NA"; "NO"; "NE";
          "RS"; "RE"; "LA"; "AU"; "RO"; "RA"; "TTE"; "LIA"; "NOW"; "ROS"; "RAS";
          "WOOD"; "WATER"; "WORTH"]))
    (ret false)
    (ret true))
  (ret false).

(** [encodeSilentInternalE], metaphone3.go line 3088. *)
Definition encodeSilentInternalE : M bool :=
  ifM ((stringStart ["OLE"] &&& encodeESuffix 3) |||
    (stringStart ["BARE"; "FIRE"; "FORE"; "GATE"; "HAGE"; "HAVE";
        "HAZE"; "HOLE"; "CAPE"; "HUSE"; "LACE"; "LINE";
        "LIVE"; "LOVE"; "MORE"; "MOSE"; "MORE"; "NICE";
        "RAKE"; "ROBE"; "ROSE"; "SISE"; "SIZE"; "WARE";
        "WAKE"; "WISE"; "WINE"] &&& encodeESuffix 4) |||
    (stringStart ["BLAKE"; "BRAKE"; "BRINE"; "CARLE"; "CLEVE"; "DUNNE";
        "HEDGE"; "HOUSE"; "JEFFE"; "LUNCE"; "STOKE"; "STONE";
        "THORE"; "WEDGE"; "WHITE"] &&& encodeESuffix 5) |||
    (stringStart ["BRIDGE"; "CHEESE"] &&& encodeESuffix 6) |||
    (stringAt (-5) ["CHARLES"]))
  (ret true)
  (ret false).

(** [encodeEPronouncedExceptions], metaphone3.go line 3137.  Exceptions where
    'E' is pronounced where it usually wouldn't be, and also some cases where
    'LE' transposition rules don't apply and the vowel needs to be encoded
    here *)
Definition encodeEPronouncedExceptions : M bool :=
  ifM ((test (fun e => (e.(idx) + 1 =? e.(lastIdx))) &&&
      (stringAtEnd (-3) ["OCLES"; "ACLES"; "AKLES"] |||
        stringStart ["INES";
          "LOPES"; "ESTES"; "GOMES"; "NUNES"; "ALVES"; "ICKES";
          "INNES"; "PERES"; "WAGES"; "NEVES"; "BENES"; "DONES";
          "CORTES"; "CHAVES"; "VALDES"; "ROBLES"; "TORRES"; "FLORES"; "BORGES";
          "NIEVES"; "MONTES"; "SOARES"; "VALLES"; "GEDDES"; "ANDRES"; "VIAJES";
          "CALLES"; "FONTES"; "HERMES"; "ACEVES"; "BATRES"; "MATHES";
          "DELORES"; "MORALES"; "DOLORES"; "ANGELES"; "ROSALES"; "MIRELES"; "LINARES";
          "PERALES"; "PAREDES"; "BRIONES"; "SANCHES"; "CAZARES"; "REVELES"; "ESTEVES";
          "ALVARES"; "MATTHES"; "SOLARES"; "CASARES"; "CACERES"; "STURGES"; "RAMIRES";
          "FUNCHES"; "BENITES"; "FUENTES"; "PUENTES"; "TABARES"; "HENTGES"; "VALORES";
          "GONZALES"; "MERCEDES"; "FAGUNDES"; "JOHANNES"; "GONSALES"; "BERMUDES";
          "CESPEDES"; "BETANCES"; "TERRONES"; "DIOGENES"; "CORRALES"; "CABRALES";
          "MARTINES"; "GRAJALES";
          "CERVANTES"; "FERNANDES"; "GONCALVES"; "BENEVIDES"; "CIFUENTES"; "SIFUENTES";
          "SERVANTES"; "HERNANDES"; "BENAVIDES";
          "ARCHIMEDES"; "CARRIZALES"; "MAGALLANES"])) |||
    stringAt (-2) ["FRED"; "DGES"; "DRED"; "GNES"] |||
    stringAt (-5) ["PROBLEM"; "RESPLEN"] |||
    stringAt (-4) ["REPLEN"] |||
    stringAt (-3) ["SPLE"])
  (ret true)
  (ret false).

(** [encodeEPronounced], metaphone3.go line 2973.  Encodes cases where
    non-initial 'e' is pronounced, taking care to detect unusual cases from
    the greek. Only executed if non initial vowel encoding is turned on *)
Definition encodeEPronounced : M unit :=
  ifM (stringExact ["LAME"; "SAKE"; "PATE"; "AGAPE"] |||
    (stringStart ["RESUME"] &&& test (fun e => (e.(idx) =? 5))))
  (metaphAddAlt ReplacementChar (rn "A") ;;
    ret tt)
  (ifM (stringExact ["INGE"])
    (metaphAddAlt (rn "A") ReplacementChar ;;
      ret tt)
    (ifM (test (fun e => (e.(idx) =? 5)) &&& stringStart ["BLESSED"; "LEARNED"])
      (metaphAddExactApproxAlt "D" "AD" "T" "AT" ;;
        incIdx ;;
        ret tt)
      (whenM ((notM (encodeESilent) &&& test (fun e => negb e.(flagAlInversion)) &&&
          notM (encodeSilentInternalE)) |||
          encodeEPronouncedExceptions)
        (metaphAdd (rn "A")) ;;
        setFlagAlInversion false))).

(** [encodeVowels], metaphone3.go line 2928. *)
Definition encodeVowels : M unit :=
  let rest :=
  whenM (notM (notM (isVowelAt (-2)) &&& stringAt (-1) ["LEWA"; "LEWO"; "LEWI"]))
  (assignIdx (withE (fun e => skipVowels (e.(idx) + 1)))) in
  ifM (test (fun e => (e.(idx) =? 0)))
  (metaphAdd (rn "A") ;;
    rest)
  (ifM (test EncodeVowels)
    (ifM (notM (charAt 0 (rn "E")))
      (ifM encodeSkipSilentUe
        (ret tt)
        (ifM encodeOSilent
          (ret tt)
          (metaphAdd (rn "A") ;;
            rest)))
      (encodeEPronounced ;;
        rest))
    rest).

(** ** The control loop *)

(** The [switch] of [Encode] on the rune at the cursor. *)
Definition dispatch (c : rune) : M unit :=
  if c =? rn "B" then encodeB
  else if (c =? 223) || (c =? 199) then metaphAdd (rn "S")      (* 'ß', 'Ç' *)
  else if c =? rn "C" then encodeC
  else if c =? rn "D" then encodeD
  else if c =? rn "F" then encodeF
  else if c =? rn "G" then encodeG
  else if c =? rn "H" then encodeH
  else if c =? rn "J" then encodeJ
  else if c =? rn "K" then encodeK
  else if c =? rn "L" then encodeL
  else if c =? rn "M" then encodeM
  else if c =? rn "N" then encodeN
  else if c =? 209 then metaphAdd (rn "N")                       (* 'Ñ' *)
  else if c =? rn "P" then encodeP
  else if c =? rn "Q" then encodeQ
  else if c =? rn "R" then encodeR
  else if c =? rn "S" then encodeS
  else if c =? rn "T" then encodeT
  else if (c =? 208) || (c =? 222) then metaphAdd (rn "0")      (* 'Ð', 'Þ' *)
  else if c =? rn "V" then encodeV
  else if c =? rn "W" then encodeW
  else if c =? rn "X" then encodeX
  else if c =? 49802 then metaphAdd (rn "X")                     (* '슊' *)
  else if c =? 49806 then metaphAdd (rn "S")                     (* '슎' *)
  else if c =? rn "Z" then encodeZ
  else if isVowel c then encodeVowels
  else ret tt.

(** The test that leaves the loop early: both buffers are full. *)
Definition buffersFull (e : Encoder) : bool :=
  (llen e.(primBuf) >=? e.(MaxLength)) && (llen e.(secondBuf) >=? e.(MaxLength)).

(** One pass of the loop body and the [e.idx++] that follows it. *)
Definition scanStep : M unit :=
  c <- withE (fun e => inAt e.(idx)) ;;
  dispatch c ;;
  incIdx.

(** [for e.idx = 0; e.idx < len(e.in); e.idx++ { ... }], entered after
    [e.idx = 0]; [fuel] bounds the number of passes. *)
Fixpoint scanLoop (fuel : nat) : M unit :=
  ifM (test (fun e => e.(idx) <? lenIn e))
    (ifM (test buffersFull)
       (ret tt)
       match fuel with
       | O => fun _ => OutOfFuel
       | S fuel' => scanStep ;; scanLoop fuel'
       end)
    (ret tt).

(** [buf[:hi]] with the run-time bounds check (against the length: the
    capacity is not modelled). *)
Definition sliceTo {A} (l : list A) (hi : Z) : result (list A) :=
  if (hi <? 0) || (llen l <? hi) then Panic "slice bounds out of range"
  else Ok (firstn (Z.to_nat hi) l).

(** The first part of [Encode] for a non-empty input: the set-up of the
    fields and the loop. *)
Definition encodeScan (fuel : nat) (ToUpper : rune -> rune) (in0 : string) : M unit :=
  whenM (test (fun e => e.(MaxLength) <=? 0))
    (modify (set_MaxLength DefaultMaxLength)) ;;
  setFlagAlInversion false ;;
  (* setup our input buffer and to-upper everything *)
  modify (set_in (map ToUpper (runes in0))) ;;
  modify (fun e => set_lastIdx (lenIn e - 1) e) ;;
  modify (fun e => set_primBuf (primeBuf e.(primBuf) e.(MaxLength)) e) ;;
  modify (fun e => set_secondBuf (primeBuf e.(secondBuf) e.(MaxLength)) e) ;;
  setIdx 0 ;;
  scanLoop fuel.

(** The last part of [Encode]: trim the buffers, compare them, convert
    them. *)
Definition encodeFinish : M (string * string) :=
  whenM (test (fun e => llen e.(primBuf) >? e.(MaxLength)))
    (b <- withE (fun e => liftR (sliceTo e.(primBuf) e.(MaxLength))) ;;
     modify (set_primBuf b)) ;;
  whenM (test (fun e => llen e.(secondBuf) >? e.(MaxLength)))
    (b <- withE (fun e => liftR (sliceTo e.(secondBuf) e.(MaxLength))) ;;
     modify (set_secondBuf b)) ;;
  ifM (withE (fun e => liftR (areEqual e.(primBuf) e.(secondBuf))))
    (get (fun e => (stringOfRunes e.(primBuf), "")))
    (get (fun e => (stringOfRunes e.(primBuf), stringOfRunes e.(secondBuf)))).

(** [Encode] with an explicit bound on the passes of its loop. *)
Definition EncodeFuel (fuel : nat) (ToUpper : rune -> rune) (in0 : string)
  : M (string * string) :=
  if String.eqb in0 "" then ret ("", "")
  else encodeScan fuel ToUpper in0 ;; encodeFinish.

(** [Encode]: the primary and secondary metaphones of a string.  The
    loop is given one pass per rune of the input. *)
Definition Encode (ToUpper : rune -> rune) (in0 : string)
  : M (string * string) :=
  EncodeFuel (List.length (runes in0)) ToUpper in0.

(** [unicode.ToUpper] on ASCII, its first branch:
    [if 'a' <= r && r <= 'z' { r -= 'a' - 'A' }]. *)
Definition asciiToUpper (r : rune) : rune :=
  if (rn "a" <=? r) && (r <=? rn "z") then r - (rn "a" - rn "A") else r.

(** What is used of [unicode.ToUpper]: its value on ASCII. *)
Definition upperOnASCII (ToUpper : rune -> rune) : Prop :=
  forall r, 0 <= r <= 127 -> ToUpper r = asciiToUpper r.

(** [&Encoder{EncodeVowels: ev, EncodeExact: ee, MaxLength: ml}] *)
Definition newEncoder (ev ee : bool) (ml : Z) : Encoder :=
  mkEncoder ev ee ml [] 0 0 [] [] false.

(** ** Judgements and auxiliary definitions

    The properties below are stated with these: what a method may
    do to the encoder, the passes of the loop, the state [Encode]
    starts from and ends in, and the buffers as pure functions. *)

(** [testEncoder], the encoder they run the matchers on. *)
Definition testEncoder (w : string) (curIdx : Z) : Encoder :=
  mkEncoder false false 0 (runes w) curIdx 0 [] [] false.

(** The value a call returns, if it returns. *)
Definition value {A} (r : result (A * Encoder)) : option A :=
  match r with
  | Ok (a, _) => Some a
  | _ => None
  end.

(** [wf e]: the encoder as the loop of [Encode] keeps it: the cursor is
    not negative, the input is not empty and [lastIdx] is its last index. *)
Definition wf (e : Encoder) : Prop :=
  0 <= e.(idx) /\ e.(in_) <> [] /\ e.(lastIdx) = lenIn e - 1.

(** [ext s s']: what a rule may do to the encoder: the cursor does not
    move back, the input and the configuration stay. *)
Definition ext (s s' : Encoder) : Prop :=
  s.(idx) <= s'.(idx) /\ s'.(in_) = s.(in_) /\ s'.(lastIdx) = s.(lastIdx) /\
  s'.(EncodeVowels) = s.(EncodeVowels) /\ s'.(EncodeExact) = s.(EncodeExact) /\
  s'.(MaxLength) = s.(MaxLength).

(** [runs m s]: from [s] the method returns, in a state that extends [s]. *)
Definition runs {A} (m : M A) (s : Encoder) : Prop :=
  exists a s', m s = Ok (a, s') /\ ext s s'.

(** [good m]: [m] returns from every well-formed state. *)
Definition good {A} (m : M A) : Prop := forall s, wf s -> runs m s.

(** [goodB m]: as [good m], for a cursor that has not passed the end
    of the input. *)
Definition goodB {A} (m : M A) : Prop :=
  forall s, wf s -> s.(idx) <= lenIn s -> runs m s.

(** A result that is a value. *)
Definition okR {A} (r : result A) : Prop := exists a, r = Ok a.

(** [reads m s]: at [s], [m] returns and leaves [s] as it is. *)
Definition reads {A} (m : M A) (s : Encoder) : Prop := exists a, m s = Ok (a, s).

(** [rd m]: [m] only reads, at every well-formed state. *)
Definition rd {A} (m : M A) : Prop := forall s, wf s -> reads m s.

(** [keepsIdx m]: [m] leaves the cursor where it was. *)
Definition keepsIdx {A} (m : M A) : Prop :=
  forall s a s', wf s -> m s = Ok (a, s') -> s'.(idx) = s.(idx).

(** [keeps m]: when [m] answers false the cursor is where it was. *)
Definition keeps (m : M bool) : Prop :=
  forall s s', wf s -> m s = Ok (false, s') -> s'.(idx) = s.(idx).

(** [yes m]: [m] answers true whenever it returns. *)
Definition yes (m : M bool) : Prop := forall s a s', m s = Ok (a, s') -> a = true.

(** A candidate list none of whose members has the rune [x] at
    position [k]. *)
Definition differAt (k : nat) (x : rune) (vals : list string) : bool :=
  forallb (fun v => match nth_error (runes v) k with
                    | Some c => negb (c =? x)
                    | None => false
                    end) vals.

(** A [false] answer leaves the cursor where it was, for a cursor that
    is not past the end. *)
Definition keepsB (m : M bool) : Prop :=
  forall s s', wf s -> s.(idx) <= lenIn s -> m s = Ok (false, s') -> s'.(idx) = s.(idx).

(** [stepB m]: [goodB m], and a false answer leaves the cursor. *)
Definition stepB (m : M bool) : Prop := goodB m /\ keepsB m.

(** The passes of the loop, counted: [scanPasses n s s'] when the loop
    entered in state [s] makes [n] passes and leaves in state [s']. *)
Inductive scanPasses : nat -> Encoder -> Encoder -> Prop :=
| scanPasses_end s :
    lenIn s <= s.(idx) \/ buffersFull s = true -> scanPasses 0 s s
| scanPasses_pass n s s1 s2 :
    s.(idx) < lenIn s -> buffersFull s = false ->
    scanStep s = Ok (tt, s1) -> scanPasses n s1 s2 ->
    scanPasses (S n) s s2.

(** The [MaxLength] in force during a call. *)
Definition effectiveMaxLength (e : Encoder) : Z :=
  if e.(MaxLength) <=? 0 then DefaultMaxLength else e.(MaxLength).

(** The encoder when the loop is entered. *)
Definition startState (ToUpper : rune -> rune) (in0 : string) (e : Encoder) : Encoder :=
  mkEncoder e.(EncodeVowels) e.(EncodeExact) (effectiveMaxLength e)
            (map ToUpper (runes in0)) 0 (llen (map ToUpper (runes in0)) - 1)
            [] [] false.

(** [buf[:m]] when [buf] is longer than [m]. *)
Definition trim (m : Z) (buf : list rune) : list rune :=
  if llen buf >? m then firstn (Z.to_nat m) buf else buf.

(** The state and the strings at the end of [Encode], from the state
    [s] at the end of the loop. *)
Definition finalState (s : Encoder) : Encoder :=
  set_secondBuf (trim s.(MaxLength) s.(secondBuf))
    (set_primBuf (trim s.(MaxLength) s.(primBuf)) s).

(** The call returns the value [a]. *)
Definition returns {A} (r : result (A * Encoder)) (a : A) : Prop :=
  exists e', r = Ok (a, e').



(** No two consecutive 'A' in a buffer. *)
Fixpoint noAA (buf : list rune) : bool :=
  match buf with
  | a :: (b :: _) as t => negb ((a =? rn "A") && (b =? rn "A")) && noAA t
  | _ => true
  end.

(** The last rune of a buffer is 'A'. *)
Definition endsInA (buf : list rune) : bool :=
  match rev buf with
  | x :: _ => x =? rn "A"
  | [] => false
  end.

(** What [metaphAddAlt] does to one buffer. *)
Definition appendRune (c : rune) (buf : list rune) : list rune :=
  if c =? ReplacementChar then buf
  else if (c =? rn "A") && endsInA buf then buf
  else buf ++ [c].

(** What [metaphAddStr] does to the primary buffer. *)
Definition appendPrim (v : string) (buf : list rune) : list rune :=
  if String.eqb v "A" && endsInA buf then buf else buf ++ runes v.

(** What [metaphAddStr] does to the secondary buffer. *)
Definition appendSecond (v : string) (buf : list rune) : list rune :=
  if String.eqb v "" then buf
  else if String.eqb v "A" && endsInA buf then buf
  else buf ++ runes v.

(** [m] answers in state [e] without changing it, and answers [true]
    only if [inside] holds. *)
Definition safeAt (m : M bool) (e : Encoder) (inside : Prop) : Prop :=
  exists b, m e = Ok (b, e) /\ (b = true -> inside).

(** The encoder at the U of "PLAQUE". *)
Definition atPLAQUE : Encoder :=
  mkEncoder false false 8 (runes "PLAQUE") 4 5 [] [] false.

(** * Properties *)

(** ** The tests of metaphone3_utils_test.go *)

Example TestStringAt_Basic :
  value (stringAt 1 ["B"; "E"] (testEncoder "TESTING" 0)) = Some true.
Proof. reflexivity. Qed.

Example TestStringAt_Calver :
  value (stringAt (-2) ["POLKA"; "PALKO"; "HALVA"; "HALVO"; "SALVER"; "CALVER"]
           (testEncoder "CALVER" 2)) = Some true.
Proof. reflexivity. Qed.

Example TestStringStart_Basic :
  value (stringStart ["B"; "E"; "TEST"] (testEncoder "TESTING" 1)) = Some true.
Proof. reflexivity. Qed.

Example TestStringAtEnd_Basic :
  value (stringAtEnd 2 ["B"; "E"; "TING"] (testEncoder "TESTING" 1)) = Some true
  /\ value (stringAtEnd 1 ["OSE"] (testEncoder "JOSE" 0)) = Some true.
Proof. split; reflexivity. Qed.

(** On the code, the two words of the [rootOrInflections] tests are
    not recognised: after [inWord = inWord[last:]] the slice still
    holds the last letter of the root, so the "ING", "INGLY" and "Y"
    endings never match.  The root itself and its "S" and "ED" forms
    are recognised. *)
Example rootOrInflections_values :
  rootOrInflections (runes "CHRISTENING") "CHRISTEN" = Ok false
  /\ rootOrInflections (runes "ACHY") "ACHE" = Ok false
  /\ rootOrInflections (runes "ACHE") "ACHE" = Ok true
  /\ rootOrInflections (runes "ACHES") "ACHE" = Ok true
  /\ rootOrInflections (runes "ACHED") "ACHE" = Ok true.
Proof. repeat split; reflexivity. Qed.

(** ** Arithmetic on the boolean comparisons *)

Ltac zbool :=
  repeat rewrite Z.gtb_ltb in *;
  repeat rewrite Z.geb_leb in *;
  repeat match goal with
  | H : context [Z.ltb ?a ?b] |- _ => destruct (Z.ltb_spec a b)
  | H : context [Z.leb ?a ?b] |- _ => destruct (Z.leb_spec a b)
  | H : context [Z.eqb ?a ?b] |- _ => destruct (Z.eqb_spec a b)
  | |- context [Z.ltb ?a ?b] => destruct (Z.ltb_spec a b)
  | |- context [Z.leb ?a ?b] => destruct (Z.leb_spec a b)
  | |- context [Z.eqb ?a ?b] => destruct (Z.eqb_spec a b)
  end.

Lemma llen_nonneg {A} (l : list A) : 0 <= llen l.
Proof. unfold llen. lia. Qed.

Lemma llen_app {A} (l1 l2 : list A) : llen (l1 ++ l2) = llen l1 + llen l2.
Proof. unfold llen. rewrite length_app. lia. Qed.

Lemma llen_nil_iff {A} (l : list A) : llen l = 0 <-> l = [].
Proof.
  unfold llen. destruct l; simpl; split; intro H; try reflexivity; try discriminate; lia.
Qed.

(** ** Slice indexing *)

Lemma index_ok {A} (l : list A) (i : Z) :
  0 <= i < llen l -> exists x, index l i = Ok x.
Proof.
  intros [H0 H1]. unfold index.
  destruct (Z.ltb_spec i 0); [lia|].
  destruct (nth_error l (Z.to_nat i)) eqn:E; [eauto|].
  apply nth_error_None in E. unfold llen in H1. lia.
Qed.

Lemma index_inv {A} (l : list A) (i : Z) (x : A) :
  index l i = Ok x -> 0 <= i < llen l /\ nth_error l (Z.to_nat i) = Some x.
Proof.
  unfold index. destruct (Z.ltb_spec i 0); [discriminate|].
  destruct (nth_error l (Z.to_nat i)) eqn:E; [|discriminate].
  intro H1; inversion H1; subst.
  assert (Hn : (Z.to_nat i < List.length l)%nat)
    by (apply nth_error_Some; rewrite E; discriminate).
  unfold llen. split; [lia|reflexivity].
Qed.

Lemma index_panics {A} (l : list A) (i : Z) :
  ~ (0 <= i < llen l) -> exists msg, index l i = Panic msg.
Proof.
  intro H. unfold index. destruct (Z.ltb_spec i 0); [eauto|].
  destruct (nth_error l (Z.to_nat i)) eqn:E; [|eauto].
  exfalso. apply H.
  assert (Hn : (Z.to_nat i < List.length l)%nat)
    by (apply nth_error_Some; rewrite E; discriminate).
  unfold llen. lia.
Qed.

(** ** Go strings: a [range] loop yields at most one rune per byte *)

Lemma decodeRune_width (bs : list Z) : (1 <= snd (decodeRune bs))%nat.
Proof.
  unfold decodeRune.
  repeat match goal with
  | |- context [match ?x with _ => _ end] => destruct x; simpl; try lia
  end.
Qed.

Lemma runesOfBytes_length (fuel : nat) (bs : list Z) :
  (List.length (runesOfBytes fuel bs) <= List.length bs)%nat.
Proof.
  revert bs. induction fuel as [|fuel IH]; intro bs; [simpl; lia|].
  destruct bs as [|b bs']; [simpl; lia|].
  pose proof (decodeRune_width (b :: bs')) as Hw.
  cbn [runesOfBytes].
  destruct (decodeRune (b :: bs')) as [r w]. simpl in Hw.
  specialize (IH (skipn w (b :: bs'))).
  rewrite length_skipn in IH. cbn [List.length] in *. lia.
Qed.

Lemma bytes_length (s : string) : List.length (bytes s) = String.length s.
Proof. induction s; simpl; congruence. Qed.

Lemma runes_le_len (v : string) : llen (runes v) <= len v.
Proof.
  unfold llen, len, runes. rewrite <- (bytes_length v).
  pose proof (runesOfBytes_length (List.length (bytes v)) (bytes v)) as H.
  lia.
Qed.

Lemma len_nonneg (v : string) : 0 <= len v.
Proof. unfold len. lia. Qed.

(** ** The matchers never leave the input *)

Lemma matchRunes_ok (w : list rune) (cs : list rune) :
  forall at_, 0 <= at_ -> at_ + llen cs <= llen w ->
  exists b, matchRunes w at_ cs = Ok b.
Proof.
  induction cs as [|c cs IH]; intros at_ H0 H1; simpl; [eauto|].
  assert (Hc : llen (c :: cs) = 1 + llen cs) by (unfold llen; cbn [List.length]; lia).
  pose proof (llen_nonneg cs).
  destruct (index_ok w at_) as [x Hx]; [lia|]. rewrite Hx. simpl.
  destruct (negb (c =? x)); [eauto|].
  apply IH; lia.
Qed.

Lemma stringAtVals_ok (w : list rune) (start : Z) (vals : list string) :
  0 <= start -> exists b, stringAtVals w start vals = Ok b.
Proof.
  intro H0. induction vals as [|v vals IH]; simpl; [eauto|].
  rewrite Z.gtb_ltb. destruct (Z.ltb_spec (llen w) (start + len v)); [eauto|].
  destruct (matchRunes_ok w (runes v) start H0) as [b Hb].
  { pose proof (runes_le_len v). lia. }
  rewrite Hb. simpl. destruct b; eauto.
Qed.

Lemma stringAtEndVals_ok (w : list rune) (start : Z) (vals : list string) :
  0 <= start -> exists b, stringAtEndVals w start vals = Ok b.
Proof.
  intro H0. induction vals as [|v vals IH]; simpl; [eauto|].
  rewrite Z.gtb_ltb. destruct (Z.ltb_spec (llen w) (start + len v)); [eauto|].
  destruct (Z.ltb_spec (start + len v) (llen w)); [exact IH|].
  destruct (matchRunes_ok w (runes v) start H0) as [b Hb].
  { pose proof (runes_le_len v). lia. }
  rewrite Hb. simpl. destruct b; eauto.
Qed.

Lemma startOutside_ok (w : list rune) (start : Z) (vals : list string) :
  vals <> [] ->
  exists b, startOutside w start vals = Ok b /\ (b = false -> 0 <= start).
Proof.
  intro Hv. unfold startOutside.
  destruct (Z.ltb_spec start 0); simpl.
  { exists true. split; [reflexivity|discriminate]. }
  rewrite Z.geb_leb. destruct (Z.leb_spec (llen w) start); simpl.
  { exists true. split; [reflexivity|discriminate]. }
  destruct vals as [|v0 vals]; [congruence|].
  unfold index. simpl. eexists. split; [reflexivity|]. intros _. assumption.
Qed.

Lemma stringAt_ok (offset : Z) (vals : list string) (e : Encoder) :
  vals <> [] -> exists b, stringAt offset vals e = Ok (b, e).
Proof.
  intro Hv. unfold stringAt.
  destruct (startOutside_ok e.(in_) (e.(idx) + offset) vals Hv) as [out [Ho Hs]].
  rewrite Ho. simpl. destruct out; simpl; [eauto|].
  destruct (stringAtVals_ok e.(in_) _ vals (Hs eq_refl)) as [b Hb].
  rewrite Hb. simpl. eauto.
Qed.

Lemma stringAtEnd_ok (offset : Z) (vals : list string) (e : Encoder) :
  vals <> [] -> exists b, stringAtEnd offset vals e = Ok (b, e).
Proof.
  intro Hv. unfold stringAtEnd.
  destruct (startOutside_ok e.(in_) (e.(idx) + offset) vals Hv) as [out [Ho Hs]].
  rewrite Ho. simpl. destruct out; simpl; [eauto|].
  destruct (stringAtEndVals_ok e.(in_) _ vals (Hs eq_refl)) as [b Hb].
  rewrite Hb. simpl. eauto.
Qed.

Lemma stringAtStart_ok (offset : Z) (vals : list string) (e : Encoder) :
  vals <> [] -> exists b, stringAtStart offset vals e = Ok (b, e).
Proof.
  intro Hv. unfold stringAtStart.
  destruct (negb (offset =? - idx e)); [eauto|].
  apply stringAt_ok; assumption.
Qed.

Lemma stringStart_ok (vals : list string) (e : Encoder) :
  vals <> [] -> exists b, stringStart vals e = Ok (b, e).
Proof. intro Hv. unfold stringStart, withE. apply stringAt_ok; assumption. Qed.

Lemma stringEnd_ok (vals : list string) (e : Encoder) :
  exists b, stringEnd vals e = Ok (b, e).
Proof.
  unfold stringEnd.
  assert (H : exists b, stringEndVals e.(in_) vals = Ok b).
  { induction vals as [|v vals IH]; simpl; [eauto|].
    destruct (Z.ltb_spec (llen (in_ e) - len v) 0); [eauto|].
    destruct (matchRunes_ok (in_ e) (runes v) (llen (in_ e) - len v)) as [b Hb];
      [lia| pose proof (runes_le_len v); lia |].
    rewrite Hb. simpl. destruct b; eauto. }
  destruct H as [b Hb]. rewrite Hb. simpl. eauto.
Qed.

Lemma stringExact_ok (vals : list string) (e : Encoder) :
  exists b, stringExact vals e = Ok (b, e).
Proof.
  unfold stringExact.
  assert (H : exists b, stringExactVals e.(in_) vals = Ok b).
  { induction vals as [|v vals IH]; simpl; [eauto|].
    rewrite Z.gtb_ltb.
    destruct (Z.ltb_spec (llen (in_ e)) (len v)); [eauto|].
    destruct (Z.ltb_spec (len v) (llen (in_ e))); [exact IH|].
    destruct (matchRunes_ok (in_ e) (runes v) 0) as [b Hb];
      [lia| pose proof (runes_le_len v); lia |].
    rewrite Hb. simpl. destruct b; eauto. }
  destruct H as [b Hb]. rewrite Hb. simpl. eauto.
Qed.

Lemma containsRun_ok (w : list rune) (cs : list rune) :
  forall tmp, 0 <= tmp -> tmp + llen cs <= llen w ->
  exists t, containsRun w tmp cs = Ok t.
Proof.
  induction cs as [|c cs IH]; intros tmp H0 H1; simpl; [eauto|].
  assert (Hc : llen (c :: cs) = 1 + llen cs) by (unfold llen; cbn [List.length]; lia).
  pose proof (llen_nonneg cs).
  destruct (index_ok w tmp) as [x Hx]; [lia|]. rewrite Hx. simpl.
  destruct (negb (x =? c)); [eauto|].
  apply IH; lia.
Qed.

Lemma containsFrom_ok (w : list rune) (val : string) (n : nat) :
  forall i, 0 <= i -> i + Z.of_nat n + len val <= llen w + 1 ->
  exists b, containsFrom w val i n = Ok b.
Proof.
  induction n as [|n IH]; intros i H0 H1; simpl; [eauto|].
  destruct (containsRun_ok w (runes val) i H0) as [t Ht].
  { pose proof (runes_le_len val). lia. }
  rewrite Ht. simpl. destruct (t - i =? len val); [eauto|].
  apply IH; lia.
Qed.

Lemma stringContains_ok (val : string) (e : Encoder) :
  exists b, stringContains val e = Ok (b, e).
Proof.
  unfold stringContains.
  destruct (Z.ltb_spec (lenIn e - len val) 0); [eauto|].
  destruct (containsFrom_ok e.(in_) val (Z.to_nat (lenIn e - len val + 1)) 0) as [b Hb];
    [lia | unfold lenIn in *; lia |].
  rewrite Hb. simpl. eauto.
Qed.

Lemma inAt_ok (i : Z) (e : Encoder) :
  0 <= i < lenIn e -> exists c, inAt i e = Ok (c, e).
Proof.
  intro H. unfold inAt. destruct (index_ok e.(in_) i H) as [x Hx].
  rewrite Hx. simpl. eauto.
Qed.

Lemma isVowelAt_ok (offset : Z) (e : Encoder) :
  exists b, isVowelAt offset e = Ok (b, e).
Proof.
  unfold isVowelAt.
  destruct (Z.ltb_spec (idx e + offset) 0); simpl; [eauto|].
  rewrite Z.geb_leb. destruct (Z.leb_spec (lenIn e) (idx e + offset)); [eauto|].
  unfold bind. destruct (inAt_ok (idx e + offset) e) as [c Hc]; [lia|].
  rewrite Hc. unfold ret. eauto.
Qed.

Lemma charAt_ok (offset : Z) (c : rune) (e : Encoder) :
  0 <= idx e + offset -> exists b, charAt offset c e = Ok (b, e).
Proof.
  intro H. unfold charAt.
  rewrite Z.geb_leb. destruct (Z.leb_spec (lenIn e) (idx e + offset)); [eauto|].
  unfold bind. destruct (inAt_ok (idx e + offset) e) as [x Hx]; [lia|].
  rewrite Hx. unfold ret. eauto.
Qed.

(** ** The conversion of a rune slice to a string *)







Lemma stringOfRunes_nil : stringOfRunes [] = "".
Proof. reflexivity. Qed.

(** ** Judgements on encoder methods

    [wf e]: the state of the encoder inside the loop of [Encode], as
    far as the rules rely on it.  [ext s s']: what a rule may do to
    the state -- move the cursor forward and write the buffers and the
    flag.  [good m]: from every well-formed state [m] returns
    normally, and extends the state. *)

Lemma ext_refl (s : Encoder) : ext s s.
Proof. unfold ext. repeat split; lia. Qed.

Lemma ext_trans (s1 s2 s3 : Encoder) : ext s1 s2 -> ext s2 s3 -> ext s1 s3.
Proof. unfold ext. intuition (try congruence; try lia). Qed.

Lemma wf_ext (s s' : Encoder) : wf s -> ext s s' -> wf s'.
Proof.
  unfold wf, ext, lenIn. intros (H0 & H1 & H2) (E0 & E1 & E2 & _).
  rewrite E1, E2. repeat split; [lia|assumption|assumption].
Qed.

Lemma lenIn_ext (s s' : Encoder) : ext s s' -> lenIn s' = lenIn s.
Proof. unfold ext, lenIn. intros (_ & E & _). rewrite E. reflexivity. Qed.

Lemma runs_ro_intro {A} (m : M A) (s : Encoder) (a : A) : m s = Ok (a, s) -> runs m s.
Proof. intro H. exists a, s. split; [assumption|apply ext_refl]. Qed.

(** *** Rules for [good] *)

Lemma good_ret {A} (a : A) : good (ret a).
Proof. intros s _. eapply runs_ro_intro. reflexivity. Qed.

Lemma good_get {A} (f : Encoder -> A) : good (get f).
Proof. intros s _. eapply runs_ro_intro. reflexivity. Qed.

Lemma good_test (f : Encoder -> bool) : good (test f).
Proof. apply good_get. Qed.

Lemma runs_bind {A B} (m : M A) (k : A -> M B) (s : Encoder) :
  runs m s ->
  (forall a s', m s = Ok (a, s') -> ext s s' -> runs (k a) s') ->
  runs (bind m k) s.
Proof.
  intros (a & s1 & Hm & E1) Hk.
  destruct (Hk a s1 Hm E1) as (b & s2 & Hb & E2).
  exists b, s2. unfold bind. rewrite Hm. split; [assumption|].
  eapply ext_trans; eassumption.
Qed.

Lemma good_bind {A B} (m : M A) (k : A -> M B) :
  good m -> (forall a, good (k a)) -> good (bind m k).
Proof.
  intros Hm Hk s W. apply runs_bind; [apply Hm; assumption|].
  intros a s' _ E. apply Hk. eapply wf_ext; eassumption.
Qed.

Lemma good_ifM {A} (c : M bool) (t f : M A) :
  good c -> good t -> good f -> good (ifM c t f).
Proof.
  intros Hc Ht Hf. unfold ifM. apply good_bind; [assumption|].
  intros []; assumption.
Qed.

Lemma good_whenM (c : M bool) (t : M unit) : good c -> good t -> good (whenM c t).
Proof. intros Hc Ht. apply good_ifM; [assumption|assumption|apply good_ret]. Qed.

Lemma good_andM (a b : M bool) : good a -> good b -> good (a &&& b).
Proof.
  intros Ha Hb. unfold andM. apply good_bind; [assumption|].
  intros []; [assumption|apply good_ret].
Qed.

Lemma good_orM (a b : M bool) : good a -> good b -> good (a ||| b).
Proof.
  intros Ha Hb. unfold orM. apply good_bind; [assumption|].
  intros []; [apply good_ret|assumption].
Qed.

Lemma good_notM (a : M bool) : good a -> good (notM a).
Proof. intro Ha. unfold notM. apply good_bind; [assumption|]. intro. apply good_ret. Qed.

Lemma good_withE {A} (f : Encoder -> M A) : (forall e, good (f e)) -> good (withE f).
Proof. intros H s W. unfold withE. apply (H s s W). Qed.

Lemma good_of_ok {A} (m : M A) :
  (forall e, exists a, m e = Ok (a, e)) -> good m.
Proof. intros H s _. destruct (H s) as [a Ha]. eapply runs_ro_intro; eassumption. Qed.

Lemma good_stringAt offset vals : vals <> [] -> good (stringAt offset vals).
Proof. intro H. apply good_of_ok. intro. apply stringAt_ok; assumption. Qed.

Lemma good_stringAtEnd offset vals : vals <> [] -> good (stringAtEnd offset vals).
Proof. intro H. apply good_of_ok. intro. apply stringAtEnd_ok; assumption. Qed.

Lemma good_stringAtStart offset vals : vals <> [] -> good (stringAtStart offset vals).
Proof. intro H. apply good_of_ok. intro. apply stringAtStart_ok; assumption. Qed.

Lemma good_stringStart vals : vals <> [] -> good (stringStart vals).
Proof. intro H. apply good_of_ok. intro. apply stringStart_ok; assumption. Qed.

Lemma good_stringEnd vals : good (stringEnd vals).
Proof. apply good_of_ok. intro. apply stringEnd_ok. Qed.

Lemma good_stringExact vals : good (stringExact vals).
Proof. apply good_of_ok. intro. apply stringExact_ok. Qed.

Lemma good_stringContains val : good (stringContains val).
Proof. apply good_of_ok. intro. apply stringContains_ok. Qed.

Lemma good_isVowelAt offset : good (isVowelAt offset).
Proof. apply good_of_ok. intro. apply isVowelAt_ok. Qed.

Lemma good_charAt offset c : 0 <= offset -> good (charAt offset c).
Proof.
  intros H s (W & _). destruct (charAt_ok offset c s) as [b Hb]; [lia|].
  eapply runs_ro_intro; eassumption.
Qed.

Lemma good_charNextIs c : good (charNextIs c).
Proof. apply good_charAt. lia. Qed.

Lemma good_inAt0 : good (inAt 0).
Proof.
  intros s (_ & W & _). destruct (inAt_ok 0 s) as [c Hc].
  { unfold lenIn, llen. destruct (in_ s); [congruence|]. cbn [List.length]. lia. }
  eapply runs_ro_intro; eassumption.
Qed.

(** A cursor test that guards the look at the rune before the cursor:
    [e.idx > 0 && e.charAt(-1, c)]. *)
Lemma good_guarded_charAt c :
  good (test (fun e => (e.(idx) >? 0)) &&& charAt (-1) c).
Proof.
  intros s W.
  destruct (Z.ltb_spec 0 (idx s)) as [H|H].
  - destruct (charAt_ok (-1) c s) as [b Hb]; [lia|].
    apply runs_ro_intro with (a := b). unfold andM, bind, test, get.
    rewrite Z.gtb_ltb. apply Z.ltb_lt in H. rewrite H. assumption.
  - apply runs_ro_intro with (a := false). unfold andM, bind, test, get.
    rewrite Z.gtb_ltb. apply Z.ltb_ge in H. rewrite H. reflexivity.
Qed.

Lemma modify_runs (f : Encoder -> Encoder) (s : Encoder) :
  ext s (f s) -> runs (modify f) s.
Proof. intro H. exists tt, (f s). split; [reflexivity|assumption]. Qed.

Lemma good_addIdx n : 0 <= n -> good (addIdx n).
Proof.
  intros H s _. apply modify_runs. unfold ext; simpl. repeat split; lia.
Qed.

Lemma good_incIdx : good incIdx.
Proof. apply good_addIdx. lia. Qed.

Lemma good_setFlagAlInversion b : good (setFlagAlInversion b).
Proof. intros s _. apply modify_runs. unfold ext; simpl. repeat split; lia. Qed.

Lemma good_set_primBuf (f : Encoder -> list rune) :
  good (modify (fun e => set_primBuf (f e) e)).
Proof. intros s _. apply modify_runs. unfold ext; simpl. repeat split; lia. Qed.

Lemma good_set_secondBuf (f : Encoder -> list rune) :
  good (modify (fun e => set_secondBuf (f e) e)).
Proof. intros s _. apply modify_runs. unfold ext; simpl. repeat split; lia. Qed.

Lemma lastIsA_ok (buf : list rune) : exists b, lastIsA buf = Ok b.
Proof.
  unfold lastIsA, andR, isAt, bindR. rewrite Z.gtb_ltb.
  destruct (Z.ltb_spec 0 (llen buf)); [|eauto].
  destruct (index_ok buf (llen buf - 1)) as [x Hx]; [lia|].
  rewrite Hx. eauto.
Qed.

Lemma good_lastIsA (f : Encoder -> list rune) :
  good (withE (fun e => liftR (lastIsA (f e)))).
Proof.
  apply good_of_ok. intro e. unfold withE, liftR.
  destruct (lastIsA_ok (f e)) as [b Hb]. rewrite Hb. eauto.
Qed.

Lemma good_metaphAddAlt prim second : good (metaphAddAlt prim second).
Proof.
  unfold metaphAddAlt.
  apply good_bind; [|intro];
    (apply good_whenM; [apply good_test|];
     apply good_whenM;
     [ apply good_notM, good_andM; [apply good_test|apply good_lastIsA]
     | first [apply good_set_primBuf | apply good_set_secondBuf] ]).
Qed.

Lemma good_metaphAdd c : good (metaphAdd c).
Proof. apply good_metaphAddAlt. Qed.

Lemma good_metaphAddStr prim second : good (metaphAddStr prim second).
Proof.
  unfold metaphAddStr. apply good_bind; [|intro].
  - apply good_whenM; [|apply good_set_primBuf].
    apply good_notM, good_andM; [apply good_test|apply good_lastIsA].
  - apply good_whenM; [|apply good_set_secondBuf].
    apply good_andM; [apply good_test|].
    apply good_notM, good_andM; [apply good_test|apply good_lastIsA].
Qed.

Lemma good_metaphAddExactApproxAlt a b c d : good (metaphAddExactApproxAlt a b c d).
Proof. apply good_ifM; [apply good_test| |]; apply good_metaphAddStr. Qed.

Lemma good_metaphAddExactApprox a b : good (metaphAddExactApprox a b).
Proof. apply good_ifM; [apply good_test| |]; apply good_metaphAddStr. Qed.

Lemma good_advanceCounter a b : 0 <= a -> 0 <= b -> good (advanceCounter a b).
Proof.
  intros Ha Hb. apply good_ifM; [apply good_test| |]; apply good_addIdx; assumption.
Qed.

(** *** [rootOrInflections] returns for every word and non-empty root *)

Lemma areEqualFrom_ok (buf1 buf2 : list rune) (n : nat) :
  forall i, 0 <= i -> i + Z.of_nat n <= llen buf1 -> i + Z.of_nat n <= llen buf2 ->
  exists b, areEqualFrom buf1 buf2 i n = Ok b.
Proof.
  induction n as [|n IH]; intros i H0 H1 H2; simpl; [eauto|].
  destruct (index_ok buf1 i) as [a Ha]; [lia|].
  destruct (index_ok buf2 i) as [b Hb]; [lia|].
  rewrite Ha, Hb. simpl. destruct (negb (a =? b)); [eauto|].
  apply IH; lia.
Qed.

Lemma areEqual_ok (buf1 buf2 : list rune) : exists b, areEqual buf1 buf2 = Ok b.
Proof.
  unfold areEqual. destruct (Z.eqb_spec (llen buf1) (llen buf2)); simpl; [|eauto].
  apply areEqualFrom_ok; unfold llen in *; lia.
Qed.

Lemma rootPrefix_ok (inWord : list rune) (root : list Z) (n : nat) :
  forall i, 0 <= i -> i + Z.of_nat n <= llen inWord -> i + Z.of_nat n <= llen root ->
  exists b, rootPrefix inWord root i n = Ok b.
Proof.
  induction n as [|n IH]; intros i H0 H1 H2; simpl; [eauto|].
  destruct (index_ok inWord i) as [a Ha]; [lia|].
  destruct (index_ok root i) as [b Hb]; [lia|].
  rewrite Ha, Hb. simpl. destruct (negb (a =? b)); [eauto|].
  apply IH; lia.
Qed.

Lemma okR_Ok {A} (a : A) : okR (Ok a).
Proof. exists a. reflexivity. Qed.

Lemma okR_bindR {A B} (m : result A) (k : A -> result B) :
  okR m -> (forall a, m = Ok a -> okR (k a)) -> okR (bindR m k).
Proof. intros [a Ha] Hk. rewrite Ha. simpl. apply Hk. exact Ha. Qed.

Lemma okR_andR (a b : result bool) : okR a -> (a = Ok true -> okR b) -> okR (andR a b).
Proof.
  intros Ha Hb. unfold andR. apply okR_bindR; [assumption|].
  intros [] E; [apply Hb; assumption|apply okR_Ok].
Qed.

Lemma okR_orR (a b : result bool) : okR a -> (a = Ok false -> okR b) -> okR (orR a b).
Proof.
  intros Ha Hb. unfold orR. apply okR_bindR; [assumption|].
  intros [] E; [apply okR_Ok|apply Hb; assumption].
Qed.

Lemma andR_true (a b : result bool) : andR a b = Ok true -> a = Ok true /\ b = Ok true.
Proof.
  unfold andR. destruct a as [[]| |]; simpl; intro H; try discriminate.
  split; [reflexivity|assumption].
Qed.

Lemma isAt_ok (l : list rune) (i : Z) (c : rune) : 0 <= i < llen l -> okR (isAt l i c).
Proof.
  intro H. unfold isAt. apply okR_bindR; [apply index_ok; assumption|].
  intros. apply okR_Ok.
Qed.

Lemma areEqual_okR (buf1 buf2 : list rune) : okR (areEqual buf1 buf2).
Proof. apply areEqual_ok. Qed.

Ltac okr_facts :=
  repeat match goal with
  | H : andR _ _ = Ok true |- _ => apply andR_true in H; destruct H
  | H : Ok (_ =? _) = Ok true |- _ => injection H as H; apply Z.eqb_eq in H
  end.

Ltac okr_step :=
  first
  [ apply okR_Ok
  | apply areEqual_okR
  | apply isAt_ok; okr_facts; lia
  | apply okR_andR; [|intro]
  | apply okR_orR; [|intro]
  | apply okR_bindR; [|intros ? ?]
  | match goal with
    | |- okR (if ?c then _ else _) => destruct c eqn:?
    | |- okR (match ?o with Some _ => _ | None => _ end) => destruct o
    end ].

Lemma rootOrInflections_ok (inWord : list rune) (root : string) :
  root <> "" -> exists b, rootOrInflections inWord root = Ok b.
Proof.
  intro Hr. change (okR (rootOrInflections inWord root)).
  assert (Hlen : 1 <= len root).
  { unfold len. destruct root; [congruence|]. cbn [String.length]. lia. }
  assert (Hb : llen (bytes root) = len root).
  { unfold llen, len. rewrite bytes_length. reflexivity. }
  unfold rootOrInflections.
  destruct (Z.ltb_spec (llen inWord - len root) 0) as [|Hd]; [apply okR_Ok|].
  apply okR_bindR; [apply rootPrefix_ok; lia|]. intros same _.
  destruct (negb same); [apply okR_Ok|].
  apply okR_bindR.
  { unfold sliceFrom.
    destruct (Z.ltb_spec (len root - 1) 0); [lia|].
    destruct (Z.ltb_spec (llen inWord) (len root - 1)); [lia|]. apply okR_Ok. }
  intros w Hw.
  assert (Hlw : llen w = llen inWord - len root + 1).
  { unfold sliceFrom in Hw.
    destruct ((len root - 1 <? 0) || (llen inWord <? len root - 1)); [discriminate|].
    injection Hw as Hw. subst w. unfold llen. rewrite length_skipn.
    unfold llen in *. lia. }
  apply okR_bindR; [apply index_ok; lia|]. intros rootLast _.
  repeat okr_step.
Qed.

Lemma good_rootOrInflections root :
  root <> "" -> good (withE (fun e => liftR (rootOrInflections e.(in_) root))).
Proof.
  intro H. apply good_of_ok. intro e. unfold withE, liftR.
  destruct (rootOrInflections_ok e.(in_) root H) as [b Hb]. rewrite Hb. eauto.
Qed.

Lemma good_isSlavoGermanic : good isSlavoGermanic.
Proof.
  unfold isSlavoGermanic.
  repeat apply good_orM;
    [ apply good_stringStart; discriminate
    | apply good_bind; [apply good_inAt0|intro; apply good_ret] .. ].
Qed.

(** ** Reading the state

    [reads m s]: at the state [s], [m] returns and leaves [s] as it
    is.  [rd m]: so at every well-formed state.  The conditions of the
    rules are of this kind. *)

Lemma reads_runs {A} (m : M A) (s : Encoder) : reads m s -> runs m s.
Proof. intros [a Ha]. eapply runs_ro_intro; eassumption. Qed.

Lemma rd_good {A} (m : M A) : rd m -> good m.
Proof. intros H s W. apply reads_runs, H, W. Qed.

Lemma bind_eq {A B} (m : M A) (k : A -> M B) (s : Encoder) {s' : Encoder} {a : A} :
  m s = Ok (a, s') -> bind m k s = k a s'.
Proof. intro H. unfold bind. rewrite H. reflexivity. Qed.

Lemma ifM_eq {A} (c : M bool) (t f : M A) {s s' : Encoder} {b : bool} :
  c s = Ok (b, s') -> ifM c t f s = (if b then t else f) s'.
Proof. intro H. unfold ifM. rewrite (bind_eq _ _ _ H). destruct b; reflexivity. Qed.

Lemma reads_ret {A} (a : A) s : reads (ret a) s.
Proof. exists a. reflexivity. Qed.

Lemma reads_get {A} (f : Encoder -> A) s : reads (get f) s.
Proof. exists (f s). reflexivity. Qed.

Lemma reads_test (f : Encoder -> bool) s : reads (test f) s.
Proof. apply reads_get. Qed.

Lemma reads_bind {A B} (m : M A) (k : A -> M B) s :
  reads m s -> (forall a, m s = Ok (a, s) -> reads (k a) s) -> reads (bind m k) s.
Proof.
  intros [a Ha] Hk. destruct (Hk a Ha) as [b Hb]. exists b.
  rewrite (bind_eq _ _ _ Ha). assumption.
Qed.

Lemma reads_andM (a b : M bool) s :
  reads a s -> (a s = Ok (true, s) -> reads b s) -> reads (a &&& b) s.
Proof.
  intros Ha Hb. apply reads_bind; [assumption|].
  intros [] E; [apply Hb; assumption|apply reads_ret].
Qed.

Lemma reads_orM (a b : M bool) s :
  reads a s -> (a s = Ok (false, s) -> reads b s) -> reads (a ||| b) s.
Proof.
  intros Ha Hb. apply reads_bind; [assumption|].
  intros [] E; [apply reads_ret|apply Hb; assumption].
Qed.

Lemma reads_notM (a : M bool) s : reads a s -> reads (notM a) s.
Proof. intro Ha. apply reads_bind; [assumption|]. intros. apply reads_ret. Qed.

Lemma reads_ifM {A} (c : M bool) (t f : M A) s :
  reads c s -> (c s = Ok (true, s) -> reads t s) -> (c s = Ok (false, s) -> reads f s) ->
  reads (ifM c t f) s.
Proof.
  intros Hc Ht Hf. apply reads_bind; [assumption|].
  intros [] E; [apply Ht|apply Hf]; assumption.
Qed.

Lemma reads_withE {A} (f : Encoder -> M A) s : reads (f s) s -> reads (withE f) s.
Proof. intro H. exact H. Qed.

Lemma reads_liftR {A} (r : result A) s : okR r -> reads (liftR r) s.
Proof. intros [a Ha]. exists a. unfold liftR. rewrite Ha. reflexivity. Qed.

(** What a successful test tells. *)
Lemma test_true (f : Encoder -> bool) s s' : test f s = Ok (true, s') -> f s = true.
Proof. unfold test, get. intro H. injection H as H _. assumption. Qed.

Lemma test_false (f : Encoder -> bool) s s' : test f s = Ok (false, s') -> f s = false.
Proof. unfold test, get. intro H. injection H as H _. assumption. Qed.

Lemma andM_true (a b : M bool) s s' :
  reads a s -> (a &&& b) s = Ok (true, s') -> a s = Ok (true, s) /\ b s = Ok (true, s').
Proof.
  intros [x Hx] H. unfold andM in H. rewrite (bind_eq _ _ _ Hx) in H.
  destruct x; [split; assumption|discriminate].
Qed.

Lemma orM_false (a b : M bool) s s' :
  reads a s -> (a ||| b) s = Ok (false, s') -> a s = Ok (false, s) /\ b s = Ok (false, s').
Proof.
  intros [x Hx] H. unfold orM in H. rewrite (bind_eq _ _ _ Hx) in H.
  destruct x; [discriminate|split; assumption].
Qed.

Lemma notM_true (a : M bool) s s' : notM a s = Ok (true, s') -> a s = Ok (false, s').
Proof.
  unfold notM, bind, ret. destruct (a s) as [[[] s1]| |]; intro H; try discriminate.
  injection H as H. subst. reflexivity.
Qed.

Lemma notM_false (a : M bool) s s' : notM a s = Ok (false, s') -> a s = Ok (true, s').
Proof.
  unfold notM, bind, ret. destruct (a s) as [[[] s1]| |]; intro H; try discriminate.
  injection H as H. subst. reflexivity.
Qed.

(** *** Rules for [rd] *)

Lemma rd_of_ok {A} (m : M A) : (forall e, exists a, m e = Ok (a, e)) -> rd m.
Proof. intros H s _. apply H. Qed.

Lemma rd_ret {A} (a : A) : rd (ret a).
Proof. intros s _. apply reads_ret. Qed.
Lemma rd_get {A} (f : Encoder -> A) : rd (get f).
Proof. intros s _. apply reads_get. Qed.
Lemma rd_test (f : Encoder -> bool) : rd (test f).
Proof. apply rd_get. Qed.
Lemma rd_bind {A B} (m : M A) (k : A -> M B) : rd m -> (forall a, rd (k a)) -> rd (bind m k).
Proof. intros Hm Hk s W. apply reads_bind; [apply Hm, W|]. intros. apply Hk, W. Qed.
Lemma rd_andM (a b : M bool) : rd a -> rd b -> rd (a &&& b).
Proof. intros Ha Hb s W. apply reads_andM; [apply Ha, W|]. intros. apply Hb, W. Qed.
Lemma rd_orM (a b : M bool) : rd a -> rd b -> rd (a ||| b).
Proof. intros Ha Hb s W. apply reads_orM; [apply Ha, W|]. intros. apply Hb, W. Qed.
Lemma rd_notM (a : M bool) : rd a -> rd (notM a).
Proof. intros Ha s W. apply reads_notM, Ha, W. Qed.
Lemma rd_ifM {A} (c : M bool) (t f : M A) : rd c -> rd t -> rd f -> rd (ifM c t f).
Proof.
  intros Hc Ht Hf s W. apply reads_ifM; [apply Hc, W| |]; intros; [apply Ht|apply Hf]; exact W.
Qed.
Lemma rd_withE {A} (f : Encoder -> M A) : (forall e, rd (f e)) -> rd (withE f).
Proof. intros H s W. apply reads_withE, H, W. Qed.

Lemma rd_stringAt offset vals : vals <> [] -> rd (stringAt offset vals).
Proof. intro H. apply rd_of_ok. intro. apply stringAt_ok; assumption. Qed.
Lemma rd_stringAtEnd offset vals : vals <> [] -> rd (stringAtEnd offset vals).
Proof. intro H. apply rd_of_ok. intro. apply stringAtEnd_ok; assumption. Qed.
Lemma rd_stringAtStart offset vals : vals <> [] -> rd (stringAtStart offset vals).
Proof. intro H. apply rd_of_ok. intro. apply stringAtStart_ok; assumption. Qed.
Lemma rd_stringStart vals : vals <> [] -> rd (stringStart vals).
Proof. intro H. apply rd_of_ok. intro. apply stringStart_ok; assumption. Qed.
Lemma rd_stringEnd vals : rd (stringEnd vals).
Proof. apply rd_of_ok. intro. apply stringEnd_ok. Qed.
Lemma rd_stringExact vals : rd (stringExact vals).
Proof. apply rd_of_ok. intro. apply stringExact_ok. Qed.
Lemma rd_stringContains val : rd (stringContains val).
Proof. apply rd_of_ok. intro. apply stringContains_ok. Qed.
Lemma rd_isVowelAt offset : rd (isVowelAt offset).
Proof. apply rd_of_ok. intro. apply isVowelAt_ok. Qed.
Lemma rd_charAt offset c : 0 <= offset -> rd (charAt offset c).
Proof. intros H s (W & _). apply charAt_ok. lia. Qed.
Lemma rd_charNextIs c : rd (charNextIs c).
Proof. apply rd_charAt. lia. Qed.
Lemma rd_rootOrInflections root :
  root <> "" -> rd (withE (fun e => liftR (rootOrInflections e.(in_) root))).
Proof.
  intros H s _. apply reads_withE, reads_liftR, rootOrInflections_ok. assumption.
Qed.
Lemma rd_inAt0 : rd (inAt 0).
Proof.
  intros s (_ & W & _). apply inAt_ok.
  unfold lenIn, llen. destruct (in_ s); [congruence|]. cbn [List.length]. lia.
Qed.
Lemma rd_guarded_charAt c : rd (test (fun e => (e.(idx) >? 0)) &&& charAt (-1) c).
Proof.
  intros s W. apply reads_andM; [apply reads_test|]. intro H.
  apply test_true in H. apply charAt_ok. rewrite Z.gtb_ltb in H. apply Z.ltb_lt in H. lia.
Qed.

(** ** Where the cursor is afterwards

    [keepsIdx m]: [m] does not move the cursor.  [keeps m]: it does not
    when it answers [false].  [yes m]: it only answers [true]. *)

Lemma rd_keepsIdx {A} (m : M A) : rd m -> keepsIdx m.
Proof.
  intros H s a s' W E. destruct (H s W) as [a' Ha]. rewrite Ha in E.
  injection E as _ E. subst. reflexivity.
Qed.

Lemma keepsIdx_keeps (m : M bool) : keepsIdx m -> keeps m.
Proof. intros H s s' W E. eapply H; eassumption. Qed.

Lemma yes_keeps (m : M bool) : yes m -> keeps m.
Proof. intros H s s' W E. apply H in E. discriminate. Qed.

Lemma yes_ret_true : yes (ret true).
Proof. intros s a s' E. injection E as E _. congruence. Qed.

Lemma yes_bind {A} (m : M A) (k : A -> M bool) : (forall a, yes (k a)) -> yes (bind m k).
Proof.
  intros Hk s a s' E. unfold bind in E. destruct (m s) as [[x s1]| |]; try discriminate.
  eapply Hk; eassumption.
Qed.

Lemma yes_ifM (c : M bool) (t f : M bool) : yes t -> yes f -> yes (ifM c t f).
Proof. intros Ht Hf. apply yes_bind. intros []; assumption. Qed.

Lemma bind_inv {A B} (m : M A) (k : A -> M B) s b s' :
  bind m k s = Ok (b, s') -> exists a s1, m s = Ok (a, s1) /\ k a s1 = Ok (b, s').
Proof.
  unfold bind. destruct (m s) as [[a s1]| |]; intro H; try discriminate. eauto.
Qed.

Lemma keepsIdx_bind {A B} (m : M A) (k : A -> M B) :
  good m -> keepsIdx m -> (forall a, keepsIdx (k a)) -> keepsIdx (bind m k).
Proof.
  intros Gm Hm Hk s b s' W E. apply bind_inv in E. destruct E as (a & s1 & E1 & E2).
  destruct (Gm s W) as (a' & s1' & E1' & X). rewrite E1 in E1'. injection E1' as Ea Es. subst a' s1'.
  rewrite (Hk a s1 b s' (wf_ext _ _ W X) E2). eapply Hm; eassumption.
Qed.

Lemma keepsIdx_ifM {A} (c : M bool) (t f : M A) :
  good c -> keepsIdx c -> keepsIdx t -> keepsIdx f -> keepsIdx (ifM c t f).
Proof. intros Gc Hc Ht Hf. apply keepsIdx_bind; [assumption|assumption|]. intros []; assumption. Qed.

Lemma keepsIdx_whenM (c : M bool) (t : M unit) :
  good c -> keepsIdx c -> keepsIdx t -> keepsIdx (whenM c t).
Proof.
  intros Gc Hc Ht. apply keepsIdx_ifM; try assumption. apply rd_keepsIdx, rd_ret.
Qed.

Lemma keepsIdx_modify (f : Encoder -> Encoder) :
  (forall e, idx (f e) = idx e) -> keepsIdx (modify f).
Proof. intros H s a s' _ E. injection E as _ E. subst. apply H. Qed.

Lemma rd_lastIsA (f : Encoder -> list rune) : rd (withE (fun e => liftR (lastIsA (f e)))).
Proof. intros s _. apply reads_withE, reads_liftR, lastIsA_ok. Qed.

Lemma keepsIdx_metaphAddAlt prim second : keepsIdx (metaphAddAlt prim second).
Proof.
  unfold metaphAddAlt.
  apply keepsIdx_bind; [|idtac|intro];
    [ apply good_whenM; [apply good_test|]; apply good_whenM;
      [ apply good_notM, good_andM; [apply good_test|apply good_lastIsA]
      | apply good_set_primBuf ] | .. ];
    (apply keepsIdx_whenM; [apply good_test|apply rd_keepsIdx, rd_test|];
     apply keepsIdx_whenM;
     [ apply good_notM, good_andM; [apply good_test|apply good_lastIsA]
     | apply rd_keepsIdx, rd_notM, rd_andM; [apply rd_test|apply rd_lastIsA]
     | apply keepsIdx_modify; reflexivity ]).
Qed.

Lemma keepsIdx_metaphAdd c : keepsIdx (metaphAdd c).
Proof. apply keepsIdx_metaphAddAlt. Qed.

Lemma keepsIdx_metaphAddStr prim second : keepsIdx (metaphAddStr prim second).
Proof.
  unfold metaphAddStr. apply keepsIdx_bind; [|idtac|intro].
  - apply good_whenM; [|apply good_set_primBuf].
    apply good_notM, good_andM; [apply good_test|apply good_lastIsA].
  - apply keepsIdx_whenM; [| |apply keepsIdx_modify; reflexivity].
    + apply good_notM, good_andM; [apply good_test|apply good_lastIsA].
    + apply rd_keepsIdx, rd_notM, rd_andM; [apply rd_test|apply rd_lastIsA].
  - apply keepsIdx_whenM; [| |apply keepsIdx_modify; reflexivity].
    + apply good_andM; [apply good_test|].
      apply good_notM, good_andM; [apply good_test|apply good_lastIsA].
    + apply rd_keepsIdx, rd_andM; [apply rd_test|].
      apply rd_notM, rd_andM; [apply rd_test|apply rd_lastIsA].
Qed.

Lemma keepsIdx_metaphAddExactApproxAlt a b c d : keepsIdx (metaphAddExactApproxAlt a b c d).
Proof.
  apply keepsIdx_ifM; [apply good_test|apply rd_keepsIdx, rd_test| |];
    apply keepsIdx_metaphAddStr.
Qed.

Lemma keepsIdx_metaphAddExactApprox a b : keepsIdx (metaphAddExactApprox a b).
Proof.
  apply keepsIdx_ifM; [apply good_test|apply rd_keepsIdx, rd_test| |];
    apply keepsIdx_metaphAddStr.
Qed.

Lemma keepsIdx_setFlagAlInversion b : keepsIdx (setFlagAlInversion b).
Proof. apply keepsIdx_modify. reflexivity. Qed.

(** *** Rules for [keeps] *)

Lemma keeps_ret b : keeps (ret b).
Proof. apply keepsIdx_keeps, rd_keepsIdx, rd_ret. Qed.

Lemma keeps_ifM (c : M bool) (t f : M bool) : rd c -> keeps t -> keeps f -> keeps (ifM c t f).
Proof.
  intros Hc Ht Hf s s' W E. destruct (Hc s W) as [b Hb].
  rewrite (ifM_eq _ _ _ Hb) in E. destruct b; [eapply Ht|eapply Hf]; eassumption.
Qed.

Lemma keeps_ifM_eff (c : M bool) (t f : M bool) :
  good c -> keeps c -> yes t -> keeps f -> keeps (ifM c t f).
Proof.
  intros Gc Hc Ht Hf s s' W E. destruct (Gc s W) as (b & s1 & Hb & X).
  rewrite (ifM_eq _ _ _ Hb) in E. destruct b.
  - apply Ht in E. discriminate.
  - rewrite (Hf s1 s' (wf_ext _ _ W X) E). eapply Hc; eassumption.
Qed.

Lemma keeps_orM (a b : M bool) : good a -> keeps a -> keeps b -> keeps (a ||| b).
Proof.
  intros Ga Ha Hb s s' W E. destruct (Ga s W) as (x & s1 & Hx & X).
  unfold orM in E. rewrite (bind_eq _ _ _ Hx) in E. destruct x; [discriminate|].
  rewrite (Hb s1 s' (wf_ext _ _ W X) E). eapply Ha; eassumption.
Qed.

Lemma keeps_bind_yes {A} (m : M A) (k : A -> M bool) :
  (forall a, yes (k a)) -> keeps (bind m k).
Proof. intro H. apply yes_keeps, yes_bind, H. Qed.

Lemma keeps_bind {A} (m : M A) (k : A -> M bool) :
  good m -> keepsIdx m -> (forall a, keeps (k a)) -> keeps (bind m k).
Proof.
  intros Gm Hm Hk s s' W E. apply bind_inv in E. destruct E as (a & s1 & E1 & E2).
  destruct (Gm s W) as (a' & s1' & E1' & X). rewrite E1 in E1'. injection E1' as Ea Es. subst a' s1'.
  rewrite (Hk a s1 s' (wf_ext _ _ W X) E2). eapply Hm; eassumption.
Qed.

(** ** Rules for [goodB] *)

Lemma good_goodB {A} (m : M A) : good m -> goodB m.
Proof. intros H s W _. apply H, W. Qed.

Lemma goodB_ifM {A} (c : M bool) (t f : M A) :
  rd c -> goodB t -> goodB f -> goodB (ifM c t f).
Proof.
  intros Hc Ht Hf s W Bd. destruct (Hc s W) as [b Hb].
  unfold runs. rewrite (ifM_eq _ _ _ Hb). destruct b; [apply Ht|apply Hf]; assumption.
Qed.

Lemma goodB_whenM (c : M bool) (t : M unit) : rd c -> goodB t -> goodB (whenM c t).
Proof. intros Hc Ht. apply goodB_ifM; [assumption|assumption|apply good_goodB, good_ret]. Qed.

Lemma goodB_ifM_eff {A} (c : M bool) (t f : M A) :
  goodB c -> keeps c -> good t -> goodB f -> goodB (ifM c t f).
Proof.
  intros Gc Kc Ht Hf s W Bd. unfold ifM. apply runs_bind; [apply Gc; assumption|].
  intros b s1 E X. pose proof (wf_ext _ _ W X) as W1. destruct b; [apply Ht, W1|].
  apply Hf; [assumption|]. rewrite (lenIn_ext _ _ X), (Kc s s1 W E). assumption.
Qed.

Lemma goodB_bind {A B} (m : M A) (k : A -> M B) :
  goodB m -> keepsIdx m -> (forall a, goodB (k a)) -> goodB (bind m k).
Proof.
  intros Gm Km Hk s W Bd. apply runs_bind; [apply Gm; assumption|].
  intros a s1 E X. apply Hk; [eapply wf_ext; eassumption|].
  rewrite (lenIn_ext _ _ X), (Km s a s1 W E). assumption.
Qed.

Lemma goodB_bind_good {A B} (m : M A) (k : A -> M B) :
  goodB m -> (forall a, good (k a)) -> goodB (bind m k).
Proof.
  intros Gm Hk s W Bd. apply runs_bind; [apply Gm; assumption|].
  intros a s1 E X. apply Hk. eapply wf_ext; eassumption.
Qed.

Lemma goodB_orM (a b : M bool) : goodB a -> keeps a -> goodB b -> goodB (a ||| b).
Proof.
  intros Ga Ka Gb s W Bd. unfold orM. apply runs_bind; [apply Ga; assumption|].
  intros x s1 E X. destruct x; [apply good_ret; eapply wf_ext; eassumption|].
  apply Gb; [eapply wf_ext; eassumption|].
  rewrite (lenIn_ext _ _ X), (Ka s s1 W E). assumption.
Qed.

Lemma goodB_orM_good (a b : M bool) : goodB a -> good b -> goodB (a ||| b).
Proof.
  intros Ga Gb s W Bd. unfold orM. apply runs_bind; [apply Ga; assumption|].
  intros x s1 E X. destruct x; [apply good_ret|apply Gb]; eapply wf_ext; eassumption.
Qed.

(** ** Stepping through a method at a given state *)

Ltac reads_step :=
  lazymatch goal with
  | |- reads (ret _) _ => apply reads_ret
  | |- reads (test _) _ => apply reads_test
  | |- reads (get _) _ => apply reads_get
  | |- reads (_ &&& _) _ => apply reads_andM; [|intro]
  | |- reads (_ ||| _) _ => apply reads_orM; [|intro]
  | |- reads (notM _) _ => apply reads_notM
  | |- reads (stringAt _ _) _ => apply stringAt_ok; discriminate
  | |- reads (stringAtEnd _ _) _ => apply stringAtEnd_ok; discriminate
  | |- reads (stringAtStart _ _) _ => apply stringAtStart_ok; discriminate
  | |- reads (stringStart _) _ => apply stringStart_ok; discriminate
  | |- reads (stringEnd _) _ => apply stringEnd_ok
  | |- reads (stringExact _) _ => apply stringExact_ok
  | |- reads (isVowelAt _) _ => apply isVowelAt_ok
  | |- reads (charAt _ _) _ => apply charAt_ok
  | |- reads (charNextIs _) _ => apply charAt_ok
  | |- reads (inAt _) _ => apply inAt_ok
  | |- reads (withE _) _ => apply reads_withE; cbv beta
  | |- reads (bind _ _) _ => apply reads_bind; [|intros ? ?]
  | |- reads (ifM _ _ _) _ => apply reads_ifM; [|intro|intro]
  end.

(** Evaluate the condition of the [ifM] applied to the state. *)
Ltac step_if b Hb :=
  match goal with
  | |- context [ifM ?c ?t ?f ?s] =>
    let R := fresh "R" in
    assert (R : reads c s);
    [ repeat reads_step
    | destruct R as [b Hb]; rewrite (ifM_eq c t f Hb) ]
  end.

(** ** [skipVowels] *)

(** The loop of [skipVowels] returns, leaves the state as it is, and
    does not move [off] back, as long as it starts inside the word. *)
Lemma skipVowelsLoop_ok (fuel : nat) :
  forall s it off,
  wf s -> 0 <= s.(idx) + off <= s.(lastIdx) ->
  s.(lastIdx) - (s.(idx) + off) < Z.of_nat fuel ->
  exists off', skipVowelsLoop fuel it off s = Ok (off', s) /\ off <= off'.
Proof.
  induction fuel as [|fuel IH]; intros s it off W B F; [lia|].
  cbn [skipVowelsLoop].
  destruct (isVowel it || (it =? rn "W")); [|exists off; split; [reflexivity|lia]].
  step_if b1 H1.
  destruct b1; [exists off; split; [reflexivity|lia]|].
  set (c2 := charAt (off + 1 - 1) (rn "W") &&& charAt (off + 1) (rn "H") &&& _).
  assert (R2 : reads c2 s).
  { unfold c2. repeat reads_step; lia. }
  destruct R2 as [b2 H2].
  set (off2 := if b2 then off + 1 + 1 else off + 1).
  assert (Hm : ifM c2 (ret (off + 1 + 1)) (ret (off + 1)) s = Ok (off2, s)).
  { rewrite (ifM_eq _ _ _ H2). unfold off2. destruct b2; reflexivity. }
  rewrite (bind_eq _ _ _ Hm).
  assert (Ho : off + 1 <= off2 <= off + 2) by (unfold off2; destruct b2; lia).
  step_if b3 H3. destruct b3.
  - exists off2. split; [reflexivity|lia].
  - apply test_false in H3. rewrite Z.gtb_ltb in H3. apply Z.ltb_ge in H3.
    assert (Hi : reads (withE (fun e => inAt (idx e + off2))) s).
    { apply reads_withE, inAt_ok. destruct W as (_ & _ & W). lia. }
    destruct Hi as [it' Hi]. rewrite (bind_eq _ _ _ Hi).
    destruct (IH s it' off2 W) as (off' & E & Hle); [lia|lia|].
    exists off'. split; [assumption|lia].
Qed.

(** [skipVowels(at)] for [at] at or after the next rune: it returns,
    and the result is not before the cursor. *)
Lemma skipVowels_ok (s : Encoder) (at_ : Z) :
  wf s -> s.(idx) + 1 <= at_ -> s.(idx) <= lenIn s ->
  exists n, skipVowels at_ s = Ok (n, s) /\ s.(idx) <= n.
Proof.
  intros W A Bd. pose proof W as (W0 & W1 & W2).
  unfold skipVowels. destruct (Z.ltb_spec at_ 0); [lia|].
  step_if b Hb. destruct b.
  - exists (lenIn s). split; [reflexivity|assumption].
  - apply test_false in Hb. rewrite Z.geb_leb in Hb. apply Z.leb_gt in Hb.
    destruct (inAt_ok at_ s) as [it Hit]; [lia|].
    rewrite (bind_eq _ _ _ Hit).
    rewrite (bind_eq (get _) _ s (a := at_ - idx s) (s' := s) eq_refl).
    destruct (skipVowelsLoop_ok (List.length (in_ s)) s it (at_ - idx s) W)
      as (off' & E & Hle); [lia|unfold lenIn, llen in *; lia|].
    rewrite (bind_eq (withE _) _ s (a := off') (s' := s) E).
    destruct (Z.ltb_spec off' 1); [lia|].
    exists (idx s + off' - 1). split; [reflexivity|lia].
Qed.

Lemma goodB_skipVowels (k : Z) :
  1 <= k -> goodB (assignIdx (withE (fun e => skipVowels (e.(idx) + k)))).
Proof.
  intros K s W Bd. destruct (skipVowels_ok s (idx s + k) W) as (n & E & Hn); [lia|lia|].
  exists tt, (set_idx n s). split.
  - unfold assignIdx. rewrite (bind_eq _ _ s (s' := s) (a := n)); [reflexivity|exact E].
  - unfold ext; simpl. repeat split; lia.
Qed.

(** ** Guarded reads that occur in the rules *)

(** [... && e.idx+2 < len(e.in) && e.in[e.idx+2] != 'H'] of [encodeB]:
    the index is read only after the bound was tested. *)
Lemma rd_guarded_inAt2 (x : M bool) (f : rune -> bool) :
  rd x ->
  rd (x &&& test (fun e => (e.(idx) + 2 <? lenIn e)) &&&
      (c <- withE (fun e => inAt (e.(idx) + 2)) ;; ret (f c))).
Proof.
  intros Hx s W. apply reads_andM.
  - apply reads_andM; [apply Hx, W|intro; apply reads_test].
  - intro H. apply andM_true in H; [|apply Hx, W]. destruct H as [_ H].
    apply test_true in H. apply Z.ltb_lt in H.
    apply reads_bind; [|intros; apply reads_ret].
    apply reads_withE, inAt_ok. destruct W as (W & _). lia.
Qed.

(** [len(e.primBuf) > 0 && e.primBuf[len(e.primBuf)-1] == 'A'] of
    [encodeWitzWicz]. *)
Lemma rd_guarded_lastPrim (f : rune -> bool) :
  rd (test (fun e => (llen e.(primBuf) >? 0)) &&&
      (c <- withE (fun e => liftR (index e.(primBuf) (llen e.(primBuf) - 1))) ;;
       ret (f c))).
Proof.
  intros s W. apply reads_andM; [apply reads_test|]. intro H.
  apply test_true in H. rewrite Z.gtb_ltb in H. apply Z.ltb_lt in H.
  apply reads_bind; [|intros; apply reads_ret].
  apply reads_withE, reads_liftR, index_ok. lia.
Qed.

(** The vowel-skipping loop of [encodeInitialHuHw],
    [for e.isVowelAt(0) || e.charAt(0, 'W') { e.idx++ }]: it stops at
    the end of the word at the latest. *)
Lemma huHwLoop_ok (fuel : nat) :
  forall s, wf s -> lenIn s - s.(idx) <= Z.of_nat fuel ->
  runs (whileM fuel (isVowelAt 0 ||| charAt 0 (rn "W")) incIdx) s.
Proof.
  induction fuel as [|fuel IH]; intros s W F.
  - (* the cursor is at or after the end: the condition is false *)
    assert (Hv : isVowelAt 0 s = Ok (false, s)).
    { unfold isVowelAt. destruct (Z.ltb_spec (idx s + 0) 0); simpl; [reflexivity|].
      rewrite Z.geb_leb. destruct (Z.leb_spec (lenIn s) (idx s + 0)); [reflexivity|lia]. }
    assert (Hw : charAt 0 (rn "W") s = Ok (false, s)).
    { unfold charAt. rewrite Z.geb_leb.
      destruct (Z.leb_spec (lenIn s) (idx s + 0)); [reflexivity|lia]. }
    assert (Hc : (isVowelAt 0 ||| charAt 0 (rn "W")) s = Ok (false, s)).
    { unfold orM. rewrite (bind_eq _ _ _ Hv). exact Hw. }
    apply runs_ro_intro with (a := tt). cbn [whileM].
    rewrite (bind_eq _ _ _ Hc). reflexivity.
  - cbn [whileM].
    assert (R : reads (isVowelAt 0 ||| charAt 0 (rn "W")) s).
    { repeat reads_step. destruct W as (W & _). lia. }
    destruct R as [b Hb]. unfold runs. rewrite (bind_eq _ _ _ Hb).
    destruct b; [|exists tt, s; split; [reflexivity|apply ext_refl]].
    apply runs_bind; [apply good_incIdx, W|].
    intros [] s1 E X. injection E as E. subst s1.
    apply IH; [eapply wf_ext; eassumption|]. unfold lenIn in *. simpl. lia.
Qed.

Lemma good_huHwSkip :
  good (incIdx ;;
        withE (fun e => whileM (List.length e.(in_))
                          (isVowelAt 0 ||| charAt 0 (rn "W")) incIdx) ;;
        decIdx).
Proof.
  intros s W. pose proof W as (W0 & _).
  set (s1 := set_idx (idx s + 1) s).
  assert (X1 : ext s s1) by (unfold ext, s1; simpl; repeat split; lia).
  assert (E1 : incIdx s = Ok (tt, s1)) by reflexivity.
  unfold runs. rewrite (bind_eq _ _ _ E1).
  destruct (huHwLoop_ok (List.length (in_ s1)) s1 (wf_ext _ _ W X1))
    as ([] & s2 & E2 & X2).
  { unfold lenIn, llen, s1. simpl. lia. }
  rewrite (bind_eq (withE _) _ s1 (a := tt) (s' := s2) E2).
  exists tt, (set_idx (idx s2 - 1) s2). split; [reflexivity|].
  destruct X2 as (I & X2). unfold ext in *. unfold s1 in *. simpl in *.
  intuition (try congruence; try lia).
Qed.

(** [skipVowels(e.idx)] in [encodeSkipSilentUe]: the rune at the cursor
    is the "U" of "QUE" or "GUE", so the loop is entered and steps
    forward, and [off] ends at 1 or more. *)

Lemma matchRunes_cons_inv w at_ c cs :
  matchRunes w at_ (c :: cs) = Ok true ->
  index w at_ = Ok c /\ matchRunes w (at_ + 1) cs = Ok true.
Proof.
  cbn [matchRunes]. destruct (index w at_) as [x| |]; simpl; try discriminate.
  destruct (Z.eqb_spec c x); simpl; [subst; auto|discriminate].
Qed.

Lemma matchRunes_head_ne w at_ c cs x :
  index w at_ = Ok x -> x <> c -> matchRunes w at_ (c :: cs) = Ok false.
Proof.
  intros H N. cbn [matchRunes]. rewrite H. simpl.
  destruct (Z.eqb_spec c x); [congruence|reflexivity].
Qed.

Lemma stringAtVals_true w start vals :
  stringAtVals w start vals = Ok true ->
  exists v, In v vals /\ start + len v <= llen w /\ matchRunes w start (runes v) = Ok true.
Proof.
  induction vals as [|v vals IH]; cbn [stringAtVals]; [discriminate|].
  rewrite Z.gtb_ltb. destruct (Z.ltb_spec (llen w) (start + len v)); [discriminate|].
  destruct (matchRunes w start (runes v)) as [[]| |] eqn:E; simpl; try discriminate.
  - intros _. exists v. split; [left; reflexivity|]. split; [lia|assumption].
  - intro H1. destruct (IH H1) as (v' & I & R). exists v'. split; [right; assumption|assumption].
Qed.

Lemma stringAt_true offset vals s s' :
  stringAt offset vals s = Ok (true, s') ->
  exists v, In v vals /\ 0 <= s.(idx) + offset /\ s.(idx) + offset + len v <= lenIn s /\
            matchRunes s.(in_) (s.(idx) + offset) (runes v) = Ok true.
Proof.
  unfold stringAt, startOutside, liftR.
  destruct (Z.ltb_spec (idx s + offset) 0); simpl; [discriminate|].
  rewrite Z.geb_leb. destruct (Z.leb_spec (llen (in_ s)) (idx s + offset)); simpl;
    [discriminate|].
  destruct (index vals 0) as [v0| |]; simpl; try discriminate.
  destruct (idx s + offset + len v0 >? llen (in_ s)); [discriminate|].
  destruct (stringAtVals (in_ s) (idx s + offset) vals) as [[]| |] eqn:E; try discriminate.
  intros _. destruct (stringAtVals_true _ _ _ E) as (v & I & L & R).
  exists v. unfold lenIn. repeat split; assumption || lia.
Qed.

Lemma matchRunes_mismatch (w : list rune) (x : rune) :
  forall (k : nat) cs start c,
  0 <= start -> index w (start + Z.of_nat k) = Ok x ->
  nth_error cs k = Some c -> c <> x ->
  matchRunes w start cs = Ok false.
Proof.
  induction k as [|k IH]; intros cs start c S0 Hx Hc N.
  - destruct cs as [|c0 cs]; [simpl in Hc; discriminate|]. simpl in Hc. injection Hc as ->.
    replace (start + Z.of_nat 0) with start in Hx by lia.
    eapply matchRunes_head_ne; [eassumption|congruence].
  - destruct cs as [|c0 cs]; [simpl in Hc; discriminate|]. cbn [nth_error] in Hc.
    cbn [matchRunes].
    destruct (index_ok w start) as [y Hy].
    { apply index_inv in Hx. lia. }
    rewrite Hy. simpl. destruct (negb (c0 =? y)); [reflexivity|].
    apply (IH cs (start + 1) c); [lia| |assumption|assumption].
    replace (start + 1 + Z.of_nat k) with (start + Z.of_nat (S k)) by lia. assumption.
Qed.

Lemma stringAtVals_differ (w : list rune) (k : nat) (x : rune) (start : Z) :
  forall vals, differAt k x vals = true ->
  0 <= start -> index w (start + Z.of_nat k) = Ok x ->
  stringAtVals w start vals = Ok false.
Proof.
  induction vals as [|v vals IH]; intros D S0 Hx; [reflexivity|].
  cbn [differAt forallb] in D. apply andb_true_iff in D. destruct D as [D1 D2].
  cbn [stringAtVals]. destruct (start + len v >? llen w); [reflexivity|].
  destruct (nth_error (runes v) k) as [c|] eqn:E; [|discriminate].
  rewrite (matchRunes_mismatch w x k (runes v) start c S0 Hx E).
  - simpl. apply IH; assumption.
  - apply negb_true_iff, Z.eqb_neq in D1. assumption.
Qed.

Lemma stringAtEndVals_differ (w : list rune) (k : nat) (x : rune) (start : Z) :
  forall vals, differAt k x vals = true ->
  0 <= start -> index w (start + Z.of_nat k) = Ok x ->
  stringAtEndVals w start vals = Ok false.
Proof.
  induction vals as [|v vals IH]; intros D S0 Hx; [reflexivity|].
  cbn [differAt forallb] in D. apply andb_true_iff in D. destruct D as [D1 D2].
  cbn [stringAtEndVals]. destruct (start + len v >? llen w); [reflexivity|].
  destruct (start + len v <? llen w); [apply IH; assumption|].
  destruct (nth_error (runes v) k) as [c|] eqn:E; [|discriminate].
  rewrite (matchRunes_mismatch w x k (runes v) start c S0 Hx E).
  - simpl. apply IH; assumption.
  - apply negb_true_iff, Z.eqb_neq in D1. assumption.
Qed.

Lemma startOutside_cases w start vals :
  vals <> [] ->
  startOutside w start vals = Ok true \/
  (startOutside w start vals = Ok false /\ 0 <= start).
Proof.
  intro Hv. destruct (startOutside_ok w start vals Hv) as [[] [E H]]; auto.
Qed.

Lemma stringAt_differ (k : nat) (x : rune) (offset : Z) (vals : list string) s :
  vals <> [] -> differAt k x vals = true ->
  index s.(in_) (s.(idx) + offset + Z.of_nat k) = Ok x ->
  stringAt offset vals s = Ok (false, s).
Proof.
  intros Hv D Hx. unfold stringAt.
  destruct (startOutside_cases s.(in_) (s.(idx) + offset) vals Hv) as [E|[E S0]];
    rewrite E; simpl; [reflexivity|].
  rewrite (stringAtVals_differ _ k x _ vals D S0 Hx). reflexivity.
Qed.

Lemma stringAtEnd_differ (k : nat) (x : rune) (offset : Z) (vals : list string) s :
  vals <> [] -> differAt k x vals = true ->
  index s.(in_) (s.(idx) + offset + Z.of_nat k) = Ok x ->
  stringAtEnd offset vals s = Ok (false, s).
Proof.
  intros Hv D Hx. unfold stringAtEnd.
  destruct (startOutside_cases s.(in_) (s.(idx) + offset) vals Hv) as [E|[E S0]];
    rewrite E; simpl; [reflexivity|].
  rewrite (stringAtEndVals_differ _ k x _ vals D S0 Hx). reflexivity.
Qed.

(** One pass of the loop of [skipVowels] whose [break] test fails
    moves [off] on by one at least. *)
Lemma skipVowelsLoop_step (fuel : nat) s it off :
  wf s -> 0 <= s.(idx) + off <= s.(lastIdx) ->
  s.(lastIdx) - (s.(idx) + off) < Z.of_nat fuel ->
  isVowel it || (it =? rn "W") = true ->
  (stringAt off ["WICZ"; "WITZ"; "WIAK"]
   ||| stringAt (off - 1) ["EWSKI"; "EWSKY"; "OWSKI"; "OWSKY"]
   ||| stringAtEnd off ["WICKI"; "WACKI"]) s = Ok (false, s) ->
  exists off', skipVowelsLoop fuel it off s = Ok (off', s) /\ off + 1 <= off'.
Proof.
  intros W B F V H1. destruct fuel as [|fuel]; [lia|].
  cbn [skipVowelsLoop]. rewrite V.
  rewrite (ifM_eq _ _ _ H1).
  set (c2 := charAt (off + 1 - 1) (rn "W") &&& charAt (off + 1) (rn "H") &&& _).
  assert (R2 : reads c2 s).
  { unfold c2. repeat reads_step; lia. }
  destruct R2 as [b2 H2].
  set (off2 := if b2 then off + 1 + 1 else off + 1).
  assert (Hm : ifM c2 (ret (off + 1 + 1)) (ret (off + 1)) s = Ok (off2, s)).
  { rewrite (ifM_eq _ _ _ H2). unfold off2. destruct b2; reflexivity. }
  rewrite (bind_eq _ _ _ Hm).
  assert (Ho : off + 1 <= off2 <= off + 2) by (unfold off2; destruct b2; lia).
  step_if b3 H3. destruct b3.
  - exists off2. split; [reflexivity|lia].
  - apply test_false in H3. rewrite Z.gtb_ltb in H3. apply Z.ltb_ge in H3.
    assert (Hi : reads (withE (fun e => inAt (idx e + off2))) s).
    { apply reads_withE, inAt_ok. destruct W as (_ & _ & W). lia. }
    destruct Hi as [it' Hi]. rewrite (bind_eq _ _ _ Hi).
    destruct (skipVowelsLoop_ok fuel s it' off2 W) as (off' & E & Hle); [lia|lia|].
    exists off'. split; [assumption|lia].
Qed.

(** [skipVowels(e.idx)] when the rune at the cursor is "U". *)
Lemma skipVowels_cursor_U (s : Encoder) :
  wf s -> index s.(in_) s.(idx) = Ok (rn "U") ->
  exists n, skipVowels s.(idx) s = Ok (n, s) /\ s.(idx) <= n.
Proof.
  intros W U. pose proof W as (W0 & W1 & W2).
  pose proof (index_inv _ _ _ U) as [Hi _]. fold (lenIn s) in Hi.
  unfold skipVowels. destruct (Z.ltb_spec (idx s) 0); [lia|].
  step_if b Hb. destruct b.
  { apply test_true in Hb. rewrite Z.geb_leb in Hb. apply Z.leb_le in Hb. lia. }
  assert (Hit : inAt (idx s) s = Ok (rn "U", s)).
  { unfold inAt. rewrite U. reflexivity. }
  rewrite (bind_eq _ _ _ Hit).
  rewrite (bind_eq (get _) _ s (a := idx s - idx s) (s' := s) eq_refl).
  replace (idx s - idx s) with 0 by lia.
  destruct (skipVowelsLoop_step (List.length (in_ s)) s (rn "U") 0 W)
    as (off' & E & Hle); [lia|unfold lenIn, llen in *; lia|reflexivity| |].
  { unfold orM.
    rewrite (bind_eq _ _ s (a := false) (s' := s)).
    2:{ unfold orM. rewrite (bind_eq _ _ s (a := false) (s' := s)).
        - apply (stringAt_differ 1 (rn "U")); [discriminate|reflexivity|].
          replace (idx s + (0 - 1) + Z.of_nat 1) with (idx s) by lia. assumption.
        - apply (stringAt_differ 0 (rn "U")); [discriminate|reflexivity|].
          replace (idx s + 0 + Z.of_nat 0) with (idx s) by lia. assumption. }
    apply (stringAtEnd_differ 0 (rn "U")); [discriminate|reflexivity|].
    replace (idx s + 0 + Z.of_nat 0) with (idx s) by lia. assumption. }
  rewrite (bind_eq (withE _) _ s (a := off') (s' := s) E).
  destruct (Z.ltb_spec off' 1); [lia|].
  exists (idx s + off' - 1). split; [reflexivity|lia].
Qed.

(** What [stringAt(-1, "QUE", "GUE")] tells about the rune at the
    cursor. *)
Lemma que_gue_cursor s s' :
  stringAt (-1) ["QUE"; "GUE"] s = Ok (true, s') -> index s.(in_) s.(idx) = Ok (rn "U").
Proof.
  intro H. apply stringAt_true in H. destruct H as (v & I & S0 & L & R).
  assert (Hr : exists c0 cs, runes v = c0 :: rn "U" :: cs).
  { destruct I as [<-|[<-|[]]]; eexists; eexists; reflexivity. }
  destruct Hr as (c0 & cs & Hr). rewrite Hr in R.
  apply matchRunes_cons_inv in R. destruct R as [_ R].
  apply matchRunes_cons_inv in R. destruct R as [R _].
  replace (idx s + -1 + 1) with (idx s) in R by lia. assumption.
Qed.

(** * Automation

    The judgements follow the structure of a method, so most rules
    are settled by a tactic that walks the term. *)

Create HintDb good discriminated.
Create HintDb rd discriminated.
Create HintDb goodB discriminated.
Create HintDb stepB discriminated.

Ltac head_of t :=
  lazymatch t with
  | ?f _ => head_of f
  | _ => t
  end.

Ltac rd_step :=
  lazymatch goal with
  | |- rd (ret _) => apply rd_ret
  | |- rd (test _) => apply rd_test
  | |- rd (get _) => apply rd_get
  | |- rd (ifM _ _ _) => apply rd_ifM
  | |- rd (test (fun e => (e.(idx) >? 0)) &&& charAt (-1) _) => apply rd_guarded_charAt
  | |- rd (_ &&& test (fun e => (e.(idx) + 2 <? lenIn e)) &&& _) =>
      first [apply rd_guarded_inAt2 | apply rd_andM]
  | |- rd (test (fun e => (llen e.(primBuf) >? 0)) &&& _) =>
      first [apply rd_guarded_lastPrim | apply rd_andM]
  | |- rd (_ &&& _) => apply rd_andM
  | |- rd (_ ||| _) => apply rd_orM
  | |- rd (notM _) => apply rd_notM
  | |- rd (stringAt _ _) => apply rd_stringAt; discriminate
  | |- rd (stringAtEnd _ _) => apply rd_stringAtEnd; discriminate
  | |- rd (stringAtStart _ _) => apply rd_stringAtStart; discriminate
  | |- rd (stringStart _) => apply rd_stringStart; discriminate
  | |- rd (stringEnd _) => apply rd_stringEnd
  | |- rd (stringExact _) => apply rd_stringExact
  | |- rd (stringContains _) => apply rd_stringContains
  | |- rd (isVowelAt _) => apply rd_isVowelAt
  | |- rd (charAt _ _) => apply rd_charAt; lia
  | |- rd (charNextIs _) => apply rd_charNextIs
  | |- rd (inAt 0) => apply rd_inAt0
  | |- rd (withE (fun e => liftR (rootOrInflections e.(in_) _))) =>
      apply rd_rootOrInflections; discriminate
  | |- rd (withE _) => apply rd_withE; intro
  | |- rd (bind _ _) => apply rd_bind; [|intro]
  | |- rd ?m => first [ solve [auto with rd]
                      | let h := head_of m in unfold h; cbv zeta ]
  end.

Ltac rd_tac := cbv zeta; repeat rd_step.

Ltac good_step :=
  lazymatch goal with
  | |- good (ret _) => apply good_ret
  | |- good (test _) => apply good_test
  | |- good (get _) => apply good_get
  | |- good (ifM _ _ _) => apply good_ifM
  | |- good (whenM _ _) => apply good_whenM
  | |- good (test (fun e => (e.(idx) >? 0)) &&& charAt (-1) _) =>
      apply good_guarded_charAt
  | |- good (_ &&& test (fun e => (e.(idx) + 2 <? lenIn e)) &&& _) =>
      first [apply rd_good, rd_guarded_inAt2; solve [rd_tac] | apply good_andM]
  | |- good (test (fun e => (llen e.(primBuf) >? 0)) &&& _) =>
      first [apply rd_good, rd_guarded_lastPrim | apply good_andM]
  | |- good (incIdx ;; withE (fun e => whileM _ _ _) ;; decIdx) =>
      apply good_huHwSkip
  | |- good (_ &&& _) => apply good_andM
  | |- good (_ ||| _) => apply good_orM
  | |- good (notM _) => apply good_notM
  | |- good (stringAt _ _) => apply good_stringAt; discriminate
  | |- good (stringAtEnd _ _) => apply good_stringAtEnd; discriminate
  | |- good (stringAtStart _ _) => apply good_stringAtStart; discriminate
  | |- good (stringStart _) => apply good_stringStart; discriminate
  | |- good (stringEnd _) => apply good_stringEnd
  | |- good (stringExact _) => apply good_stringExact
  | |- good (stringContains _) => apply good_stringContains
  | |- good (isVowelAt _) => apply good_isVowelAt
  | |- good (charAt _ _) => apply good_charAt; lia
  | |- good (charNextIs _) => apply good_charNextIs
  | |- good (inAt 0) => apply good_inAt0
  | |- good (metaphAdd _) => apply good_metaphAdd
  | |- good (metaphAddAlt _ _) => apply good_metaphAddAlt
  | |- good (metaphAddStr _ _) => apply good_metaphAddStr
  | |- good (metaphAddExactApprox _ _) => apply good_metaphAddExactApprox
  | |- good (metaphAddExactApproxAlt _ _ _ _) => apply good_metaphAddExactApproxAlt
  | |- good (advanceCounter _ _) => apply good_advanceCounter; lia
  | |- good incIdx => apply good_incIdx
  | |- good (addIdx _) => apply good_addIdx; lia
  | |- good (setFlagAlInversion _) => apply good_setFlagAlInversion
  | |- good isSlavoGermanic => apply good_isSlavoGermanic
  | |- good (withE (fun e => liftR (rootOrInflections e.(in_) _))) =>
      apply good_rootOrInflections; discriminate
  | |- good (withE _) => apply good_withE; intro
  | |- good (bind _ _) => apply good_bind; [|intro]
  | |- good _ => solve [auto with good]
  end.

Ltac good_tac := cbv zeta; repeat good_step.

Ltac yes_step :=
  lazymatch goal with
  | |- yes (ret true) => apply yes_ret_true
  | |- yes (ifM _ _ _) => apply yes_ifM
  | |- yes (bind _ _) => apply yes_bind; intro
  end.

Ltac keepsIdx_step :=
  lazymatch goal with
  | |- keepsIdx (metaphAdd _) => apply keepsIdx_metaphAdd
  | |- keepsIdx (metaphAddAlt _ _) => apply keepsIdx_metaphAddAlt
  | |- keepsIdx (metaphAddStr _ _) => apply keepsIdx_metaphAddStr
  | |- keepsIdx (metaphAddExactApprox _ _) => apply keepsIdx_metaphAddExactApprox
  | |- keepsIdx (metaphAddExactApproxAlt _ _ _ _) => apply keepsIdx_metaphAddExactApproxAlt
  | |- keepsIdx (setFlagAlInversion _) => apply keepsIdx_setFlagAlInversion
  | |- keepsIdx (ifM _ _ _) => apply keepsIdx_ifM; [solve [good_tac]| | |]
  | |- keepsIdx (whenM _ _) => apply keepsIdx_whenM; [solve [good_tac]| |]
  | |- keepsIdx (bind _ _) => apply keepsIdx_bind; [solve [good_tac]| |intro]
  | |- keepsIdx _ => apply rd_keepsIdx; solve [rd_tac]
  end.

Ltac keepsIdx_tac := cbv zeta; repeat keepsIdx_step.

Ltac keeps_step :=
  lazymatch goal with
  | |- keeps (ret _) => apply keeps_ret
  | |- keeps (ifM _ _ _) =>
      first [ apply keeps_ifM; [solve [rd_tac]| |]
            | apply keeps_ifM_eff; [solve [good_tac]| |solve [repeat yes_step]|] ]
  | |- keeps (_ ||| _) =>
      first [ apply keepsIdx_keeps, rd_keepsIdx; solve [rd_tac]
            | apply keeps_orM; [solve [good_tac]| |] ]
  | |- keeps (bind _ _) =>
      first [ apply keeps_bind_yes; intro; solve [repeat yes_step]
            | apply keeps_bind; [solve [good_tac]|solve [keepsIdx_tac]|intro] ]
  | |- keeps ?m =>
      first [ apply keepsIdx_keeps, rd_keepsIdx; solve [rd_tac]
            | let h := head_of m in unfold h; cbv zeta ]
  end.

Ltac keeps_tac := cbv zeta; repeat keeps_step.

(** ** Rules that need the cursor inside the word *)

Lemma keeps_keepsB (m : M bool) : keeps m -> keepsB m.
Proof. intros H s s' W _ E. exact (H s s' W E). Qed.

Lemma keepsB_yes (m : M bool) : yes m -> keepsB m.
Proof. intro H. apply keeps_keepsB, yes_keeps, H. Qed.

Lemma keepsB_ifM_reads (c : M bool) (t f : M bool) :
  (forall s, wf s -> s.(idx) <= lenIn s -> reads c s) ->
  keepsB t -> keepsB f -> keepsB (ifM c t f).
Proof.
  intros Hc Ht Hf s s' W Bd E. destruct (Hc s W Bd) as [b Hb].
  rewrite (ifM_eq _ _ _ Hb) in E. destruct b; [eapply Ht|eapply Hf]; eassumption.
Qed.

Lemma keepsB_ifM (c : M bool) (t f : M bool) :
  rd c -> keepsB t -> keepsB f -> keepsB (ifM c t f).
Proof. intros Hc. apply keepsB_ifM_reads. intros s W _. apply Hc, W. Qed.

Lemma keepsB_ifM_step (c : M bool) (t f : M bool) :
  stepB c -> yes t -> keepsB f -> keepsB (ifM c t f).
Proof.
  intros [Gc Kc] Ht Hf s s' W Bd E. destruct (Gc s W Bd) as (b & s1 & Hb & X).
  rewrite (ifM_eq _ _ _ Hb) in E. destruct b.
  - apply Ht in E. discriminate.
  - pose proof (Kc s s1 W Bd Hb) as K1.
    rewrite (Hf s1 s' (wf_ext _ _ W X)); [exact K1| |exact E].
    rewrite (lenIn_ext _ _ X), K1. exact Bd.
Qed.

Lemma stepB_good (m : M bool) : good m -> keeps m -> stepB m.
Proof. intros G K. split; [apply good_goodB, G|apply keeps_keepsB, K]. Qed.

Lemma stepB_orM (a b : M bool) : stepB a -> stepB b -> stepB (a ||| b).
Proof.
  intros [Ga Ka] [Gb Kb]. split.
  - intros s W Bd. unfold orM. apply runs_bind; [apply Ga; assumption|].
    intros x s1 E X. destruct x; [apply good_ret; eapply wf_ext; eassumption|].
    apply Gb; [eapply wf_ext; eassumption|].
    rewrite (lenIn_ext _ _ X), (Ka s s1 W Bd E). assumption.
  - intros s s' W Bd E. destruct (Ga s W Bd) as (x & s1 & Hx & X).
    unfold orM in E. rewrite (bind_eq _ _ _ Hx) in E. destruct x; [discriminate|].
    pose proof (Ka s s1 W Bd Hx) as K1.
    rewrite (Kb s1 s' (wf_ext _ _ W X)); [exact K1| |exact E].
    rewrite (lenIn_ext _ _ X), K1. exact Bd.
Qed.

Lemma goodB_ifM_step {A} (c : M bool) (t f : M A) :
  stepB c -> good t -> goodB f -> goodB (ifM c t f).
Proof.
  intros [Gc Kc] Ht Hf s W Bd. unfold ifM. apply runs_bind; [apply Gc; assumption|].
  intros b s1 E X. pose proof (wf_ext _ _ W X) as W1. destruct b; [apply Ht, W1|].
  apply Hf; [assumption|]. rewrite (lenIn_ext _ _ X), (Kc s s1 W Bd E). assumption.
Qed.

Lemma goodB_ifM_good {A} (c : M bool) (t f : M A) :
  goodB c -> good t -> good f -> goodB (ifM c t f).
Proof.
  intros Gc Ht Hf s W Bd. unfold ifM. apply runs_bind; [apply Gc; assumption|].
  intros b s1 E X. pose proof (wf_ext _ _ W X) as W1. destruct b; [apply Ht, W1|apply Hf, W1].
Qed.

Lemma goodB_ifM_reads {A} (c : M bool) (t f : M A) :
  (forall s, wf s -> s.(idx) <= lenIn s -> reads c s) ->
  goodB t -> goodB f -> goodB (ifM c t f).
Proof.
  intros Hc Ht Hf s W Bd. destruct (Hc s W Bd) as [b Hb].
  unfold runs. rewrite (ifM_eq _ _ _ Hb). destruct b; [apply Ht|apply Hf]; assumption.
Qed.

Lemma stepB_goodB (m : M bool) : stepB m -> goodB m.
Proof. intros [G _]. exact G. Qed.

Lemma stepB_keepsB (m : M bool) : stepB m -> keepsB m.
Proof. intros [_ K]. exact K. Qed.

Ltac goodB_step :=
  first
  [ apply good_goodB; solve [good_tac]
  | lazymatch goal with
    | |- goodB (ifM _ _ _) =>
        first [ apply goodB_ifM; [solve [rd_tac]| |]
              | apply goodB_ifM_good; [ |solve [good_tac]|solve [good_tac]]
              | apply goodB_ifM_step; [solve [stepB_tac]|solve [good_tac]|] ]
    | |- goodB (whenM _ _) => apply goodB_whenM; [solve [rd_tac]|]
    | |- goodB (_ ||| _) => apply stepB_goodB; solve [stepB_tac]
    | |- goodB (assignIdx (withE (fun e => skipVowels (e.(idx) + _)))) =>
        apply goodB_skipVowels; lia
    | |- goodB (bind _ _) =>
        first [ apply goodB_bind_good; [|intro; solve [good_tac]]
              | apply goodB_bind; [|solve [keepsIdx_tac]|intro] ]
    | |- goodB _ => solve [auto with goodB]
    end ]
with keepsB_step :=
  lazymatch goal with
  | |- keepsB (ret _) => apply keeps_keepsB, keeps_ret
  | |- keepsB (ifM _ _ _) =>
      first [ apply keepsB_ifM; [solve [rd_tac]| |]
            | apply keepsB_ifM_step; [solve [stepB_tac]|solve [repeat yes_step]|] ]
  | |- keepsB (bind _ _) => apply keepsB_yes; solve [repeat yes_step]
  | |- keepsB (_ ||| _) => apply stepB_keepsB; solve [stepB_tac]
  | |- keepsB _ => apply keeps_keepsB; solve [keeps_tac]
  end
with stepB_tac :=
  lazymatch goal with
  | |- stepB (_ ||| _) => apply stepB_orM; stepB_tac
  | |- stepB ?m =>
      first [ solve [auto with stepB]
            | apply stepB_good; [solve [good_tac]|solve [keeps_tac]]
            | split; [solve [cbv zeta; repeat goodB_step]
                     |solve [cbv zeta; repeat keepsB_step]] ]
  end.

Ltac goodB_tac := cbv zeta; repeat goodB_step.
Ltac keepsB_tac := cbv zeta; repeat keepsB_step.

(** ** Stepping with the outcome at hand *)

Lemma runs_ifM {A} (c : M bool) (t f : M A) (s : Encoder) :
  runs c s ->
  (forall s', c s = Ok (true, s') -> ext s s' -> runs t s') ->
  (forall s', c s = Ok (false, s') -> ext s s' -> runs f s') ->
  runs (ifM c t f) s.
Proof.
  intros Hc Ht Hf. unfold ifM. apply runs_bind; [assumption|].
  intros [] s' E X; [apply Ht|apply Hf]; assumption.
Qed.

Lemma runs_ifM_reads {A} (c : M bool) (t f : M A) (s : Encoder) :
  reads c s ->
  (c s = Ok (true, s) -> runs t s) ->
  (c s = Ok (false, s) -> runs f s) ->
  runs (ifM c t f) s.
Proof.
  intros [b Hb] Ht Hf. unfold runs. rewrite (ifM_eq _ _ _ Hb).
  destruct b; [apply Ht|apply Hf]; assumption.
Qed.

Lemma runs_get_bind {A B} (g : Encoder -> A) (k : A -> M B) (s : Encoder) :
  runs (k (g s)) s -> runs (bind (get g) k) s.
Proof.
  intro H. unfold runs.
  rewrite (bind_eq (get g) k s (a := g s) (s' := s) eq_refl). exact H.
Qed.

(** * Every rule returns

    One lemma per rule method, in the order of their calls. *)

(** [encodeSilentB] returns and moves the cursor forward only. *)
Lemma good_encodeSilentB : good encodeSilentB.
Proof. unfold encodeSilentB. good_tac. Qed.
#[local] Hint Resolve good_encodeSilentB : good.

(** [encodeB] returns and moves the cursor forward only. *)
Lemma good_encodeB : good encodeB.
Proof. unfold encodeB. good_tac. Qed.
#[local] Hint Resolve good_encodeB : good.

(** [encodeSilentCAtBeginning] returns and moves the cursor forward only. *)
Lemma good_encodeSilentCAtBeginning : good encodeSilentCAtBeginning.
Proof. unfold encodeSilentCAtBeginning. good_tac. Qed.
#[local] Hint Resolve good_encodeSilentCAtBeginning : good.

(** [encodeCaToS] returns and moves the cursor forward only. *)
Lemma good_encodeCaToS : good encodeCaToS.
Proof. unfold encodeCaToS. good_tac. Qed.
#[local] Hint Resolve good_encodeCaToS : good.

(** [encodeCoToS] returns and moves the cursor forward only. *)
Lemma good_encodeCoToS : good encodeCoToS.
Proof. unfold encodeCoToS. good_tac. Qed.
#[local] Hint Resolve good_encodeCoToS : good.

(** [encodeChae] returns and moves the cursor forward only. *)
Lemma good_encodeChae : good encodeChae.
Proof. unfold encodeChae. good_tac. Qed.
#[local] Hint Resolve good_encodeChae : good.

(** [encodeChToH] returns and moves the cursor forward only. *)
Lemma good_encodeChToH : good encodeChToH.
Proof. unfold encodeChToH. good_tac. Qed.
#[local] Hint Resolve good_encodeChToH : good.

(** [encodeSilentCh] returns and moves the cursor forward only. *)
Lemma good_encodeSilentCh : good encodeSilentCh.
Proof. unfold encodeSilentCh. good_tac. Qed.
#[local] Hint Resolve good_encodeSilentCh : good.

(** [encodeArch] returns and moves the cursor forward only. *)
Lemma good_encodeArch : good encodeArch.
Proof. unfold encodeArch. good_tac. Qed.
#[local] Hint Resolve good_encodeArch : good.

(** [encodeChToX] returns and moves the cursor forward only. *)
Lemma good_encodeChToX : good encodeChToX.
Proof. unfold encodeChToX. good_tac. Qed.
#[local] Hint Resolve good_encodeChToX : good.

(** [encodeEnglishChToK] slices the input at [idx - 1], which is inside
    the word when the cursor is: the test [idx > 3] comes first. *)
Lemma reads_encodeEnglishChToK_slice (s : Encoder) :
  wf s -> s.(idx) <= lenIn s ->
  reads (test (fun e => (e.(idx) >? 3)) &&&
         withE (fun e => liftR (bindR (sliceFrom e.(in_) (e.(idx) - 1))
                                      (fun w => rootOrInflections w "ACHE")))) s.
Proof.
  intros W Bd. apply reads_andM; [apply reads_test|].
  intro T. apply test_true in T. apply reads_withE, reads_liftR.
  apply okR_bindR.
  - unfold sliceFrom, lenIn in *.
    destruct (Z.ltb_spec (idx s - 1) 0); [lia|].
    destruct (Z.ltb_spec (llen (in_ s)) (idx s - 1)); [lia|].
    eexists. reflexivity.
  - intros w _. apply rootOrInflections_ok. discriminate.
Qed.

Ltac reads_root_step :=
  first [ apply reads_encodeEnglishChToK_slice; assumption
        | apply reads_withE, reads_liftR, rootOrInflections_ok; discriminate
        | reads_step ].

(** [encodeEnglishChToK] returns for a cursor inside the word, and leaves it alone when the answer is false. *)
Lemma stepB_encodeEnglishChToK : stepB encodeEnglishChToK.
Proof.
  split; unfold encodeEnglishChToK.
  - apply goodB_ifM_reads; [|goodB_tac..].
    intros s W Bd. repeat reads_root_step.
  - apply keepsB_ifM_reads; [|keepsB_tac..].
    intros s W Bd. repeat reads_root_step.
Qed.
#[local] Hint Resolve stepB_encodeEnglishChToK : stepB.

Lemma goodB_encodeEnglishChToK : goodB encodeEnglishChToK.
Proof. apply stepB_encodeEnglishChToK. Qed.
#[local] Hint Resolve goodB_encodeEnglishChToK : goodB.

(** [encodeGermanicChToK] returns and moves the cursor forward only. *)
Lemma good_encodeGermanicChToK : good encodeGermanicChToK.
Proof. unfold encodeGermanicChToK. good_tac. Qed.
#[local] Hint Resolve good_encodeGermanicChToK : good.

(** [encodeGreekChInitial] returns and moves the cursor forward only. *)
Lemma good_encodeGreekChInitial : good encodeGreekChInitial.
Proof. unfold encodeGreekChInitial. good_tac. Qed.
#[local] Hint Resolve good_encodeGreekChInitial : good.

(** [encodeGreekChNonInitial] returns and moves the cursor forward only. *)
Lemma good_encodeGreekChNonInitial : good encodeGreekChNonInitial.
Proof. unfold encodeGreekChNonInitial. good_tac. Qed.
#[local] Hint Resolve good_encodeGreekChNonInitial : good.

(** [encodeCh] returns for a cursor inside the word, and leaves it alone when the answer is false. *)
Lemma stepB_encodeCh : stepB encodeCh.
Proof.
  split.
  - unfold encodeCh. goodB_tac.
  - unfold encodeCh. keepsB_tac.
Qed.
#[local] Hint Resolve stepB_encodeCh : stepB.

Lemma goodB_encodeCh : goodB encodeCh.
Proof. apply stepB_encodeCh. Qed.
#[local] Hint Resolve goodB_encodeCh : goodB.

(** [encodeCcia] returns and moves the cursor forward only. *)
Lemma good_encodeCcia : good encodeCcia.
Proof. unfold encodeCcia. good_tac. Qed.
#[local] Hint Resolve good_encodeCcia : good.

(** [encodeCc] returns and moves the cursor forward only. *)
Lemma good_encodeCc : good encodeCc.
Proof. unfold encodeCc. good_tac. Qed.
#[local] Hint Resolve good_encodeCc : good.

(** [encodeCkCgCq] returns and moves the cursor forward only. *)
Lemma good_encodeCkCgCq : good encodeCkCgCq.
Proof. unfold encodeCkCgCq. good_tac. Qed.
#[local] Hint Resolve good_encodeCkCgCq : good.

(** [encodeBritishSilentCE] returns and moves the cursor forward only. *)
Lemma good_encodeBritishSilentCE : good encodeBritishSilentCE.
Proof. unfold encodeBritishSilentCE. good_tac. Qed.
#[local] Hint Resolve good_encodeBritishSilentCE : good.

(** [encodeCe] returns and moves the cursor forward only. *)
Lemma good_encodeCe : good encodeCe.
Proof. unfold encodeCe. good_tac. Qed.
#[local] Hint Resolve good_encodeCe : good.

(** [encodeCi] returns and moves the cursor forward only. *)
Lemma good_encodeCi : good encodeCi.
Proof. unfold encodeCi. good_tac. Qed.
#[local] Hint Resolve good_encodeCi : good.

(** [encodeLatinateSuffixes] returns and moves the cursor forward only. *)
Lemma good_encodeLatinateSuffixes : good encodeLatinateSuffixes.
Proof. unfold encodeLatinateSuffixes. good_tac. Qed.
#[local] Hint Resolve good_encodeLatinateSuffixes : good.

(** [encodeCFrontVowel] returns and moves the cursor forward only. *)
Lemma good_encodeCFrontVowel : good encodeCFrontVowel.
Proof. unfold encodeCFrontVowel. good_tac. Qed.
#[local] Hint Resolve good_encodeCFrontVowel : good.

(** [encodeSilentC] returns and moves the cursor forward only. *)
Lemma good_encodeSilentC : good encodeSilentC.
Proof. unfold encodeSilentC. good_tac. Qed.
#[local] Hint Resolve good_encodeSilentC : good.

(** [encodeCz] returns and moves the cursor forward only. *)
Lemma good_encodeCz : good encodeCz.
Proof. unfold encodeCz. good_tac. Qed.
#[local] Hint Resolve good_encodeCz : good.

(** [encodeCs] returns and moves the cursor forward only. *)
Lemma good_encodeCs : good encodeCs.
Proof. unfold encodeCs. good_tac. Qed.
#[local] Hint Resolve good_encodeCs : good.

(** [encodeC] returns for a cursor inside the word. *)
Lemma goodB_encodeC : goodB encodeC.
Proof. unfold encodeC. goodB_tac. Qed.
#[local] Hint Resolve goodB_encodeC : goodB.

(** [encodeDg] returns and moves the cursor forward only. *)
Lemma good_encodeDg : good encodeDg.
Proof. unfold encodeDg. good_tac. Qed.
#[local] Hint Resolve good_encodeDg : good.

(** [encodeDj] returns and moves the cursor forward only. *)
Lemma good_encodeDj : good encodeDj.
Proof. unfold encodeDj. good_tac. Qed.
#[local] Hint Resolve good_encodeDj : good.

(** [encodeDtDd] returns and moves the cursor forward only. *)
Lemma good_encodeDtDd : good encodeDtDd.
Proof. unfold encodeDtDd. good_tac. Qed.
#[local] Hint Resolve good_encodeDtDd : good.

(** [encodeDToJ] returns and moves the cursor forward only. *)
Lemma good_encodeDToJ : good encodeDToJ.
Proof. unfold encodeDToJ. good_tac. Qed.
#[local] Hint Resolve good_encodeDToJ : good.

(** [encodeDous] returns and moves the cursor forward only. *)
Lemma good_encodeDous : good encodeDous.
Proof. unfold encodeDous. good_tac. Qed.
#[local] Hint Resolve good_encodeDous : good.

(** [encodeSilentD] returns and moves the cursor forward only. *)
Lemma good_encodeSilentD : good encodeSilentD.
Proof. unfold encodeSilentD. good_tac. Qed.
#[local] Hint Resolve good_encodeSilentD : good.

(** [encodeD] returns and moves the cursor forward only. *)
Lemma good_encodeD : good encodeD.
Proof. unfold encodeD. good_tac. Qed.
#[local] Hint Resolve good_encodeD : good.

(** [encodeF] returns and moves the cursor forward only. *)
Lemma good_encodeF : good encodeF.
Proof. unfold encodeF. good_tac. Qed.
#[local] Hint Resolve good_encodeF : good.

(** [encodeG] returns and moves the cursor forward only. *)
Lemma good_encodeG : good encodeG.
Proof. unfold encodeG. good_tac. Qed.
#[local] Hint Resolve good_encodeG : good.

(** [encodeInitialSilentH] returns for a cursor inside the word, and leaves it alone when the answer is false. *)
Lemma stepB_encodeInitialSilentH : stepB encodeInitialSilentH.
Proof.
  split.
  - unfold encodeInitialSilentH. goodB_tac.
  - unfold encodeInitialSilentH. keepsB_tac.
Qed.
#[local] Hint Resolve stepB_encodeInitialSilentH : stepB.

Lemma goodB_encodeInitialSilentH : goodB encodeInitialSilentH.
Proof. apply stepB_encodeInitialSilentH. Qed.
#[local] Hint Resolve goodB_encodeInitialSilentH : goodB.

(** [encodeInitialHs] returns and moves the cursor forward only. *)
Lemma good_encodeInitialHs : good encodeInitialHs.
Proof. unfold encodeInitialHs. good_tac. Qed.
#[local] Hint Resolve good_encodeInitialHs : good.

(** [encodeInitialHuHw] returns and moves the cursor forward only. *)
Lemma good_encodeInitialHuHw : good encodeInitialHuHw.
Proof. unfold encodeInitialHuHw. good_tac. Qed.
#[local] Hint Resolve good_encodeInitialHuHw : good.

(** [encodeNonInitialSilentH] returns for a cursor inside the word, and leaves it alone when the answer is false. *)
Lemma stepB_encodeNonInitialSilentH : stepB encodeNonInitialSilentH.
Proof.
  split.
  - unfold encodeNonInitialSilentH. goodB_tac.
  - unfold encodeNonInitialSilentH. keepsB_tac.
Qed.
#[local] Hint Resolve stepB_encodeNonInitialSilentH : stepB.

Lemma goodB_encodeNonInitialSilentH : goodB encodeNonInitialSilentH.
Proof. apply stepB_encodeNonInitialSilentH. Qed.
#[local] Hint Resolve goodB_encodeNonInitialSilentH : goodB.

(** [encodeHPronounced] returns and moves the cursor forward only. *)
Lemma good_encodeHPronounced : good encodeHPronounced.
Proof. unfold encodeHPronounced. good_tac. Qed.
#[local] Hint Resolve good_encodeHPronounced : good.

(** [encodeH] returns for a cursor inside the word. *)
Lemma goodB_encodeH : goodB encodeH.
Proof. unfold encodeH. goodB_tac. Qed.
#[local] Hint Resolve goodB_encodeH : goodB.

(** [encodeSpanishJ] returns and moves the cursor forward only. *)
Lemma good_encodeSpanishJ : good encodeSpanishJ.
Proof. unfold encodeSpanishJ. good_tac. Qed.
#[local] Hint Resolve good_encodeSpanishJ : good.

(** [encodeSpanishOjUj] returns and moves the cursor forward only. *)
Lemma good_encodeSpanishOjUj : good encodeSpanishOjUj.
Proof. unfold encodeSpanishOjUj. good_tac. Qed.
#[local] Hint Resolve good_encodeSpanishOjUj : good.

(** [encodeGermanJ] returns and moves the cursor forward only. *)
Lemma good_encodeGermanJ : good encodeGermanJ.
Proof. unfold encodeGermanJ. good_tac. Qed.
#[local] Hint Resolve good_encodeGermanJ : good.

(** [namesBeginningWithJThatGetAltY] returns and moves the cursor forward only. *)
Lemma good_namesBeginningWithJThatGetAltY : good namesBeginningWithJThatGetAltY.
Proof. unfold namesBeginningWithJThatGetAltY. good_tac. Qed.
#[local] Hint Resolve good_namesBeginningWithJThatGetAltY : good.

(** [encodeJToJ] returns for a cursor inside the word. *)
Lemma goodB_encodeJToJ : goodB encodeJToJ.
Proof. unfold encodeJToJ. goodB_tac. Qed.
#[local] Hint Resolve goodB_encodeJToJ : goodB.

(** [encodeSpanishJ2] returns and moves the cursor forward only. *)
Lemma good_encodeSpanishJ2 : good encodeSpanishJ2.
Proof. unfold encodeSpanishJ2. good_tac. Qed.
#[local] Hint Resolve good_encodeSpanishJ2 : good.

(** [encodeJAsVowel] returns and moves the cursor forward only. *)
Lemma good_encodeJAsVowel : good encodeJAsVowel.
Proof. unfold encodeJAsVowel. good_tac. Qed.
#[local] Hint Resolve good_encodeJAsVowel : good.

(** [encodeJ] returns for a cursor inside the word. *)
Lemma goodB_encodeJ : goodB encodeJ.
Proof. unfold encodeJ. goodB_tac. Qed.
#[local] Hint Resolve goodB_encodeJ : goodB.

(** [encodeSilentK] returns and moves the cursor forward only. *)
Lemma good_encodeSilentK : good encodeSilentK.
Proof. unfold encodeSilentK. good_tac. Qed.
#[local] Hint Resolve good_encodeSilentK : good.

(** [encodeK] returns and moves the cursor forward only. *)
Lemma good_encodeK : good encodeK.
Proof. unfold encodeK. good_tac. Qed.
#[local] Hint Resolve good_encodeK : good.

(** [interpolateVowelWhenConsLAtEnd] returns and moves the cursor forward only. *)
Lemma good_interpolateVowelWhenConsLAtEnd : good interpolateVowelWhenConsLAtEnd.
Proof. unfold interpolateVowelWhenConsLAtEnd. good_tac. Qed.
#[local] Hint Resolve good_interpolateVowelWhenConsLAtEnd : good.

(** [encodeLelyToL] returns and moves the cursor forward only. *)
Lemma good_encodeLelyToL : good encodeLelyToL.
Proof. unfold encodeLelyToL. good_tac. Qed.
#[local] Hint Resolve good_encodeLelyToL : good.

(** [encodeColonel] returns and moves the cursor forward only. *)
Lemma good_encodeColonel : good encodeColonel.
Proof. unfold encodeColonel. good_tac. Qed.
#[local] Hint Resolve good_encodeColonel : good.

(** [encodeFrenchAult] returns and moves the cursor forward only. *)
Lemma good_encodeFrenchAult : good encodeFrenchAult.
Proof. unfold encodeFrenchAult. good_tac. Qed.
#[local] Hint Resolve good_encodeFrenchAult : good.

(** [encodeFrenchEuil] returns and moves the cursor forward only. *)
Lemma good_encodeFrenchEuil : good encodeFrenchEuil.
Proof. unfold encodeFrenchEuil. good_tac. Qed.
#[local] Hint Resolve good_encodeFrenchEuil : good.

(** [encodeFrenchOulx] returns and moves the cursor forward only. *)
Lemma good_encodeFrenchOulx : good encodeFrenchOulx.
Proof. unfold encodeFrenchOulx. good_tac. Qed.
#[local] Hint Resolve good_encodeFrenchOulx : good.

(** [encodeSilentLInLm] returns and moves the cursor forward only. *)
Lemma good_encodeSilentLInLm : good encodeSilentLInLm.
Proof. unfold encodeSilentLInLm. good_tac. Qed.
#[local] Hint Resolve good_encodeSilentLInLm : good.

(** [encodeSilentLInLkLv] returns and moves the cursor forward only. *)
Lemma good_encodeSilentLInLkLv : good encodeSilentLInLkLv.
Proof. unfold encodeSilentLInLkLv. good_tac. Qed.
#[local] Hint Resolve good_encodeSilentLInLkLv : good.

(** [encodeSilentLInOuld] returns and moves the cursor forward only. *)
Lemma good_encodeSilentLInOuld : good encodeSilentLInOuld.
Proof. unfold encodeSilentLInOuld. good_tac. Qed.
#[local] Hint Resolve good_encodeSilentLInOuld : good.

(** [encodeLlAsVowelSpecialCases] returns and moves the cursor forward only. *)
Lemma good_encodeLlAsVowelSpecialCases : good encodeLlAsVowelSpecialCases.
Proof. unfold encodeLlAsVowelSpecialCases. good_tac. Qed.
#[local] Hint Resolve good_encodeLlAsVowelSpecialCases : good.

(** [encodeLlAsVowel] returns and moves the cursor forward only. *)
Lemma good_encodeLlAsVowel : good encodeLlAsVowel.
Proof. unfold encodeLlAsVowel. good_tac. Qed.
#[local] Hint Resolve good_encodeLlAsVowel : good.

(** [encodeLlAsVowelCases] returns and moves the cursor forward only. *)
Lemma good_encodeLlAsVowelCases : good encodeLlAsVowelCases.
Proof. unfold encodeLlAsVowelCases. good_tac. Qed.
#[local] Hint Resolve good_encodeLlAsVowelCases : good.

(** When [encodeLlAsVowelCases] answers false the cursor has moved by
    at most one rune (the second L of a double L). *)
Lemma encodeLlAsVowelCases_cursor (s s' : Encoder) :
  wf s -> encodeLlAsVowelCases s = Ok (false, s') ->
  s.(idx) <= s'.(idx) <= s.(idx) + 1 /\ ext s s'.
Proof.
  intros W E.
  assert (K1 : keeps encodeLlAsVowelSpecialCases) by (unfold encodeLlAsVowelSpecialCases; keeps_tac).
  assert (K2 : keeps encodeLlAsVowel) by (unfold encodeLlAsVowel; keeps_tac).
  unfold encodeLlAsVowelCases in E.
  destruct (rd_charNextIs (rn "L") s W) as [b1 H1].
  rewrite (ifM_eq _ _ _ H1) in E. destruct b1.
  2: { cbv [ret] in E. injection E as <-. split; [lia|apply ext_refl]. }
  destruct (good_encodeLlAsVowelSpecialCases s W) as (b2 & s2 & H2 & X2).
  rewrite (ifM_eq _ _ _ H2) in E. destruct b2; [discriminate E|].
  pose proof (K1 s s2 W H2) as I2. pose proof (wf_ext _ _ W X2) as W2.
  destruct (good_encodeLlAsVowel s2 W2) as (b3 & s3 & H3 & X3).
  rewrite (ifM_eq _ _ _ H3) in E. destruct b3; [discriminate E|].
  pose proof (K2 s2 s3 W2 H3) as I3.
  cbv [bind incIdx addIdx modify ret] in E. injection E as <-.
  split; [simpl; lia|].
  apply (ext_trans _ _ _ X2), (ext_trans _ _ _ X3).
  unfold ext; simpl. repeat split; lia.
Qed.

Lemma andM_false_l (a b : M bool) (s : Encoder) :
  a s = Ok (false, s) -> (a &&& b) s = Ok (false, s).
Proof. intro H. unfold andM. rewrite (bind_eq _ _ _ H). reflexivity. Qed.

(** [encodeVowelLeTransposition idx] is called with the cursor at
    [idx] or one past it.  It looks behind the cursor only after the
    test [idx > 1]; it may set the cursor to [idx + 2]; and a false
    answer leaves the encoder as it was. *)
Lemma encodeVowelLeTransposition_ok (idx' : Z) (s : Encoder) :
  wf s -> idx' <= s.(idx) <= idx' + 2 ->
  exists b s', encodeVowelLeTransposition idx' s = Ok (b, s') /\ ext s s' /\
               (b = false -> s' = s).
Proof.
  intros W Bd. unfold encodeVowelLeTransposition.
  rewrite (bind_eq (get _) _ s (a := idx s - idx') (s' := s) eq_refl).
  destruct (EncodeVowels s && (idx' >? 1)) eqn:Hev.
  - apply andb_prop in Hev. destruct Hev as [_ Hi]. apply Z.gtb_lt in Hi.
    pose proof W as (W0 & _).
    match goal with
    | |- context [ifM ?c ?t ?f s] => assert (Hc : reads c s) by (repeat reads_step; lia)
    end.
    destruct Hc as [b Hb]. rewrite (ifM_eq _ _ _ Hb). destruct b.
    + destruct (good_metaphAddStr "AL" "AL" s W) as ([] & s1 & E1 & X1).
      pose proof (keepsIdx_metaphAddStr _ _ s tt s1 W E1) as I1.
      rewrite (bind_eq _ _ _ E1).
      rewrite (bind_eq (setFlagAlInversion true) _ s1 (a := tt)
                 (s' := set_flagAlInversion true s1) eq_refl).
      set (s2 := set_flagAlInversion true s1).
      destruct (charAt_ok (idx s - idx' + 2) (rn "L") s2) as [b' Hb'];
        [unfold s2; simpl; lia|].
      set (s3 := if b' then set_idx (idx' + 2) s2 else s2).
      assert (E3 : whenM (charAt (idx s - idx' + 2) (rn "L")) (setIdx (idx' + 2)) s2
                   = Ok (tt, s3)).
      { unfold whenM. rewrite (ifM_eq _ _ _ Hb'). unfold s3. destruct b'; reflexivity. }
      rewrite (bind_eq _ _ _ E3).
      exists true, s3. split; [reflexivity|]. split; [|discriminate].
      apply (ext_trans _ _ _ X1).
      unfold s3, s2, ext. destruct b'; simpl; repeat split; lia.
    + exists false, s. split; [reflexivity|]. split; [apply ext_refl|reflexivity].
  - match goal with
    | |- context [ifM ?c ?t ?f s] => assert (Hc : c s = Ok (false, s))
    end.
    { repeat apply andM_false_l. unfold test, get. rewrite Hev. reflexivity. }
    rewrite (ifM_eq _ _ _ Hc).
    exists false, s. split; [reflexivity|]. split; [apply ext_refl|reflexivity].
Qed.

(** [encodeVowelPreserveVowelAfterL idx] reads the rune at [idx + 1]
    and, when it answers true, skips the vowels after the cursor. *)
Lemma encodeVowelPreserveVowelAfterL_ok (idx' : Z) (s : Encoder) :
  wf s -> 0 <= idx' -> s.(idx) <= lenIn s ->
  runs (encodeVowelPreserveVowelAfterL idx') s.
Proof.
  intros W I Bd. unfold encodeVowelPreserveVowelAfterL.
  apply runs_get_bind. pose proof W as (W0 & _).
  apply runs_ifM_reads; [repeat reads_step; lia|intros _|intros _].
  - assert (G : goodB (metaphAddStr "LA" "LA" ;;
                       assignIdx (withE (fun e => skipVowels (e.(idx) + 1))) ;;
                       ret true)) by goodB_tac.
    apply G; assumption.
  - apply good_ret, W.
Qed.

(** [encodeLeCases idx], called with the cursor at [idx] or one past
    it and inside the word, returns. *)
Lemma encodeLeCases_ok (idx' : Z) (s : Encoder) :
  wf s -> 0 <= idx' -> idx' <= s.(idx) <= idx' + 1 -> s.(idx) <= lenIn s ->
  runs (encodeLeCases idx') s.
Proof.
  intros W I Bd L. unfold encodeLeCases.
  destruct (encodeVowelLeTransposition_ok idx' s W) as (b & s1 & E1 & X1 & F1); [lia|].
  apply runs_ifM; [exists b, s1; split; assumption|intros s' E _|intros s' E _].
  - apply good_ret. rewrite E in E1. injection E1 as _ <-. exact (wf_ext _ _ W X1).
  - rewrite E in E1. injection E1 as <- <-. rewrite (F1 eq_refl).
    apply runs_ifM; [apply encodeVowelPreserveVowelAfterL_ok; assumption| |];
      intros s2 _ X2; pose proof (wf_ext _ _ W X2) as W2.
    + apply good_ret, W2.
    + apply good_metaphAdd, W2.
Qed.

(** [encodeL] returns when the cursor is on a rune of the word. *)
Lemma encodeL_ok (s : Encoder) :
  wf s -> s.(idx) < lenIn s -> runs encodeL s.
Proof.
  intros W L. unfold encodeL. apply runs_get_bind. pose proof W as (W0 & _).
  assert (K0 : keepsIdx interpolateVowelWhenConsLAtEnd)
    by (unfold interpolateVowelWhenConsLAtEnd; keepsIdx_tac).
  apply runs_bind; [apply good_interpolateVowelWhenConsLAtEnd, W|].
  intros [] s1 E1 X1. pose proof (wf_ext _ _ W X1) as W1.
  pose proof (K0 s tt s1 W E1) as I1.
  match goal with
  | |- runs (ifM ?c _ _) _ =>
      assert (G : good c) by good_tac; assert (K : keeps c) by keeps_tac
  end.
  apply runs_ifM; [apply G, W1|intros s2 _ X2|intros s2 E2 X2];
    pose proof (wf_ext _ _ W1 X2) as W2.
  - apply good_ret, W2.
  - pose proof (K s1 s2 W1 E2) as I2.
    apply runs_ifM; [apply good_encodeLlAsVowelCases, W2|intros s3 _ X3|intros s3 E3 _].
    + apply good_ret. exact (wf_ext _ _ W2 X3).
    + destruct (encodeLlAsVowelCases_cursor s2 s3 W2 E3) as (I3 & X3).
      pose proof (lenIn_ext _ _ X1). pose proof (lenIn_ext _ _ X2).
      pose proof (lenIn_ext _ _ X3).
      apply encodeLeCases_ok; [exact (wf_ext _ _ W2 X3)|lia..].
Qed.

(** [encodeSilentMAtBeginning] returns and moves the cursor forward only. *)
Lemma good_encodeSilentMAtBeginning : good encodeSilentMAtBeginning.
Proof. unfold encodeSilentMAtBeginning. good_tac. Qed.
#[local] Hint Resolve good_encodeSilentMAtBeginning : good.

(** [encodeMrAndMrs] returns and moves the cursor forward only. *)
Lemma good_encodeMrAndMrs : good encodeMrAndMrs.
Proof. unfold encodeMrAndMrs. good_tac. Qed.
#[local] Hint Resolve good_encodeMrAndMrs : good.

(** [encodeMac] returns and moves the cursor forward only. *)
Lemma good_encodeMac : good encodeMac.
Proof. unfold encodeMac. good_tac. Qed.
#[local] Hint Resolve good_encodeMac : good.

(** [encodeMpt] returns and moves the cursor forward only. *)
Lemma good_encodeMpt : good encodeMpt.
Proof. unfold encodeMpt. good_tac. Qed.
#[local] Hint Resolve good_encodeMpt : good.

(** [testSilentMb1] returns and moves the cursor forward only. *)
Lemma good_testSilentMb1 : good testSilentMb1.
Proof. unfold testSilentMb1. good_tac. Qed.
#[local] Hint Resolve good_testSilentMb1 : good.

(** [testPronouncedMb] returns and moves the cursor forward only. *)
Lemma good_testPronouncedMb : good testPronouncedMb.
Proof. unfold testPronouncedMb. good_tac. Qed.
#[local] Hint Resolve good_testPronouncedMb : good.

(** [testSilentMb2] returns and moves the cursor forward only. *)
Lemma good_testSilentMb2 : good testSilentMb2.
Proof. unfold testSilentMb2. good_tac. Qed.
#[local] Hint Resolve good_testSilentMb2 : good.

(** [testPronouncedMb2] returns and moves the cursor forward only. *)
Lemma good_testPronouncedMb2 : good testPronouncedMb2.
Proof. unfold testPronouncedMb2. good_tac. Qed.
#[local] Hint Resolve good_testPronouncedMb2 : good.

(** [testMn] returns and moves the cursor forward only. *)
Lemma good_testMn : good testMn.
Proof. unfold testMn. good_tac. Qed.
#[local] Hint Resolve good_testMn : good.

(** [encodeMb] returns and moves the cursor forward only. *)
Lemma good_encodeMb : good encodeMb.
Proof. unfold encodeMb. good_tac. Qed.
#[local] Hint Resolve good_encodeMb : good.

(** [encodeM] returns and moves the cursor forward only. *)
Lemma good_encodeM : good encodeM.
Proof. unfold encodeM. good_tac. Qed.
#[local] Hint Resolve good_encodeM : good.

(** [encodeNce] returns and moves the cursor forward only. *)
Lemma good_encodeNce : good encodeNce.
Proof. unfold encodeNce. good_tac. Qed.
#[local] Hint Resolve good_encodeNce : good.

(** [encodeN] returns and moves the cursor forward only. *)
Lemma good_encodeN : good encodeN.
Proof. unfold encodeN. good_tac. Qed.
#[local] Hint Resolve good_encodeN : good.

(** [encodeSilentPAtBeginning] returns and moves the cursor forward only. *)
Lemma good_encodeSilentPAtBeginning : good encodeSilentPAtBeginning.
Proof. unfold encodeSilentPAtBeginning. good_tac. Qed.
#[local] Hint Resolve good_encodeSilentPAtBeginning : good.

(** [encodePt] returns and moves the cursor forward only. *)
Lemma good_encodePt : good encodePt.
Proof. unfold encodePt. good_tac. Qed.
#[local] Hint Resolve good_encodePt : good.

(** [encodePh] returns and moves the cursor forward only. *)
Lemma good_encodePh : good encodePh.
Proof. unfold encodePh. good_tac. Qed.
#[local] Hint Resolve good_encodePh : good.

(** [encodePph] returns and moves the cursor forward only. *)
Lemma good_encodePph : good encodePph.
Proof. unfold encodePph. good_tac. Qed.
#[local] Hint Resolve good_encodePph : good.

(** [encodeRps] returns and moves the cursor forward only. *)
Lemma good_encodeRps : good encodeRps.
Proof. unfold encodeRps. good_tac. Qed.
#[local] Hint Resolve good_encodeRps : good.

(** [encodeCoup] returns and moves the cursor forward only. *)
Lemma good_encodeCoup : good encodeCoup.
Proof. unfold encodeCoup. good_tac. Qed.
#[local] Hint Resolve good_encodeCoup : good.

(** [encodePneum] returns and moves the cursor forward only. *)
Lemma good_encodePneum : good encodePneum.
Proof. unfold encodePneum. good_tac. Qed.
#[local] Hint Resolve good_encodePneum : good.

(** [encodePsych] returns and moves the cursor forward only. *)
Lemma good_encodePsych : good encodePsych.
Proof. unfold encodePsych. good_tac. Qed.
#[local] Hint Resolve good_encodePsych : good.

(** [encodePsalm] returns and moves the cursor forward only. *)
Lemma good_encodePsalm : good encodePsalm.
Proof. unfold encodePsalm. good_tac. Qed.
#[local] Hint Resolve good_encodePsalm : good.

(** [encodePb] returns and moves the cursor forward only. *)
Lemma good_encodePb : good encodePb.
Proof. unfold encodePb. good_tac. Qed.
#[local] Hint Resolve good_encodePb : good.

(** [encodeP] returns and moves the cursor forward only. *)
Lemma good_encodeP : good encodeP.
Proof. unfold encodeP. good_tac. Qed.
#[local] Hint Resolve good_encodeP : good.

(** [encodeQ] returns and moves the cursor forward only. *)
Lemma good_encodeQ : good encodeQ.
Proof. unfold encodeQ. good_tac. Qed.
#[local] Hint Resolve good_encodeQ : good.

(** [encodeRz] returns and moves the cursor forward only. *)
Lemma good_encodeRz : good encodeRz.
Proof. unfold encodeRz. good_tac. Qed.
#[local] Hint Resolve good_encodeRz : good.

(** [testSilentR] returns and moves the cursor forward only. *)
Lemma good_testSilentR : good testSilentR.
Proof. unfold testSilentR. good_tac. Qed.
#[local] Hint Resolve good_testSilentR : good.

(** [encodeVowelReTransposition] returns and moves the cursor forward only. *)
Lemma good_encodeVowelReTransposition : good encodeVowelReTransposition.
Proof. unfold encodeVowelReTransposition. good_tac. Qed.
#[local] Hint Resolve good_encodeVowelReTransposition : good.

(** [encodeR] returns and moves the cursor forward only. *)
Lemma good_encodeR : good encodeR.
Proof. unfold encodeR. good_tac. Qed.
#[local] Hint Resolve good_encodeR : good.

(** [encodeSkj] returns and moves the cursor forward only. *)
Lemma good_encodeSkj : good encodeSkj.
Proof. unfold encodeSkj. good_tac. Qed.
#[local] Hint Resolve good_encodeSkj : good.

(** [namesBeginningWithSwThatGetAltSv] returns and moves the cursor forward only. *)
Lemma good_namesBeginningWithSwThatGetAltSv : good namesBeginningWithSwThatGetAltSv.
Proof. unfold namesBeginningWithSwThatGetAltSv. good_tac. Qed.
#[local] Hint Resolve good_namesBeginningWithSwThatGetAltSv : good.

(** [namesBeginningWithSwThatGetAlvXV] returns and moves the cursor forward only. *)
Lemma good_namesBeginningWithSwThatGetAlvXV : good namesBeginningWithSwThatGetAlvXV.
Proof. unfold namesBeginningWithSwThatGetAlvXV. good_tac. Qed.
#[local] Hint Resolve good_namesBeginningWithSwThatGetAlvXV : good.

(** [encodeSpecialSw] returns and moves the cursor forward only. *)
Lemma good_encodeSpecialSw : good encodeSpecialSw.
Proof. unfold encodeSpecialSw. good_tac. Qed.
#[local] Hint Resolve good_encodeSpecialSw : good.

(** [encodeSj] returns and moves the cursor forward only. *)
Lemma good_encodeSj : good encodeSj.
Proof. unfold encodeSj. good_tac. Qed.
#[local] Hint Resolve good_encodeSj : good.

(** [encodeSilentFrenchSFinal] returns and moves the cursor forward only. *)
Lemma good_encodeSilentFrenchSFinal : good encodeSilentFrenchSFinal.
Proof. unfold encodeSilentFrenchSFinal. good_tac. Qed.
#[local] Hint Resolve good_encodeSilentFrenchSFinal : good.

(** [encodeSilentFrenchSInternal] returns and moves the cursor forward only. *)
Lemma good_encodeSilentFrenchSInternal : good encodeSilentFrenchSInternal.
Proof. unfold encodeSilentFrenchSInternal. good_tac. Qed.
#[local] Hint Resolve good_encodeSilentFrenchSInternal : good.

(** [encodeIsl] returns and moves the cursor forward only. *)
Lemma good_encodeIsl : good encodeIsl.
Proof. unfold encodeIsl. good_tac. Qed.
#[local] Hint Resolve good_encodeIsl : good.

(** [encodeStl] returns and moves the cursor forward only. *)
Lemma good_encodeStl : good encodeStl.
Proof. unfold encodeStl. good_tac. Qed.
#[local] Hint Resolve good_encodeStl : good.

(** [encodeChristmas] returns and moves the cursor forward only. *)
Lemma good_encodeChristmas : good encodeChristmas.
Proof. unfold encodeChristmas. good_tac. Qed.
#[local] Hint Resolve good_encodeChristmas : good.

(** [encodeSthm] returns and moves the cursor forward only. *)
Lemma good_encodeSthm : good encodeSthm.
Proof. unfold encodeSthm. good_tac. Qed.
#[local] Hint Resolve good_encodeSthm : good.

(** [encodeIsten] returns and moves the cursor forward only. *)
Lemma good_encodeIsten : good encodeIsten.
Proof. unfold encodeIsten. good_tac. Qed.
#[local] Hint Resolve good_encodeIsten : good.

(** [encodeSugar] returns and moves the cursor forward only. *)
Lemma good_encodeSugar : good encodeSugar.
Proof. unfold encodeSugar. good_tac. Qed.
#[local] Hint Resolve good_encodeSugar : good.

(** [encodeSh] returns and moves the cursor forward only. *)
Lemma good_encodeSh : good encodeSh.
Proof. unfold encodeSh. good_tac. Qed.
#[local] Hint Resolve good_encodeSh : good.

(** [encodeSch] returns and moves the cursor forward only. *)
Lemma good_encodeSch : good encodeSch.
Proof. unfold encodeSch. good_tac. Qed.
#[local] Hint Resolve good_encodeSch : good.

(** [encodeSur] returns and moves the cursor forward only. *)
Lemma good_encodeSur : good encodeSur.
Proof. unfold encodeSur. good_tac. Qed.
#[local] Hint Resolve good_encodeSur : good.

(** [encodeSu] returns and moves the cursor forward only. *)
Lemma good_encodeSu : good encodeSu.
Proof. unfold encodeSu. good_tac. Qed.
#[local] Hint Resolve good_encodeSu : good.

(** [encodeSsio] returns and moves the cursor forward only. *)
Lemma good_encodeSsio : good encodeSsio.
Proof. unfold encodeSsio. good_tac. Qed.
#[local] Hint Resolve good_encodeSsio : good.

(** [encodeSs] returns and moves the cursor forward only. *)
Lemma good_encodeSs : good encodeSs.
Proof. unfold encodeSs. good_tac. Qed.
#[local] Hint Resolve good_encodeSs : good.

(** [encodeSia] returns and moves the cursor forward only. *)
Lemma good_encodeSia : good encodeSia.
Proof. unfold encodeSia. good_tac. Qed.
#[local] Hint Resolve good_encodeSia : good.

(** [encodeSio] returns and moves the cursor forward only. *)
Lemma good_encodeSio : good encodeSio.
Proof. unfold encodeSio. good_tac. Qed.
#[local] Hint Resolve good_encodeSio : good.

(** [encodeAnglicisations] returns and moves the cursor forward only. *)
Lemma good_encodeAnglicisations : good encodeAnglicisations.
Proof. unfold encodeAnglicisations. good_tac. Qed.
#[local] Hint Resolve good_encodeAnglicisations : good.

(** [encodeSc] returns and moves the cursor forward only. *)
Lemma good_encodeSc : good encodeSc.
Proof. unfold encodeSc. good_tac. Qed.
#[local] Hint Resolve good_encodeSc : good.

(** [encodeSeiSuiSier] returns and moves the cursor forward only. *)
Lemma good_encodeSeiSuiSier : good encodeSeiSuiSier.
Proof. unfold encodeSeiSuiSier. good_tac. Qed.
#[local] Hint Resolve good_encodeSeiSuiSier : good.

(** [encodeSea] returns and moves the cursor forward only. *)
Lemma good_encodeSea : good encodeSea.
Proof. unfold encodeSea. good_tac. Qed.
#[local] Hint Resolve good_encodeSea : good.

(** [encodeS] returns and moves the cursor forward only. *)
Lemma good_encodeS : good encodeS.
Proof. unfold encodeS. good_tac. Qed.
#[local] Hint Resolve good_encodeS : good.

(** [encodeTInitial] returns and moves the cursor forward only. *)
Lemma good_encodeTInitial : good encodeTInitial.
Proof. unfold encodeTInitial. good_tac. Qed.
#[local] Hint Resolve good_encodeTInitial : good.

(** [encodeTch] returns and moves the cursor forward only. *)
Lemma good_encodeTch : good encodeTch.
Proof. unfold encodeTch. good_tac. Qed.
#[local] Hint Resolve good_encodeTch : good.

(** [encodeSilentFrenchT] returns and moves the cursor forward only. *)
Lemma good_encodeSilentFrenchT : good encodeSilentFrenchT.
Proof. unfold encodeSilentFrenchT. good_tac. Qed.
#[local] Hint Resolve good_encodeSilentFrenchT : good.

(** [encodeTunTulTuaTuo] returns and moves the cursor forward only. *)
Lemma good_encodeTunTulTuaTuo : good encodeTunTulTuaTuo.
Proof. unfold encodeTunTulTuaTuo. good_tac. Qed.
#[local] Hint Resolve good_encodeTunTulTuaTuo : good.

(** [encodeTueTeuTeouTulTie] returns and moves the cursor forward only. *)
Lemma good_encodeTueTeuTeouTulTie : good encodeTueTeuTeouTulTie.
Proof. unfold encodeTueTeuTeouTulTie. good_tac. Qed.
#[local] Hint Resolve good_encodeTueTeuTeouTulTie : good.

(** [encodeTurTiuSuffixes] returns and moves the cursor forward only. *)
Lemma good_encodeTurTiuSuffixes : good encodeTurTiuSuffixes.
Proof. unfold encodeTurTiuSuffixes. good_tac. Qed.
#[local] Hint Resolve good_encodeTurTiuSuffixes : good.

(** [encodeTi] returns and moves the cursor forward only. *)
Lemma good_encodeTi : good encodeTi.
Proof. unfold encodeTi. good_tac. Qed.
#[local] Hint Resolve good_encodeTi : good.

(** [encodeTient] returns and moves the cursor forward only. *)
Lemma good_encodeTient : good encodeTient.
Proof. unfold encodeTient. good_tac. Qed.
#[local] Hint Resolve good_encodeTient : good.

(** [encodeTsch] returns and moves the cursor forward only. *)
Lemma good_encodeTsch : good encodeTsch.
Proof. unfold encodeTsch. good_tac. Qed.
#[local] Hint Resolve good_encodeTsch : good.

(** [encodeTzsch] returns and moves the cursor forward only. *)
Lemma good_encodeTzsch : good encodeTzsch.
Proof. unfold encodeTzsch. good_tac. Qed.
#[local] Hint Resolve good_encodeTzsch : good.

(** [encodeThPronouncedSeparately] returns and moves the cursor forward only. *)
Lemma good_encodeThPronouncedSeparately : good encodeThPronouncedSeparately.
Proof. unfold encodeThPronouncedSeparately. good_tac. Qed.
#[local] Hint Resolve good_encodeThPronouncedSeparately : good.

(** [encodeTth] returns and moves the cursor forward only. *)
Lemma good_encodeTth : good encodeTth.
Proof. unfold encodeTth. good_tac. Qed.
#[local] Hint Resolve good_encodeTth : good.

(** [encodeTh] returns and moves the cursor forward only. *)
Lemma good_encodeTh : good encodeTh.
Proof. unfold encodeTh. good_tac. Qed.
#[local] Hint Resolve good_encodeTh : good.

(** [encodeT] returns and moves the cursor forward only. *)
Lemma good_encodeT : good encodeT.
Proof. unfold encodeT. good_tac. Qed.
#[local] Hint Resolve good_encodeT : good.

(** [encodeV] returns and moves the cursor forward only. *)
Lemma good_encodeV : good encodeV.
Proof. unfold encodeV. good_tac. Qed.
#[local] Hint Resolve good_encodeV : good.

(** [encodeSilentWAtBeginning] returns and moves the cursor forward only. *)
Lemma good_encodeSilentWAtBeginning : good encodeSilentWAtBeginning.
Proof. unfold encodeSilentWAtBeginning. good_tac. Qed.
#[local] Hint Resolve good_encodeSilentWAtBeginning : good.

(** [encodeWitzWicz] returns and moves the cursor forward only. *)
Lemma good_encodeWitzWicz : good encodeWitzWicz.
Proof. unfold encodeWitzWicz. good_tac. Qed.
#[local] Hint Resolve good_encodeWitzWicz : good.

(** [encodeWr] returns and moves the cursor forward only. *)
Lemma good_encodeWr : good encodeWr.
Proof. unfold encodeWr. good_tac. Qed.
#[local] Hint Resolve good_encodeWr : good.

(** [germanicOrSlavicNameBeginningWithW] returns and moves the cursor forward only. *)
Lemma good_germanicOrSlavicNameBeginningWithW : good germanicOrSlavicNameBeginningWithW.
Proof. unfold germanicOrSlavicNameBeginningWithW. good_tac. Qed.
#[local] Hint Resolve good_germanicOrSlavicNameBeginningWithW : good.

(** [encodeInitialWVowel] returns for a cursor inside the word, and leaves it alone when the answer is false. *)
Lemma stepB_encodeInitialWVowel : stepB encodeInitialWVowel.
Proof.
  split.
  - unfold encodeInitialWVowel. goodB_tac.
  - unfold encodeInitialWVowel. keepsB_tac.
Qed.
#[local] Hint Resolve stepB_encodeInitialWVowel : stepB.

Lemma goodB_encodeInitialWVowel : goodB encodeInitialWVowel.
Proof. apply stepB_encodeInitialWVowel. Qed.
#[local] Hint Resolve goodB_encodeInitialWVowel : goodB.

(** [encodeWh] returns for a cursor inside the word, and leaves it alone when the answer is false. *)
Lemma stepB_encodeWh : stepB encodeWh.
Proof.
  split.
  - unfold encodeWh. goodB_tac.
  - unfold encodeWh. keepsB_tac.
Qed.
#[local] Hint Resolve stepB_encodeWh : stepB.

Lemma goodB_encodeWh : goodB encodeWh.
Proof. apply stepB_encodeWh. Qed.
#[local] Hint Resolve goodB_encodeWh : goodB.

(** [encodeEasternEuropeanW] returns and moves the cursor forward only. *)
Lemma good_encodeEasternEuropeanW : good encodeEasternEuropeanW.
Proof. unfold encodeEasternEuropeanW. good_tac. Qed.
#[local] Hint Resolve good_encodeEasternEuropeanW : good.

(** [encodeW] returns for a cursor inside the word. *)
Lemma goodB_encodeW : goodB encodeW.
Proof. unfold encodeW. goodB_tac. Qed.
#[local] Hint Resolve goodB_encodeW : goodB.

(** [encodeInitialX] returns and moves the cursor forward only. *)
Lemma good_encodeInitialX : good encodeInitialX.
Proof. unfold encodeInitialX. good_tac. Qed.
#[local] Hint Resolve good_encodeInitialX : good.

(** [encodeGreekX] returns and moves the cursor forward only. *)
Lemma good_encodeGreekX : good encodeGreekX.
Proof. unfold encodeGreekX. good_tac. Qed.
#[local] Hint Resolve good_encodeGreekX : good.

(** [encodeXSpecialCases] returns and moves the cursor forward only. *)
Lemma good_encodeXSpecialCases : good encodeXSpecialCases.
Proof. unfold encodeXSpecialCases. good_tac. Qed.
#[local] Hint Resolve good_encodeXSpecialCases : good.

(** [encodeXToH] returns and moves the cursor forward only. *)
Lemma good_encodeXToH : good encodeXToH.
Proof. unfold encodeXToH. good_tac. Qed.
#[local] Hint Resolve good_encodeXToH : good.

(** [encodeXVowel] returns and moves the cursor forward only. *)
Lemma good_encodeXVowel : good encodeXVowel.
Proof. unfold encodeXVowel. good_tac. Qed.
#[local] Hint Resolve good_encodeXVowel : good.

(** [encodeFrenchXFinal] returns and moves the cursor forward only. *)
Lemma good_encodeFrenchXFinal : good encodeFrenchXFinal.
Proof. unfold encodeFrenchXFinal. good_tac. Qed.
#[local] Hint Resolve good_encodeFrenchXFinal : good.

(** [encodeX] returns and moves the cursor forward only. *)
Lemma good_encodeX : good encodeX.
Proof. unfold encodeX. good_tac. Qed.
#[local] Hint Resolve good_encodeX : good.

(** [encodeZz] returns and moves the cursor forward only. *)
Lemma good_encodeZz : good encodeZz.
Proof. unfold encodeZz. good_tac. Qed.
#[local] Hint Resolve good_encodeZz : good.

(** [encodeZuZierZs] returns and moves the cursor forward only. *)
Lemma good_encodeZuZierZs : good encodeZuZierZs.
Proof. unfold encodeZuZierZs. good_tac. Qed.
#[local] Hint Resolve good_encodeZuZierZs : good.

(** [encodeFrenchEz] returns and moves the cursor forward only. *)
Lemma good_encodeFrenchEz : good encodeFrenchEz.
Proof. unfold encodeFrenchEz. good_tac. Qed.
#[local] Hint Resolve good_encodeFrenchEz : good.

(** [encodeGermanZ] returns and moves the cursor forward only. *)
Lemma good_encodeGermanZ : good encodeGermanZ.
Proof. unfold encodeGermanZ. good_tac. Qed.
#[local] Hint Resolve good_encodeGermanZ : good.

(** [encodeZh] returns and moves the cursor forward only. *)
Lemma good_encodeZh : good encodeZh.
Proof. unfold encodeZh. good_tac. Qed.
#[local] Hint Resolve good_encodeZh : good.

(** [encodeZ] returns and moves the cursor forward only. *)
Lemma good_encodeZ : good encodeZ.
Proof. unfold encodeZ. good_tac. Qed.
#[local] Hint Resolve good_encodeZ : good.

(** [encodeSkipSilentUe] calls [skipVowels] at the cursor itself, where
    a result before the cursor would raise.  The rule has matched QUE
    or GUE one rune back, so the cursor is on a U and the scan of
    [skipVowels] takes at least one step. *)
Lemma good_encodeSkipSilentUe : good encodeSkipSilentUe.
Proof.
  intros s W. unfold encodeSkipSilentUe.
  apply runs_ifM_reads; [repeat reads_step|intro H|intros _; apply good_ret, W].
  repeat match goal with
         | H : (?a &&& ?b) s = Ok (true, _) |- _ =>
             apply andM_true in H; [destruct H as [H _]|repeat reads_step]
         end.
  apply que_gue_cursor in H.
  destruct (skipVowels_cursor_U s W H) as (n & E & Hn).
  apply runs_bind.
  - exists tt, (set_idx n s). split.
    + unfold assignIdx. rewrite (bind_eq (withE _) _ s (a := n) (s' := s)); [reflexivity|exact E].
    + unfold ext; simpl. repeat split; lia.
  - intros [] s1 _ X. apply good_ret. exact (wf_ext _ _ W X).
Qed.
#[local] Hint Resolve good_encodeSkipSilentUe : good.

(** [encodeOSilent] returns and moves the cursor forward only. *)
Lemma good_encodeOSilent : good encodeOSilent.
Proof. unfold encodeOSilent. good_tac. Qed.
#[local] Hint Resolve good_encodeOSilent : good.

(** [encodeEPronouncedAtEnd] returns and moves the cursor forward only. *)
Lemma good_encodeEPronouncedAtEnd : good encodeEPronouncedAtEnd.
Proof. unfold encodeEPronouncedAtEnd. good_tac. Qed.
#[local] Hint Resolve good_encodeEPronouncedAtEnd : good.

(** [encodeESilent] returns and moves the cursor forward only. *)
Lemma good_encodeESilent : good encodeESilent.
Proof. unfold encodeESilent. good_tac. Qed.
#[local] Hint Resolve good_encodeESilent : good.

(** [encodeESuffix] returns and moves the cursor forward only. *)
Lemma good_encodeESuffix : forall at_, good (encodeESuffix at_).
Proof. intros. unfold encodeESuffix. good_tac. Qed.
#[local] Hint Resolve good_encodeESuffix : good.

(** [encodeSilentInternalE] returns and moves the cursor forward only. *)
Lemma good_encodeSilentInternalE : good encodeSilentInternalE.
Proof. unfold encodeSilentInternalE. good_tac. Qed.
#[local] Hint Resolve good_encodeSilentInternalE : good.

(** [encodeEPronouncedExceptions] returns and moves the cursor forward only. *)
Lemma good_encodeEPronouncedExceptions : good encodeEPronouncedExceptions.
Proof. unfold encodeEPronouncedExceptions. good_tac. Qed.
#[local] Hint Resolve good_encodeEPronouncedExceptions : good.

(** [encodeEPronounced] returns and moves the cursor forward only. *)
Lemma good_encodeEPronounced : good encodeEPronounced.
Proof. unfold encodeEPronounced. good_tac. Qed.
#[local] Hint Resolve good_encodeEPronounced : good.

(** [encodeEPronounced] moves the cursor by at most one rune. *)
Lemma encodeEPronounced_cursor (s s' : Encoder) :
  wf s -> encodeEPronounced s = Ok (tt, s') -> s'.(idx) <= s.(idx) + 1.
Proof.
  intros W E. unfold encodeEPronounced in E.
  repeat match type of E with
         | ifM ?c _ _ ?s0 = _ =>
             let b := fresh "b" in
             let Hb := fresh "Hb" in
             assert (Hb : reads c s0) by (repeat reads_step);
             destruct Hb as [b Hb]; rewrite (ifM_eq _ _ _ Hb) in E; clear Hb;
             destruct b
         end;
  try (match type of E with
       | ?m ?s0 = Ok (?a, ?s1) =>
           assert (K : keepsIdx m) by keepsIdx_tac; rewrite (K s0 a s1 W E); lia
       end).
  apply bind_inv in E. destruct E as ([] & s1 & E1 & E2).
  rewrite <- (keepsIdx_metaphAddExactApproxAlt _ _ _ _ s tt s1 W E1).
  cbv [bind incIdx addIdx modify ret] in E2. injection E2 as <-. simpl. lia.
Qed.

Ltac runs_by_goodB :=
  lazymatch goal with
  | |- runs ?m ?s =>
      let G := fresh "G" in
      assert (G : goodB m) by goodB_tac; apply G; [assumption|lia]
  end.

(** [encodeVowels] returns when the cursor is on a rune of the word:
    after [encodeEPronounced] the cursor is at most one rune further,
    so [skipVowels] is still called at or before the end. *)
Lemma encodeVowels_ok (s : Encoder) :
  wf s -> s.(idx) < lenIn s -> runs encodeVowels s.
Proof.
  intros W L. unfold encodeVowels. cbv zeta.
  apply runs_ifM_reads; [repeat reads_step|intros _|intros _].
  - runs_by_goodB.
  - apply runs_ifM_reads; [repeat reads_step|intros _|intros _].
    + apply runs_ifM_reads; [repeat reads_step; destruct W; lia|intros _|intros _].
      * runs_by_goodB.
      * apply runs_bind; [apply good_encodeEPronounced, W|].
        intros [] s1 E X. pose proof (wf_ext _ _ W X) as W1.
        pose proof (encodeEPronounced_cursor s s1 W E).
        pose proof (lenIn_ext _ _ X).
        runs_by_goodB.
    + runs_by_goodB.
Qed.

(** * The control loop *)

(** The rule chosen for the rune at the cursor returns and does not
    move the cursor back. *)
Lemma dispatch_ok (c : rune) (s : Encoder) :
  wf s -> s.(idx) < lenIn s -> runs (dispatch c) s.
Proof.
  intros W L. unfold dispatch.
  repeat match goal with
         | |- runs (if ?b then _ else _) _ => destruct b
         end;
    first [ apply encodeL_ok; assumption
          | apply encodeVowels_ok; assumption
          | match goal with
            | |- runs ?m _ =>
                let G := fresh "G" in
                assert (G : good m) by good_tac; exact (G s W)
            end
          | match goal with
            | |- runs ?m _ =>
                let G := fresh "G" in
                assert (G : goodB m) by goodB_tac; apply G; [assumption|lia]
            end ].
Qed.

(** One pass of the loop returns and leaves the cursor strictly
    further. *)
Lemma scanStep_ok (s : Encoder) :
  wf s -> s.(idx) < lenIn s ->
  exists s', scanStep s = Ok (tt, s') /\ ext s s' /\ s.(idx) < s'.(idx).
Proof.
  intros W L. pose proof W as (W0 & _). unfold scanStep.
  destruct (inAt_ok (idx s) s) as [c Hc]; [lia|].
  rewrite (bind_eq (withE (fun e => inAt e.(idx))) _ s (a := c) (s' := s) Hc).
  destruct (dispatch_ok c s W L) as ([] & s1 & E1 & X1).
  rewrite (bind_eq _ _ _ E1).
  exists (set_idx (idx s1 + 1) s1). split; [reflexivity|].
  pose proof X1 as (I & X1').
  split; [|simpl; lia].
  apply (ext_trans _ _ _ X1). unfold ext; simpl. repeat split; lia.
Qed.

Lemma scanLoop_unfold_out (fuel : nat) (s : Encoder) :
  lenIn s <= s.(idx) -> scanLoop fuel s = Ok (tt, s).
Proof.
  intro L. destruct fuel; cbn [scanLoop];
    rewrite (ifM_eq (test _) _ _ (s := s) (s' := s) (b := idx s <? lenIn s) eq_refl);
    destruct (Z.ltb_spec (idx s) (lenIn s)); try lia; reflexivity.
Qed.

Lemma scanLoop_unfold_full (fuel : nat) (s : Encoder) :
  buffersFull s = true -> scanLoop fuel s = Ok (tt, s).
Proof.
  intro B. destruct fuel; cbn [scanLoop];
    rewrite (ifM_eq (test _) _ _ (s := s) (s' := s) (b := idx s <? lenIn s) eq_refl);
    (destruct (idx s <? lenIn s); [|reflexivity]);
    rewrite (ifM_eq (test buffersFull) _ _ (s := s) (s' := s) (b := buffersFull s) eq_refl);
    rewrite B; reflexivity.
Qed.

Lemma scanLoop_unfold_step (fuel : nat) (s s1 : Encoder) :
  s.(idx) < lenIn s -> buffersFull s = false -> scanStep s = Ok (tt, s1) ->
  scanLoop (S fuel) s = scanLoop fuel s1.
Proof.
  intros L B E. cbn [scanLoop].
  rewrite (ifM_eq (test _) _ _ (s := s) (s' := s) (b := idx s <? lenIn s) eq_refl).
  destruct (Z.ltb_spec (idx s) (lenIn s)); [|lia].
  rewrite (ifM_eq (test buffersFull) _ _ (s := s) (s' := s) (b := buffersFull s) eq_refl).
  rewrite B. rewrite (bind_eq _ _ _ E). reflexivity.
Qed.

(** The loop makes at most as many passes as there are runes from the
    cursor to the end, and any fuel of at least that many returns. *)
Lemma scanLoop_ok (k : nat) :
  forall s, wf s -> lenIn s - s.(idx) <= Z.of_nat k ->
  exists n s', scanPasses n s s' /\ (n <= k)%nat /\ ext s s' /\
               forall fuel, (n <= fuel)%nat -> scanLoop fuel s = Ok (tt, s').
Proof.
  induction k as [|k IH]; intros s W F.
  - exists 0%nat, s. split; [apply scanPasses_end; left; lia|].
    split; [lia|]. split; [apply ext_refl|].
    intros fuel _. apply scanLoop_unfold_out. lia.
  - destruct (Z.ltb_spec (idx s) (lenIn s)) as [L|L].
    2: { exists 0%nat, s. split; [apply scanPasses_end; left; lia|].
         split; [lia|]. split; [apply ext_refl|].
         intros fuel _. apply scanLoop_unfold_out. lia. }
    destruct (buffersFull s) eqn:B.
    { exists 0%nat, s. split; [apply scanPasses_end; right; exact B|].
      split; [lia|]. split; [apply ext_refl|].
      intros fuel _. apply scanLoop_unfold_full. exact B. }
    destruct (scanStep_ok s W L) as (s1 & E1 & X1 & I1).
    destruct (IH s1 (wf_ext _ _ W X1)) as (n & s2 & P & N & X2 & R);
      [rewrite (lenIn_ext _ _ X1); lia|].
    exists (S n), s2. split; [eapply scanPasses_pass; eassumption|].
    split; [lia|]. split; [eapply ext_trans; eassumption|].
    intros fuel Hf. destruct fuel as [|fuel]; [lia|].
    rewrite (scanLoop_unfold_step fuel s s1 L B E1). apply R. lia.
Qed.

(** ** The set-up of [Encode] *)

Lemma primeBuf_nil (buf : list rune) (n : Z) : primeBuf buf n = [].
Proof.
  unfold primeBuf. destruct (Z.eqb_spec (llen buf) 0) as [E|E]; simpl; [|reflexivity].
  destruct buf; [reflexivity|]. unfold llen in E. simpl in E. lia.
Qed.

Lemma encodeScan_start (fuel : nat) (ToUpper : rune -> rune) (in0 : string) (e : Encoder) :
  encodeScan fuel ToUpper in0 e = scanLoop fuel (startState ToUpper in0 e).
Proof.
  unfold encodeScan, startState, effectiveMaxLength.
  cbv [bind whenM ifM test get modify setFlagAlInversion setIdx ret].
  destruct (MaxLength e <=? 0); simpl; rewrite !primeBuf_nil; reflexivity.
Qed.

Lemma runes_nonempty (in0 : string) : in0 <> "" -> runes in0 <> [].
Proof.
  destruct in0 as [|c in0]; [congruence|]. intros _.
  unfold runes. cbn [bytes List.length runesOfBytes].
  destruct (decodeRune (rn c :: bytes in0)). discriminate.
Qed.

Lemma wf_startState (ToUpper : rune -> rune) (in0 : string) (e : Encoder) :
  in0 <> "" -> wf (startState ToUpper in0 e).
Proof.
  intro H. unfold wf, startState, lenIn; simpl. split; [lia|]. split; [|reflexivity].
  pose proof (runes_nonempty in0 H). destruct (runes in0); [congruence|discriminate].
Qed.

Lemma lenIn_startState (ToUpper : rune -> rune) (in0 : string) (e : Encoder) :
  lenIn (startState ToUpper in0 e) = Z.of_nat (List.length (runes in0)).
Proof. unfold lenIn, startState, llen; simpl. rewrite length_map. reflexivity. Qed.

(** ** The end of [Encode] *)


Lemma areEqualFrom_refl (buf : list rune) (n : nat) :
  forall i, 0 <= i -> i + Z.of_nat n <= llen buf -> areEqualFrom buf buf i n = Ok true.
Proof.
  induction n as [|n IH]; intros i H0 H1; [reflexivity|].
  cbn [areEqualFrom].
  destruct (index_ok buf i) as [x Hx]; [lia|]. rewrite Hx. cbn [bindR].
  rewrite Z.eqb_refl. cbn [negb]. apply IH; lia.
Qed.

Lemma areEqual_refl (buf : list rune) : areEqual buf buf = Ok true.
Proof.
  unfold areEqual. rewrite Z.eqb_refl. cbn [negb].
  apply areEqualFrom_refl; unfold llen; lia.
Qed.

Lemma sliceTo_ok (buf : list rune) (m : Z) :
  0 <= m -> m < llen buf -> sliceTo buf m = Ok (firstn (Z.to_nat m) buf).
Proof.
  intros H0 H1. unfold sliceTo.
  destruct (Z.ltb_spec m 0); [lia|]. destruct (Z.ltb_spec (llen buf) m); [lia|].
  reflexivity.
Qed.

Lemma encodeFinish_ok (s : Encoder) :
  0 <= s.(MaxLength) ->
  exists b,
    areEqual (trim s.(MaxLength) s.(primBuf)) (trim s.(MaxLength) s.(secondBuf)) = Ok b /\
    encodeFinish s =
      Ok ((stringOfRunes (trim s.(MaxLength) s.(primBuf)),
           if b then "" else stringOfRunes (trim s.(MaxLength) s.(secondBuf))),
          finalState s).
Proof.
  intro H. destruct s as [ev ee ml w i li p q fl]. unfold finalState.
  cbn [MaxLength primBuf secondBuf] in *.
  destruct (areEqual_ok (trim ml p) (trim ml q)) as [b Hb]. exists b.
  split; [exact Hb|].
  set (s0 := mkEncoder ev ee ml w i li p q fl).
  set (s1 := set_primBuf (trim ml p) s0).
  set (s2 := set_secondBuf (trim ml q) s1).
  assert (E1 : whenM (test (fun e => llen e.(primBuf) >? e.(MaxLength)))
                 (b <- withE (fun e => liftR (sliceTo e.(primBuf) e.(MaxLength))) ;;
                  modify (set_primBuf b)) s0 = Ok (tt, s1)).
  { unfold whenM.
    rewrite (ifM_eq (test _) _ _ (s := s0) (s' := s0) (b := llen p >? ml) eq_refl).
    unfold s1, trim. destruct (llen p >? ml) eqn:G; [|reflexivity].
    rewrite Z.gtb_ltb in G. apply Z.ltb_lt in G.
    unfold bind, withE, liftR. cbn [primBuf MaxLength s0].
    rewrite (sliceTo_ok p ml H G). reflexivity. }
  assert (E2 : whenM (test (fun e => llen e.(secondBuf) >? e.(MaxLength)))
                 (b <- withE (fun e => liftR (sliceTo e.(secondBuf) e.(MaxLength))) ;;
                  modify (set_secondBuf b)) s1 = Ok (tt, s2)).
  { unfold whenM.
    rewrite (ifM_eq (test _) _ _ (s := s1) (s' := s1) (b := llen q >? ml) eq_refl).
    unfold s2, trim. destruct (llen q >? ml) eqn:G; [|reflexivity].
    rewrite Z.gtb_ltb in G. apply Z.ltb_lt in G.
    unfold bind, withE, liftR. cbn [secondBuf MaxLength s1 set_primBuf s0].
    rewrite (sliceTo_ok q ml H G). reflexivity. }
  unfold encodeFinish.
  rewrite (bind_eq _ _ _ E1), (bind_eq _ _ _ E2).
  assert (E3 : withE (fun e => liftR (areEqual e.(primBuf) e.(secondBuf))) s2 = Ok (b, s2)).
  { unfold withE, liftR. cbn [primBuf secondBuf s2 s1 s0 set_primBuf set_secondBuf].
    rewrite Hb. reflexivity. }
  rewrite (ifM_eq _ _ _ E3). destruct b; reflexivity.
Qed.

Lemma effectiveMaxLength_pos (e : Encoder) : 0 < effectiveMaxLength e.
Proof.
  unfold effectiveMaxLength, DefaultMaxLength.
  destruct (Z.leb_spec (MaxLength e) 0); lia.
Qed.

(** ** [Encode] as a whole *)

(** [Encode] of a non-empty string: the loop ends in a state [s1]
    after at most one pass per rune, and the results are read off the
    trimmed buffers of [s1]. *)
Lemma Encode_nonempty (ToUpper : rune -> rune) (in0 : string) (e : Encoder) :
  in0 <> "" ->
  exists n s1 b,
    scanPasses n (startState ToUpper in0 e) s1 /\
    (n <= List.length (runes in0))%nat /\
    encodeScan (List.length (runes in0)) ToUpper in0 e = Ok (tt, s1) /\
    ext (startState ToUpper in0 e) s1 /\
    areEqual (trim s1.(MaxLength) s1.(primBuf)) (trim s1.(MaxLength) s1.(secondBuf)) = Ok b /\
    Encode ToUpper in0 e =
      Ok ((stringOfRunes (trim s1.(MaxLength) s1.(primBuf)),
           if b then "" else stringOfRunes (trim s1.(MaxLength) s1.(secondBuf))),
          finalState s1).
Proof.
  intro H.
  destruct (scanLoop_ok (List.length (runes in0)) (startState ToUpper in0 e)
              (wf_startState ToUpper in0 e H)) as (n & s1 & P & N & X & R).
  { rewrite lenIn_startState. simpl. lia. }
  assert (ML : 0 <= MaxLength s1).
  { destruct X as (_ & _ & _ & _ & _ & X). rewrite X. simpl.
    pose proof (effectiveMaxLength_pos e). lia. }
  destruct (encodeFinish_ok s1 ML) as (b & Hb & Hf).
  exists n, s1, b.
  assert (Es : encodeScan (List.length (runes in0)) ToUpper in0 e = Ok (tt, s1)).
  { rewrite encodeScan_start. apply R, N. }
  repeat (split; [assumption|]).
  unfold Encode, EncodeFuel.
  destruct (String.eqb_spec in0 ""); [contradiction|].
  rewrite (bind_eq _ _ _ Es). exact Hf.
Qed.

Lemma Encode_empty (ToUpper : rune -> rune) (e : Encoder) :
  Encode ToUpper "" e = Ok (("", ""), e).
Proof. reflexivity. Qed.

(** The outcome of [Encode] depends on [ToUpper] through the runes of
    the input only. *)
Lemma Encode_ToUpper_ext (T T' : rune -> rune) (in0 : string) (e : Encoder) :
  (forall r, In r (runes in0) -> T r = T' r) -> Encode T in0 e = Encode T' in0 e.
Proof.
  intro H. unfold Encode, EncodeFuel.
  destruct (String.eqb in0 ""); [reflexivity|].
  unfold bind. rewrite !encodeScan_start. unfold startState.
  rewrite (map_ext_in T T' (runes in0) H). reflexivity.
Qed.

(** ** What [Encode] leaves in the configuration fields *)






(** ** The vowel marker at the end of a buffer *)

Lemma lastIsA_endsInA (buf : list rune) : lastIsA buf = Ok (endsInA buf).
Proof.
  unfold lastIsA, endsInA, andR, isAt.
  destruct buf as [|x l] using rev_ind; [reflexivity|].
  rewrite rev_app_distr. cbn [rev app bindR].
  assert (L : llen (l ++ [x]) = llen l + 1).
  { unfold llen. rewrite length_app. simpl. lia. }
  rewrite L. rewrite Z.gtb_ltb.
  destruct (Z.ltb_spec 0 (llen l + 1)); [|unfold llen in *; lia].
  unfold index. destruct (Z.ltb_spec (llen l + 1 - 1) 0); [unfold llen in *; lia|].
  replace (Z.to_nat (llen l + 1 - 1)) with (List.length l) by (unfold llen; lia).
  rewrite nth_error_app2, Nat.sub_diag by lia. reflexivity.
Qed.

Lemma noAA_snoc (buf : list rune) (c : rune) :
  noAA (buf ++ [c]) = noAA buf && negb (endsInA buf && (c =? rn "A")).
Proof.
  induction buf as [|a buf IH]; [reflexivity|].
  destruct buf as [|b buf].
  - cbn [app noAA]. unfold endsInA. cbn [rev app].
    destruct (a =? rn "A"), (c =? rn "A"); reflexivity.
  - change ((a :: b :: buf) ++ [c]) with (a :: (b :: buf) ++ [c]).
    cbn [noAA app] in *. rewrite IH.
    assert (E : endsInA (a :: b :: buf) = endsInA (b :: buf)).
    { unfold endsInA. cbn [rev]. destruct (rev buf); reflexivity. }
    rewrite E. rewrite andb_assoc. reflexivity.
Qed.

(** ** The appends, as functions of the buffers *)

Ltac buffers_step p q :=
  cbn [negb andb primBuf secondBuf set_primBuf set_secondBuf EncodeVowels EncodeExact
       MaxLength in_ idx lastIdx flagAlInversion];
  try rewrite (lastIsA_endsInA p); destruct (endsInA p);
  cbn [negb andb primBuf secondBuf set_primBuf set_secondBuf EncodeVowels EncodeExact
       MaxLength in_ idx lastIdx flagAlInversion];
  try rewrite (lastIsA_endsInA q); destruct (endsInA q);
  reflexivity.

Lemma metaphAddAlt_eq (prim second : rune) (s : Encoder) :
  metaphAddAlt prim second s =
    Ok (tt, set_secondBuf (appendRune second s.(secondBuf))
              (set_primBuf (appendRune prim s.(primBuf)) s)).
Proof.
  destruct s as [ev ee ml w i li p q fl].
  unfold metaphAddAlt, appendRune.
  cbv [whenM ifM bind test get notM andM withE liftR modify ret].
  destruct (prim =? ReplacementChar), (prim =? rn "A"),
           (second =? ReplacementChar), (second =? rn "A");
    buffers_step p q.
Qed.

Lemma metaphAddStr_eq (prim second : string) (s : Encoder) :
  metaphAddStr prim second s =
    Ok (tt, set_secondBuf (appendSecond second s.(secondBuf))
              (set_primBuf (appendPrim prim s.(primBuf)) s)).
Proof.
  destruct s as [ev ee ml w i li p q fl].
  unfold metaphAddStr, appendPrim, appendSecond.
  cbv [whenM ifM bind test get notM andM withE liftR modify ret].
  destruct (String.eqb prim "A"), (String.eqb second ""), (String.eqb second "A");
    buffers_step p q.
Qed.

Lemma noAA_appendRune (c : rune) (buf : list rune) :
  noAA buf = true -> noAA (appendRune c buf) = true.
Proof.
  intro H. unfold appendRune.
  destruct (c =? ReplacementChar); [assumption|].
  destruct ((c =? rn "A") && endsInA buf) eqn:E; [assumption|].
  rewrite noAA_snoc, H. cbn [andb]. rewrite (andb_comm (endsInA buf)), E. reflexivity.
Qed.

Lemma noAA_appendPrim_A (buf : list rune) :
  noAA buf = true -> noAA (appendPrim "A" buf) = true.
Proof.
  intro H. unfold appendPrim. cbn [String.eqb Ascii.eqb Bool.eqb andb].
  destruct (endsInA buf) eqn:E; [assumption|].
  change (runes "A") with [rn "A"]. rewrite noAA_snoc, H, E. reflexivity.
Qed.

Lemma noAA_appendSecond_A (buf : list rune) :
  noAA buf = true -> noAA (appendSecond "A" buf) = true.
Proof.
  intro H. unfold appendSecond. cbn [String.eqb Ascii.eqb Bool.eqb andb].
  destruct (endsInA buf) eqn:E; [assumption|].
  change (runes "A") with [rn "A"]. rewrite noAA_snoc, H, E. reflexivity.
Qed.

(** ** A match lies inside the word *)

Lemma stringAtEndVals_true (w : list rune) (start : Z) (vals : list string) :
  stringAtEndVals w start vals = Ok true ->
  exists v, In v vals /\ start + len v = llen w.
Proof.
  induction vals as [|v vals IH]; cbn [stringAtEndVals]; [discriminate|].
  cbv zeta. rewrite Z.gtb_ltb.
  destruct (Z.ltb_spec (llen w) (start + len v)); [discriminate|].
  destruct (Z.ltb_spec (start + len v) (llen w)).
  - intro H1. destruct (IH H1) as (v' & I & R). exists v'. split; [right; assumption|assumption].
  - destruct (matchRunes w start (runes v)) as [[]| |]; simpl; try discriminate.
    + intros _. exists v. split; [left; reflexivity|lia].
    + intro H1. destruct (IH H1) as (v' & I & R). exists v'.
      split; [right; assumption|assumption].
Qed.

Lemma stringAtEnd_true (offset : Z) (vals : list string) (s s' : Encoder) :
  stringAtEnd offset vals s = Ok (true, s') ->
  exists v, In v vals /\ 0 <= s.(idx) + offset /\ s.(idx) + offset + len v = lenIn s.
Proof.
  unfold stringAtEnd, startOutside, liftR. cbv zeta.
  destruct ((idx s + offset <? 0) || (idx s + offset >=? llen (in_ s))) eqn:O;
    cbn [bindR]; [discriminate|].
  apply orb_false_elim in O. destruct O as [O _]. apply Z.ltb_ge in O.
  destruct (index vals 0) as [v0| |]; cbn [bindR]; try discriminate.
  destruct (idx s + offset + len v0 >? llen (in_ s)); [discriminate|].
  destruct (stringAtEndVals (in_ s) (idx s + offset) vals) as [[]| |] eqn:E;
    try discriminate.
  intros _. destruct (stringAtEndVals_true _ _ _ E) as (v & I & R).
  exists v. split; [assumption|]. split; [assumption|exact R].
Qed.

Lemma stringEndVals_true (w : list rune) (vals : list string) :
  stringEndVals w vals = Ok true -> exists v, In v vals /\ len v <= llen w.
Proof.
  induction vals as [|v vals IH]; cbn [stringEndVals]; [discriminate|].
  cbv zeta. destruct (Z.ltb_spec (llen w - len v) 0); [discriminate|].
  destruct (matchRunes w (llen w - len v) (runes v)) as [[]| |]; simpl; try discriminate.
  - intros _. exists v. split; [left; reflexivity|lia].
  - intro H1. destruct (IH H1) as (v' & I & R). exists v'.
    split; [right; assumption|assumption].
Qed.

Lemma stringExactVals_true (w : list rune) (vals : list string) :
  stringExactVals w vals = Ok true -> exists v, In v vals /\ len v = llen w.
Proof.
  induction vals as [|v vals IH]; cbn [stringExactVals]; [discriminate|].
  rewrite Z.gtb_ltb. destruct (Z.ltb_spec (llen w) (len v)); [discriminate|].
  destruct (Z.ltb_spec (len v) (llen w)).
  - intro H1. destruct (IH H1) as (v' & I & R). exists v'. split; [right; assumption|assumption].
  - destruct (matchRunes w 0 (runes v)) as [[]| |]; simpl; try discriminate.
    + intros _. exists v. split; [left; reflexivity|lia].
    + intro H1. destruct (IH H1) as (v' & I & R). exists v'.
      split; [right; assumption|assumption].
Qed.

Lemma liftR_inv {A} (r : result A) (s s' : Encoder) (a : A) :
  liftR r s = Ok (a, s') -> r = Ok a.
Proof. unfold liftR. destruct r; intro H; try discriminate. injection H as -> _. reflexivity. Qed.

(** * The properties of the specification *)

(** ** Fixed words *)

Lemma Encode_on_ASCII (ToUpper : rune -> rune) (in0 : string) (e : Encoder) :
  upperOnASCII ToUpper ->
  (forall r, In r (runes in0) -> 0 <= r <= 127) ->
  Encode ToUpper in0 e = Encode asciiToUpper in0 e.
Proof. intros H F. apply Encode_ToUpper_ext. intros r I. apply H, F, I. Qed.

Ltac ascii_word :=
  let r := fresh "r" in
  let I := fresh "I" in
  intros r I; vm_compute in I;
  repeat (destruct I as [I|I]; [subst r; lia|]); contradiction.

Ltac word_value H :=
  unfold returns; rewrite (Encode_on_ASCII _ _ _ H) by ascii_word;
  eexists; vm_compute; reflexivity.

(** C1.  With [EncodeVowels] and [EncodeExact] false and [MaxLength]
    left at its zero value, [Encode] returns ("A", "") for "A",
    ("AK", "") for "ACK" and for "EEK", and ("AK", "AX") for "ACHE";
    with [EncodeVowels] true it returns ("SAPARNAT", "") for
    "SUPERNODE".  [ToUpper] is any function that agrees with
    [unicode.ToUpper] on ASCII. *)
Theorem Encode_basic_words (ToUpper : rune -> rune) :
  upperOnASCII ToUpper ->
  returns (Encode ToUpper "A" (newEncoder false false 0)) ("A", "") /\
  returns (Encode ToUpper "ACK" (newEncoder false false 0)) ("AK", "") /\
  returns (Encode ToUpper "EEK" (newEncoder false false 0)) ("AK", "") /\
  returns (Encode ToUpper "ACHE" (newEncoder false false 0)) ("AK", "AX") /\
  returns (Encode ToUpper "SUPERNODE" (newEncoder true false 0)) ("SAPARNAT", "").
Proof.
  intro H. repeat split; word_value H.
Qed.

Lemma Encode_basic_words_witness :
  upperOnASCII asciiToUpper /\
  returns (Encode asciiToUpper "A" (newEncoder false false 0)) ("A", "") /\
  returns (Encode asciiToUpper "ACK" (newEncoder false false 0)) ("AK", "") /\
  returns (Encode asciiToUpper "EEK" (newEncoder false false 0)) ("AK", "") /\
  returns (Encode asciiToUpper "ACHE" (newEncoder false false 0)) ("AK", "AX") /\
  returns (Encode asciiToUpper "SUPERNODE" (newEncoder true false 0)) ("SAPARNAT", "").
Proof.
  split; [intros r _; reflexivity|].
  apply (Encode_basic_words asciiToUpper). intros r _. reflexivity.
Defined.

(** ** Length of the results *)


(** ** Equal buffers *)

(** C3.  When the two buffers are equal at the end of the loop, or
    more generally equal once both are cut to [MaxLength], the
    secondary string that [Encode] returns is the empty string. *)
Theorem Encode_secondary_empty (ToUpper : rune -> rune) (in0 : string)
    (e s1 : Encoder) :
  in0 <> "" ->
  encodeScan (List.length (runes in0)) ToUpper in0 e = Ok (tt, s1) ->
  s1.(primBuf) = s1.(secondBuf) \/
    trim s1.(MaxLength) s1.(primBuf) = trim s1.(MaxLength) s1.(secondBuf) ->
  exists p e', Encode ToUpper in0 e = Ok ((p, ""), e').
Proof.
  intros N S Q.
  destruct (Encode_nonempty ToUpper in0 e N) as (n & s1' & b & _ & _ & S' & _ & A & R).
  rewrite S in S'. injection S' as <-.
  assert (T : trim (MaxLength s1) (primBuf s1) = trim (MaxLength s1) (secondBuf s1)).
  { destruct Q as [Q|Q]; [rewrite Q; reflexivity|exact Q]. }
  rewrite T, areEqual_refl in A. injection A as <-.
  eexists; eexists. exact R.
Qed.

Lemma Encode_secondary_empty_witness :
  exists p e', Encode asciiToUpper "A" (newEncoder false false 0) = Ok ((p, ""), e').
Proof.
  apply (Encode_secondary_empty asciiToUpper "A" (newEncoder false false 0)
           (mkEncoder false false 8 [65] 2 0 [65] [65] false)).
  - discriminate.
  - vm_compute. reflexivity.
  - left. reflexivity.
Defined.

(** ** Termination *)


(** ** No failure *)


(** ** Determinism *)


(** ** The vowel marker *)

(** C7, as the code has it.  An append of a single rune
    ([metaphAdd], [metaphAddAlt]) and an append of the one-rune string
    "A" ([metaphAddStr]) never put an 'A' behind an 'A': a buffer
    without two consecutive 'A' stays so.  A longer string is appended
    as it is, whatever the buffer ends with: the guard of
    [metaphAddStr] compares the whole string with "A". *)
Theorem metaphAdd_marker_once (s : Encoder) :
  (forall prim second, exists s',
     metaphAddAlt prim second s = Ok (tt, s') /\
     (noAA s.(primBuf) = true -> noAA s'.(primBuf) = true) /\
     (noAA s.(secondBuf) = true -> noAA s'.(secondBuf) = true)) /\
  (forall prim second, exists s',
     metaphAddStr prim second s = Ok (tt, s') /\
     (prim = "A" -> noAA s.(primBuf) = true -> noAA s'.(primBuf) = true) /\
     (second = "A" -> noAA s.(secondBuf) = true -> noAA s'.(secondBuf) = true) /\
     (prim <> "A" -> s'.(primBuf) = s.(primBuf) ++ runes prim) /\
     (second <> "A" -> second <> "" -> s'.(secondBuf) = s.(secondBuf) ++ runes second)).
Proof.
  split; intros prim second.
  - eexists. split; [apply metaphAddAlt_eq|]. simpl.
    split; apply noAA_appendRune.
  - eexists. split; [apply metaphAddStr_eq|]. simpl.
    split; [intros ->; apply noAA_appendPrim_A|].
    split; [intros ->; apply noAA_appendSecond_A|].
    split.
    + intro N. unfold appendPrim.
      destruct (String.eqb_spec prim "A"); [contradiction|reflexivity].
    + intros N1 N2. unfold appendSecond.
      destruct (String.eqb_spec second ""); [contradiction|].
      destruct (String.eqb_spec second "A"); [contradiction|reflexivity].
Qed.

(** With [EncodeVowels], "MAHRE" is encoded as "MAAR": the vowel gives
    'A' and the ending "RE" is appended as the string "AR".  Likewise
    "AL" behind an 'A' gives "AAL". *)
Lemma Encode_MAHRE_double_A :
  (exists e',
     Encode asciiToUpper "MAHRE" (newEncoder true false 0) = Ok (("MAAR", ""), e') /\
     noAA e'.(primBuf) = false) /\
  (exists s',
     metaphAddStr "AL" "AL" (mkEncoder true false 8 [] 0 0 [rn "A"] [rn "A"] false)
       = Ok (tt, s') /\
     s'.(primBuf) = [rn "A"; rn "A"; rn "L"] /\ noAA s'.(primBuf) = false).
Proof.
  split.
  - eexists. split; [vm_compute; reflexivity|reflexivity].
  - eexists. split; [vm_compute; reflexivity|]. split; reflexivity.
Qed.

(** ** The context matchers *)

(** C8.  For any encoder, offset and non-empty list of candidates,
    each matcher returns a boolean and leaves the encoder as it was;
    no rune outside the input is read (that would be an index out of
    range); and the answer is [true] only if a candidate lies inside
    the input at the place looked at. *)
Theorem matchers_safe (e : Encoder) (offset : Z) (vals : list string) (val : string) :
  vals <> [] ->
  safeAt (stringAt offset vals) e
    (exists v, In v vals /\ 0 <= e.(idx) + offset /\
               e.(idx) + offset + len v <= lenIn e) /\
  safeAt (stringAtStart offset vals) e
    (exists v, In v vals /\ e.(idx) + offset = 0 /\ len v <= lenIn e) /\
  safeAt (stringAtEnd offset vals) e
    (exists v, In v vals /\ 0 <= e.(idx) + offset /\
               e.(idx) + offset + len v = lenIn e) /\
  safeAt (stringExact vals) e (exists v, In v vals /\ len v = lenIn e) /\
  safeAt (stringEnd vals) e (exists v, In v vals /\ len v <= lenIn e) /\
  safeAt (stringContains val) e (len val <= lenIn e).
Proof.
  intro N. unfold safeAt.
  split; [|split; [|split; [|split; [|split]]]].
  - destruct (stringAt_ok offset vals e N) as [b Hb]. exists b. split; [exact Hb|].
    intros ->. destruct (stringAt_true _ _ _ _ Hb) as (v & I & H0 & H1 & _).
    exists v. repeat split; assumption.
  - destruct (stringAtStart_ok offset vals e N) as [b Hb]. exists b. split; [exact Hb|].
    intros ->. unfold stringAtStart in Hb.
    destruct (Z.eqb_spec offset (- idx e)) as [O|O]; cbn [negb] in Hb; [|discriminate].
    destruct (stringAt_true _ _ _ _ Hb) as (v & I & H0 & H1 & _).
    exists v. split; [assumption|]. split; lia.
  - destruct (stringAtEnd_ok offset vals e N) as [b Hb]. exists b. split; [exact Hb|].
    intros ->. destruct (stringAtEnd_true _ _ _ _ Hb) as (v & I & H0 & H1).
    exists v. repeat split; assumption.
  - destruct (stringExact_ok vals e) as [b Hb]. exists b. split; [exact Hb|].
    intros ->. apply liftR_inv in Hb. apply stringExactVals_true in Hb. exact Hb.
  - destruct (stringEnd_ok vals e) as [b Hb]. exists b. split; [exact Hb|].
    intros ->. apply liftR_inv in Hb. apply stringEndVals_true in Hb. exact Hb.
  - destruct (stringContains_ok val e) as [b Hb]. exists b. split; [exact Hb|].
    intros ->. unfold stringContains in Hb. cbv zeta in Hb.
    destruct (Z.ltb_spec (lenIn e - len val) 0); [discriminate|lia].
Qed.

Lemma matchers_safe_witness :
  ["QUE"; "GUE"] <> [] /\
  safeAt (stringAt (-1) ["QUE"; "GUE"]) atPLAQUE
    (exists v, In v ["QUE"; "GUE"] /\ 0 <= atPLAQUE.(idx) + -1 /\
               atPLAQUE.(idx) + -1 + len v <= lenIn atPLAQUE) /\
  safeAt (stringAtStart (-1) ["QUE"; "GUE"]) atPLAQUE
    (exists v, In v ["QUE"; "GUE"] /\ atPLAQUE.(idx) + -1 = 0 /\ len v <= lenIn atPLAQUE) /\
  safeAt (stringAtEnd (-1) ["QUE"; "GUE"]) atPLAQUE
    (exists v, In v ["QUE"; "GUE"] /\ 0 <= atPLAQUE.(idx) + -1 /\
               atPLAQUE.(idx) + -1 + len v = lenIn atPLAQUE) /\
  safeAt (stringExact ["QUE"; "GUE"]) atPLAQUE
    (exists v, In v ["QUE"; "GUE"] /\ len v = lenIn atPLAQUE) /\
  safeAt (stringEnd ["QUE"; "GUE"]) atPLAQUE
    (exists v, In v ["QUE"; "GUE"] /\ len v <= lenIn atPLAQUE) /\
  safeAt (stringContains "QU") atPLAQUE (len "QU" <= lenIn atPLAQUE).
Proof.
  split; [discriminate|].
  apply (matchers_safe atPLAQUE (-1) ["QUE"; "GUE"] "QU"). discriminate.
Defined.

(** ** The configuration *)



(** ** The empty input *)

(** C10.  For every encoder, [Encode] of the empty string returns two
    empty strings and leaves every field of the encoder as it was. *)
Theorem Encode_empty_input (ToUpper : rune -> rune) (e : Encoder) :
  Encode ToUpper "" e = Ok (("", ""), e).
Proof. reflexivity. Qed.
